(** * Loop canonicalisation and mixed-container unrolling (numba/untyped_passes.py)
    and the inversion error handler (numba/targets/linalg.py).

  The passes are embedded as functions over an explicit compilation state.
  Python dictionaries whose iteration order the passes rely on are insertion
  ordered association lists; exceptions are values of [exn]. *)

From Stdlib Require Import ZArith List Ascii String Lia Bool.
From stdpp Require Import base tactics option list strings pretty sorting.

Set Warnings "-register-all".

Open Scope string_scope.
Open Scope Z_scope.

(** ** Python primitives *)

Module Py.

(** The exceptions the embedded code can raise. *)
Inductive exn :=
| KeyError
| IndexError
| AttributeError
| TypeError
| AssertionError
| ValueError (msg : string)
| UnsupportedError (msg : string)
| CompilerError (msg : string)
| RuntimeError (msg : string)
| LinAlgError (msg : string).

Inductive result (A : Type) :=
| Ok (a : A)
| Raise (e : exn).
Arguments Ok {A} a.
Arguments Raise {A} e.

Definition bind {A B} (k : A -> result B) (m : result A) : result B :=
  match m with
  | Ok a => k a
  | Raise e => Raise e
  end.

Definition of_option {A} (e : exn) (o : option A) : result A :=
  match o with
  | Some a => Ok a
  | None => Raise e
  end.

(** [assert c] *)
Definition assert (c : bool) : result unit :=
  if c then Ok tt else Raise AssertionError.

Definition newline : string := String (ascii_of_nat 10) EmptyString.
Definition tab : string := String (ascii_of_nat 9) EmptyString.
Definition dquote : string := String (ascii_of_nat 34) EmptyString.

(** [sep.join(xs)] *)
Fixpoint join (sep : string) (xs : list string) : string :=
  match xs with
  | [] => ""
  | [x] => x
  | x :: rest => x ++ sep ++ join sep rest
  end.

(** [''.join(xs)] *)
Definition concat_str (xs : list string) : string :=
  fold_right String.append "" xs.

(** [str(n)] for a non-negative integer. *)
Definition str (n : nat) : string := pretty n.

(** [needle in hay] on strings. *)
Fixpoint contains (needle hay : string) : bool :=
  String.prefix needle hay
  || match hay with
     | EmptyString => false
     | String _ rest => contains needle rest
     end.

End Py.

Import Py.

#[global] Instance result_ret : MRet Py.result := @Py.Ok.
#[global] Instance result_bind : MBind Py.result := @Py.bind.

(** ** Insertion-ordered dictionaries *)

Module Dict.
Section dict.
Context {K V : Type} `{EqDecision K}.

Definition t := list (K * V).

Fixpoint get (d : list (K * V)) (k : K) : option V :=
  match d with
  | [] => None
  | (k', v) :: rest => if decide (k' = k) then Some v else get rest k
  end.

(** [d[k] = v]: an existing key keeps its position, a new key goes last. *)
Fixpoint set (d : list (K * V)) (k : K) (v : V) : list (K * V) :=
  match d with
  | [] => [(k, v)]
  | (k', v') :: rest =>
      if decide (k' = k) then (k, v) :: rest else (k', v') :: set rest k v
  end.

(** [del d[k]] / the state left by [d.pop(k)]. *)
Fixpoint remove (d : list (K * V)) (k : K) : list (K * V) :=
  match d with
  | [] => []
  | (k', v') :: rest =>
      if decide (k' = k) then rest else (k', v') :: remove rest k
  end.

Definition keys (d : list (K * V)) : list K := map fst d.
Definition values (d : list (K * V)) : list V := map snd d.

Definition mem (d : list (K * V)) (k : K) : bool :=
  match get d k with Some _ => true | None => false end.

(** [d.popitem()]: the pair inserted last, and the rest. *)
Definition popitem (d : list (K * V)) : option ((K * V) * list (K * V)) :=
  match rev d with
  | [] => None
  | kv :: rest => Some (kv, rev rest)
  end.

End dict.
End Dict.

(** ** The intermediate representation (numba/ir.py, as far as the passes use it) *)

Module ir.

Definition label := Z.

(** Python objects carried by [Global] and [Const]; functions compare by identity. *)
Inductive pyobj :=
| py_range
| py_len
| py_literal_unroll
| py_get_range
| py_int (z : Z)
| py_str (s : string)
| py_tuple (items : list nat)
| py_none
| py_other (id : nat).

(** Types of the partial type map (numba/types). [Tuple] and [UniTuple] are the
    fixed-length containers; iterating one yields its slot types. *)
Inductive ty :=
| Literal (literal_value : pyobj)
| Scalar (name : string)
| Tuple (types : list ty)
| UniTuple (dtype : ty) (count : nat)
| void.

(** [ir.Expr]; operands are variables, held by name. *)
Inductive expr :=
| call (func : string) (args : list string)
| getiter (value : string)
| iternext (value : string)
| pair_first (value : string)
| pair_second (value : string)
| getitem (value index : string)
| typed_getitem (value : string) (dtype : ty) (index : string)
| exhaust_iter (value : string) (count : nat)
| binop (fn lhs rhs : string)
| build_tuple (items : list string).

(** Anything an assignment can have on its right-hand side, and what the
    attribute walks of the passes can reach from there. *)
Inductive value :=
| Var (name : string)
| Const (value : pyobj)
| Global (name : string) (value : pyobj)
| Arg (name : string) (index : nat)
| Expr (e : expr)
| Obj (o : pyobj).

Inductive stmt :=
| Assign (value : value) (target : string)
| Jump (target : label)
| Branch (cond : string) (truebr falsebr : label)
| Return (value : string)
| StaticRaise (msg : string)
| Del (value : string).

Record Block := mkBlock { body : list stmt }.

#[global] Instance pyobj_eq_dec : EqDecision pyobj.
Proof. solve_decision. Defined.

Lemma ty_eq_dec : forall x y : ty, {x = y} + {x <> y}.
Proof.
  fix IH 1. intros x y. decide equality.
  - apply pyobj_eq_dec.
  - apply String.eq_dec.
  - apply (List.list_eq_dec IH).
  - apply Nat.eq_dec.
Defined.

#[global] Instance ty_eq_dec' : EqDecision ty := ty_eq_dec.
#[global] Instance expr_eq_dec : EqDecision expr.
Proof. solve_decision. Defined.
#[global] Instance value_eq_dec : EqDecision value.
Proof. solve_decision. Defined.
#[global] Instance stmt_eq_dec : EqDecision stmt.
Proof. solve_decision. Defined.
#[global] Instance Block_eq_dec : EqDecision Block.
Proof. solve_decision. Defined.

(** [e.op] *)
Definition op (e : expr) : string :=
  match e with
  | call _ _ => "call"
  | getiter _ => "getiter"
  | iternext _ => "iternext"
  | pair_first _ => "pair_first"
  | pair_second _ => "pair_second"
  | getitem _ _ => "getitem"
  | typed_getitem _ _ _ => "typed_getitem"
  | exhaust_iter _ _ => "exhaust_iter"
  | binop _ _ _ => "binop"
  | build_tuple _ => "build_tuple"
  end.

(** Attribute access.  An [ir.Expr] looks an attribute up in the table of its
    keywords ("getattr is overloaded to look in _kws", untyped_passes.py lines
    345-347), so a keyword it was not built with raises KeyError; on any other
    node a missing attribute raises AttributeError. *)

(** [x.value] *)
Definition attr_value (x : value) : result value :=
  match x with
  | Const o => Ok (Obj o)
  | Global _ o => Ok (Obj o)
  | Expr (getiter v) | Expr (iternext v) | Expr (pair_first v)
  | Expr (pair_second v) | Expr (getitem v _) | Expr (typed_getitem v _ _)
  | Expr (exhaust_iter v _) => Ok (Var v)
  | Expr _ => Raise KeyError
  | _ => Raise AttributeError
  end.

(** [x.func] *)
Definition attr_func (x : value) : result value :=
  match x with
  | Expr (call f _) => Ok (Var f)
  | Expr _ => Raise KeyError
  | _ => Raise AttributeError
  end.

(** [x.args], the argument variables by name *)
Definition attr_args (x : value) : result (list string) :=
  match x with
  | Expr (call _ a) => Ok a
  | Expr _ => Raise KeyError
  | _ => Raise AttributeError
  end.

(** [getattr(x, name, None)], given what [x.name] does: the default replaces
    an AttributeError and nothing else. *)
Definition getattr_default {A} (r : result A) : result (option A) :=
  match r with
  | Ok a => Ok (Some a)
  | Raise AttributeError => Ok None
  | Raise e => Raise e
  end.

(** [x.args[0]] *)
Definition first_arg (x : value) : result string :=
  match attr_args x with
  | Ok a => of_option IndexError (head a)
  | Raise e => Raise e
  end.

(** [isinstance(x, ir.Global) and x.value is o] *)
Definition is_Global_of (o : pyobj) (x : value) : bool :=
  match x with Global _ o' => bool_decide (o' = o) | _ => false end.

(** [x.name] *)
Definition attr_name (x : value) : result string :=
  match x with
  | Var n | Global n _ | Arg n _ => Ok n
  | _ => Raise AttributeError
  end.

(** [isinstance(x, ir.Expr)] *)
Definition is_Expr (x : value) : bool :=
  match x with Expr _ => true | _ => false end.

(** [isinstance(x, ir.Global)] *)
Definition is_Global (x : value) : bool :=
  match x with Global _ _ => true | _ => false end.

(** [isinstance(x, ir.Expr) and x.op == o] *)
Definition is_Expr_op (o : string) (x : value) : bool :=
  match x with Expr e => bool_decide (op e = o) | _ => false end.

(** Modelled from the spec: Block.find_exprs of numba/ir.py, which is not among
    the sources.  "scan loop header ... find_exprs('iternext')" is read as the
    expressions with the given op on the right-hand side of the block's
    assignments, in statement order. *)
Definition find_exprs (o : string) (b : Block) : list expr :=
  omap (fun s => match s with
                 | Assign (Expr e) _ => if decide (op e = o) then Some e else None
                 | _ => None
                 end) (body b).

(** A natural loop as the CFG analysis reports it; the sets are held in
    iteration order. *)
Record Loop := mkLoop {
  header : label;
  loop_body : list label;
  entries : list label;
  exits : list label }.

#[global] Instance Loop_eq_dec : EqDecision Loop.
Proof. solve_decision. Defined.

(** [ir.FunctionIR]: the block map, the definitions table and the live-variable
    map of [variable_lifetime]. *)
Record FunctionIR := mkIR {
  blocks : list (label * Block);
  _definitions : list (string * list value);
  livemap : list (label * list string) }.

End ir.

Import ir.

(** ** numba/targets/linalg.py: the error handler of [np.linalg.inv] *)

Module linalg.

(** What a call of compiled code does to the process. *)
Inductive outcome (A : Type) :=
| Returns (a : A)
| Raises (e : exn)
| Aborts.
Arguments Returns {A} a.
Arguments Raises {A} e.
Arguments Aborts {A}.

#[global] Instance outcome_ret : MRet outcome := @Returns.
#[global] Instance outcome_bind : MBind outcome := fun A B k m =>
  match m with
  | Returns a => k a
  | Raises e => Raises e
  | Aborts => Aborts
  end.

(** Modelled from the spec: [fatal_error_func] is declared in linalg.py as the
    external function numba_fatal_error, whose body is not among the sources;
    the spec calls it process-fatal, so a call never returns. *)
Definition fatal_error_func : outcome Z := Aborts.

(** [assert 0] *)
Definition assert_0 : outcome unit := Raises AssertionError.

Definition _inv_err_handler (r : Z) : outcome unit :=
  if negb (r =? 0) then
    (if r <? 0 then fatal_error_func ;; assert_0 else Returns tt) ;;
    (if 0 <? r
     then Raises (LinAlgError "Matrix is singular and cannot be inverted.")
     else Returns tt)
  else Returns tt.

End linalg.

(** ** MixedContainerUnroller: switch data and switch table *)

Module SwitchTable.

(** Modelled from the spec: iterating a container type (numba/types is not among
    the sources) yields "an ordered sequence of per-slot element types". *)
Definition slots (t : ty) : result (list ty) :=
  match t with
  | Tuple types => Ok types
  | UniTuple dtype count => Ok (repeat dtype count)
  | _ => Raise TypeError
  end.

Section analyse.
Context {T : Type} `{EqDecision T}.

(** One iteration of [for i, ty in enumerate(tup): d[ty].append(i)] on the
    [defaultdict(list)]. *)
Definition append_index (d : list (T * list nat)) (i : nat) (t : T)
  : list (T * list nat) :=
  Dict.set d t (default [] (Dict.get d t) ++ [i])%list.

Fixpoint analyse_from (d : list (T * list nat)) (i : nat) (tup : list T)
  : list (T * list nat) :=
  match tup with
  | [] => d
  | t :: rest => analyse_from (append_index d i t) (S i) rest
  end.

Definition analyse_tuple (tup : list T) : list (T * list nat) :=
  analyse_from [] 0%nat tup.

End analyse.

Definition elif_tplt (s : string) : string :=
  newline ++ tab ++ "elif PLACEHOLDER_INDEX in (" ++ s ++ ",):"
  ++ newline ++ tab ++ tab ++ "SENTINEL = None".

Definition b (s1 s2 : string) : string :=
  "def foo():" ++ newline ++ tab ++ "if PLACEHOLDER_INDEX in (" ++ s1 ++ ",):"
  ++ newline ++ tab ++ tab ++ "SENTINEL = None" ++ newline ++ s2
  ++ newline ++ tab ++ "else:" ++ newline ++ tab ++ tab
  ++ "raise RuntimeError(" ++ dquote ++ "Unreachable" ++ dquote ++ ")".

(** [','.join(map(str, idxs))] *)
Definition idx_list (idxs : list nat) : string := join "," (map str idxs).

Section gen.
Context {T : Type} `{EqDecision T}.

(** The text [src] that gen_switch builds and hands to [exec]. *)
Definition gen_switch_src (data : list (T * list nat)) : result string :=
  let keys := Dict.keys data in
  elifs ← mapM (fun k => idxs ← of_option KeyError (Dict.get data k);
                         Ok (elif_tplt (idx_list idxs))) (tail keys);
  k0 ← of_option IndexError (head keys);
  first ← of_option KeyError (Dict.get data k0);
  Ok (b (idx_list first) (concat_str elifs)).

End gen.

(** The function [foo] that the text denotes: an if/elif chain of membership
    tests on PLACEHOLDER_INDEX, one SENTINEL assignment under each test, and a
    closing else that raises. *)
Record switch_fn := mkSwitch {
  if_test : list nat;
  elif_tests : list (list nat) }.

Definition unparse (f : switch_fn) : string :=
  b (idx_list (if_test f))
    (concat_str (map (fun idxs => elif_tplt (idx_list idxs)) (elif_tests f))).

(** The tests of the chain in program order. *)
Definition tests (f : switch_fn) : list (list nat) := if_test f :: elif_tests f.

(** The number of the first test that holds at index [i]. *)
Fixpoint select (ts : list (list nat)) (i : nat) : option nat :=
  match ts with
  | [] => None
  | t :: rest => if decide (i ∈ t) then Some 0%nat else S <$> select rest i
  end.

(** Running [foo] with PLACEHOLDER_INDEX bound to [i]: the SENTINEL branch
    reached, or the error of the else branch. *)
Definition run_switch (f : switch_fn) (i : nat) : result nat :=
  of_option (RuntimeError "Unreachable") (select (tests f) i).

End SwitchTable.

(** ** Facts about dictionaries *)

Section dict_facts.
Context {K V : Type} `{EqDecision K}.
Implicit Types (d : list (K * V)) (k : K) (v : V).

Lemma get_None d k : Dict.get d k = None <-> k ∉ Dict.keys d.
Proof.
  unfold Dict.keys. induction d as [|[k' v'] d IH]; simpl.
  - split; [intros _; apply not_elem_of_nil | done].
  - destruct (decide (k' = k)) as [->|Hne].
    + split; [done | intros Hn; exfalso; apply Hn; left].
    + rewrite IH, not_elem_of_cons. split; [intros ?; split; congruence | tauto].
Qed.

Lemma get_Some_elem d k v : Dict.get d k = Some v -> (k, v) ∈ d.
Proof.
  induction d as [|[k' v'] d IH]; simpl; [done|].
  destruct (decide (k' = k)) as [->|Hne].
  - intros [= ->]. left.
  - intros Hg. right. auto.
Qed.

Lemma get_elem_NoDup d k v :
  NoDup (Dict.keys d) -> (k, v) ∈ d -> Dict.get d k = Some v.
Proof.
  unfold Dict.keys. induction d as [|[k' v'] d IH]; simpl; intros Hnd Hin.
  - by apply elem_of_nil in Hin.
  - apply NoDup_cons in Hnd as [Hk' Hnd].
    apply elem_of_cons in Hin as [[= -> ->]|Hin].
    + by rewrite decide_True.
    + rewrite decide_False; [auto|].
      intros ->. apply Hk'. apply list_elem_of_fmap. by exists (k, v).
Qed.

Lemma set_absent d k v : k ∉ Dict.keys d -> Dict.set d k v = (d ++ [(k, v)])%list.
Proof.
  unfold Dict.keys. induction d as [|[k' v'] d IH]; simpl; [done|].
  rewrite not_elem_of_cons. intros [Hne Hn].
  rewrite decide_False by done. by rewrite IH.
Qed.

Lemma set_present d k v :
  NoDup (Dict.keys d) -> k ∈ Dict.keys d ->
  Dict.set d k v = map (fun p => if decide (p.1 = k) then (k, v) else p) d.
Proof.
  unfold Dict.keys. induction d as [|[k' v'] d IH]; simpl; intros Hnd Hin.
  - by apply elem_of_nil in Hin.
  - apply NoDup_cons in Hnd as [Hk' Hnd].
    destruct (decide (k' = k)) as [->|Hne].
    + f_equal. symmetry. erewrite map_ext_in; [apply map_id|].
      intros [k2 v2] Hin2. simpl. rewrite decide_False; [done|].
      intros ->. apply Hk'. apply list_elem_of_fmap. exists (k, v2).
      split; [done|]. by apply list_elem_of_In.
    + f_equal. apply elem_of_cons in Hin as [?|Hin]; [congruence|]. auto.
Qed.

Lemma keys_set d k v :
  Dict.keys (Dict.set d k v)
  = if decide (k ∈ Dict.keys d) then Dict.keys d else (Dict.keys d ++ [k])%list.
Proof.
  unfold Dict.keys. induction d as [|[k' v'] d IH]; simpl.
  - destruct (decide (k ∈ [])) as [Hin|_]; [by apply elem_of_nil in Hin | done].
  - destruct (decide (k' = k)) as [->|Hne]; simpl.
    + rewrite decide_True; [done | left].
    + rewrite IH. destruct (decide (k ∈ map fst d)) as [Hin|Hnin].
      * rewrite decide_True; [done | by right].
      * rewrite decide_False; [done|].
        rewrite not_elem_of_cons. split; [congruence | done].
Qed.

End dict_facts.

Lemma filter_all {A} (P : A -> Prop) `{forall x, Decision (P x)} (l : list A) :
  (forall x, x ∈ l -> P x) -> filter P l = l.
Proof.
  induction l as [|x l IH]; intros Hall; [done|].
  rewrite filter_cons_True by (apply Hall; left).
  f_equal. apply IH. intros y Hy. apply Hall. by right.
Qed.

(** ** Switch data: what [analyse_tuple] computes *)

Section switch_data_facts.
Context {T : Type} `{EqDecision T}.
Implicit Types (t k : T) (tup : list T) (d : list (T * list nat)).

(** The slots of [tup] that hold [k], left to right, numbered from [i]. *)
Fixpoint positions (k : T) (i : nat) (tup : list T) : list nat :=
  match tup with
  | [] => []
  | t :: rest =>
      ((if decide (t = k) then [i] else []) ++ positions k (S i) rest)%list
  end.

(** The distinct elements of [tup] in order of first occurrence. *)
Fixpoint first_occ (tup : list T) : list T :=
  match tup with
  | [] => []
  | t :: rest => t :: filter (fun k => k ≠ t) (first_occ rest)
  end.

Lemma elem_of_positions k i tup j :
  j ∈ positions k i tup <-> (i <= j)%nat /\ tup !! (j - i)%nat = Some k.
Proof.
  revert i. induction tup as [|t rest IH]; intros i; simpl.
  - split; [intros Hin; by apply elem_of_nil in Hin | intros [_ ?]; done].
  - rewrite elem_of_app, IH. destruct (decide (t = k)) as [->|Hne].
    + rewrite list_elem_of_singleton. split.
      * intros [->|[Hle Hl]].
        -- split; [lia|]. by replace (i - i)%nat with 0%nat by lia.
        -- split; [lia|]. by replace (j - i)%nat with (S (j - S i)) by lia.
      * intros [Hle Hl]. destruct (decide (j = i)) as [->|Hji]; [by left|].
        right. split; [lia|].
        by replace (j - i)%nat with (S (j - S i)) in Hl by lia.
    + split.
      * intros [Hin|[Hle Hl]]; [by apply elem_of_nil in Hin|].
        split; [lia|]. by replace (j - i)%nat with (S (j - S i)) by lia.
      * intros [Hle Hl]. right.
        destruct (decide (j = i)) as [->|Hji].
        -- replace (i - i)%nat with 0%nat in Hl by lia. simpl in Hl. congruence.
        -- split; [lia|].
           by replace (j - i)%nat with (S (j - S i)) in Hl by lia.
Qed.

Lemma positions_lower k i tup j : j ∈ positions k i tup -> (i <= j)%nat.
Proof. rewrite elem_of_positions. tauto. Qed.

Lemma NoDup_positions k i tup : NoDup (positions k i tup).
Proof.
  revert i. induction tup as [|t rest IH]; intros i; simpl; [constructor|].
  destruct (decide (t = k)); simpl; [|apply IH].
  constructor; [|apply IH].
  intros Hin. apply positions_lower in Hin. lia.
Qed.

Lemma positions_nil_iff k i tup : positions k i tup = [] <-> k ∉ tup.
Proof.
  revert i. induction tup as [|t rest IH]; intros i; simpl.
  - split; [intros _; apply not_elem_of_nil | done].
  - rewrite not_elem_of_cons. destruct (decide (t = k)) as [->|Hne]; simpl.
    + split; [done | tauto].
    + rewrite IH. split; [intros ?; split; congruence | tauto].
Qed.

Lemma elem_of_first_occ k tup : k ∈ first_occ tup <-> k ∈ tup.
Proof.
  induction tup as [|t rest IH]; simpl; [done|].
  rewrite !elem_of_cons, list_elem_of_filter, IH.
  destruct (decide (k = t)); tauto.
Qed.

Lemma NoDup_first_occ tup : NoDup (first_occ tup).
Proof.
  induction tup as [|t rest IH]; simpl; constructor.
  - rewrite list_elem_of_filter. tauto.
  - by apply NoDup_filter.
Qed.

(** The loop of [analyse_tuple], started on any dictionary with distinct keys:
    known keys get the new slots appended, new keys are added in order of first
    occurrence. *)
Lemma analyse_from_spec d i tup :
  NoDup (Dict.keys d) ->
  SwitchTable.analyse_from d i tup
  = (map (fun p => (p.1, p.2 ++ positions p.1 i tup)) d
     ++ map (fun k => (k, positions k i tup))
            (filter (fun k => k ∉ Dict.keys d) (first_occ tup)))%list.
Proof.
  revert d i. induction tup as [|t rest IH]; intros d i Hnd; simpl.
  - rewrite app_nil_r. symmetry. erewrite map_ext; [apply map_id|].
    intros [k l]. simpl. by rewrite app_nil_r.
  - unfold SwitchTable.append_index.
    destruct (decide (t ∈ Dict.keys d)) as [Hin|Hnin].
    + assert (Hk : Dict.keys (Dict.set d t (default [] (Dict.get d t) ++ [i])%list)
                   = Dict.keys d)
        by (rewrite keys_set; by rewrite decide_True).
      rewrite IH by (by rewrite Hk). rewrite Hk.
      rewrite filter_cons_False by tauto.
      rewrite list_filter_filter.
      apply (f_equal2 app).
      * rewrite set_present by done. rewrite map_map.
        apply map_ext_in. intros [k l] Hkl. simpl.
        destruct (decide (k = t)) as [->|Hne]; simpl.
        -- rewrite decide_True by done.
           apply list_elem_of_In in Hkl.
           rewrite (get_elem_NoDup _ _ _ Hnd Hkl). simpl.
           by rewrite <- app_assoc.
        -- by rewrite decide_False by congruence.
      * erewrite (list_filter_iff (fun k => (k ∉ Dict.keys d) ∧ (k ≠ t))
                    (fun k => k ∉ Dict.keys d)).
        2:{ intros k. split; [tauto|]. intros Hk'. split; [done|].
            intros ->. done. }
        apply map_ext_in. intros k Hk'. apply list_elem_of_In in Hk'.
        apply list_elem_of_filter in Hk' as [Hk' _].
        rewrite decide_False; [done|]. intros ->. done.
    + assert (Hk : Dict.keys (Dict.set d t (default [] (Dict.get d t) ++ [i])%list)
                   = (Dict.keys d ++ [t])%list)
        by (rewrite keys_set; by rewrite decide_False).
      rewrite IH.
      2:{ rewrite Hk. apply NoDup_app. split; [done|]. split.
          - intros x Hx Hx'. apply list_elem_of_singleton in Hx'. by subst.
          - apply NoDup_singleton. }
      rewrite Hk, set_absent by done.
      apply get_None in Hnin as Hget. rewrite Hget. simpl.
      rewrite map_app. simpl. rewrite <- app_assoc. simpl.
      rewrite filter_cons_True by done. simpl.
      rewrite decide_True by done. simpl.
      rewrite list_filter_filter.
      apply (f_equal2 app).
      * apply map_ext_in. intros [k l] Hkl. simpl.
        rewrite decide_False; [done|]. intros ->. apply Hnin.
        unfold Dict.keys. apply list_elem_of_fmap. exists (k, l).
        split; [done|]. by apply list_elem_of_In.
      * f_equal.
        erewrite (list_filter_iff (fun k => k ∉ (Dict.keys d ++ [t])%list)
                    (fun k => (k ∉ Dict.keys d) ∧ (k ≠ t))).
        2:{ intros k. rewrite elem_of_app, list_elem_of_singleton. tauto. }
        apply map_ext_in. intros k Hk'. apply list_elem_of_In in Hk'.
        apply list_elem_of_filter in Hk' as [[_ Hk'] _].
        rewrite decide_False; [done|]. congruence.
Qed.

(** [analyse_tuple] against the description in words: one entry per distinct
    slot type, in order of first occurrence, holding the slots of that type. *)
Lemma analyse_tuple_spec tup :
  SwitchTable.analyse_tuple tup
  = map (fun k => (k, positions k 0 tup)) (first_occ tup).
Proof.
  unfold SwitchTable.analyse_tuple. rewrite analyse_from_spec by constructor.
  simpl. f_equal. apply filter_all. intros k _. apply not_elem_of_nil.
Qed.

Lemma analyse_tuple_keys tup :
  Dict.keys (SwitchTable.analyse_tuple tup) = first_occ tup.
Proof.
  rewrite analyse_tuple_spec. unfold Dict.keys. rewrite map_map. simpl.
  apply map_id.
Qed.

Lemma analyse_tuple_values tup :
  Dict.values (SwitchTable.analyse_tuple tup)
  = map (fun k => positions k 0 tup) (first_occ tup).
Proof.
  rewrite analyse_tuple_spec. unfold Dict.values. by rewrite map_map.
Qed.

End switch_data_facts.

(** ** Switch table: the text of [gen_switch] and the chain it denotes *)

Section switch_table_facts.
Context {T : Type} `{EqDecision T}.
Implicit Types (tup : list T) (d : list (T * list nat)).

Lemma mapM_lookup_entries d (f : list nat -> string) (ps : list (T * list nat)) :
  (forall p, p ∈ ps -> Dict.get d p.1 = Some p.2) ->
  mapM (fun k => idxs ← of_option KeyError (Dict.get d k); Ok (f idxs))
       (map fst ps)
  = Ok (map (fun p => f p.2) ps).
Proof.
  induction ps as [|p ps IH]; intros Hall; simpl; [done|].
  rewrite (Hall p) by left. simpl.
  rewrite IH by (intros q Hq; apply Hall; by right). done.
Qed.

(** On a dictionary with distinct keys the generated text is the chain whose
    tests are the dictionary's values, in the dictionary's order. *)
Lemma gen_switch_src_unparse d p ps :
  d = p :: ps -> NoDup (Dict.keys d) ->
  SwitchTable.gen_switch_src d
  = Ok (SwitchTable.unparse (SwitchTable.mkSwitch p.2 (map snd ps))).
Proof.
  intros -> Hnd. destruct p as [k0 first]. unfold SwitchTable.gen_switch_src.
  assert (Hall : forall q, q ∈ (k0, first) :: ps
                   -> Dict.get ((k0, first) :: ps) q.1 = Some q.2).
  { intros [k v] Hq. by apply get_elem_NoDup. }
  change (tail (Dict.keys ((k0, first) :: ps))) with (map fst ps).
  rewrite (mapM_lookup_entries ((k0, first) :: ps))
    by (intros q Hq; apply Hall; by right).
  simpl. rewrite decide_True by done. simpl.
  unfold SwitchTable.unparse. simpl. by rewrite map_map.
Qed.

Lemma gen_switch_src_empty : SwitchTable.gen_switch_src (@nil (T * list nat)) = Raise IndexError.
Proof. reflexivity. Qed.

(** The chain over the switch data of [tup] takes, at slot [i], the branch of
    the type found in slot [i]. *)
Lemma select_positions tup (ks : list T) i t :
  tup !! i = Some t -> t ∈ ks ->
  exists n, SwitchTable.select (map (fun k => positions k 0 tup) ks) i = Some n
            /\ ks !! n = Some t.
Proof.
  intros Hi. induction ks as [|k ks IH]; intros Hin.
  - by apply elem_of_nil in Hin.
  - simpl. destruct (decide (i ∈ positions k 0 tup)) as [Hp|Hp].
    + exists 0%nat. split; [done|]. simpl.
      apply elem_of_positions in Hp as [_ Hp].
      replace (i - 0)%nat with i in Hp by lia. congruence.
    + apply elem_of_cons in Hin as [->|Hin].
      * exfalso. apply Hp. apply elem_of_positions. split; [lia|].
        by replace (i - 0)%nat with i by lia.
      * destruct (IH Hin) as (n & Hsel & Hn). exists (S n).
        rewrite Hsel. done.
Qed.

End switch_table_facts.

(** ** The claims on switch data and switch table *)

(** C3 (amended): for a container with at least one slot, the map of
    [analyse_tuple] has the distinct slot types as keys in order of first
    occurrence, each key's list holds exactly the slots of that type (so every
    slot is in exactly one list), the text of [gen_switch] is the if/elif chain
    with one SENTINEL test per key in map order, and at every slot the chain
    takes the branch of that slot's type: the closing else is not reached. *)
Theorem switch_covers_every_slot (tup : list ty) :
  tup <> [] ->
  let data := SwitchTable.analyse_tuple tup in
  Dict.keys data = first_occ tup
  /\ NoDup (Dict.keys data)
  /\ (forall k idxs, (k, idxs) ∈ data ->
        NoDup idxs /\ forall i, i ∈ idxs <-> tup !! i = Some k)
  /\ (forall i, (i < length tup)%nat ->
        exists k idxs, (k, idxs) ∈ data /\ i ∈ idxs
          /\ forall k' idxs', (k', idxs') ∈ data -> i ∈ idxs' -> k' = k)
  /\ exists f,
       SwitchTable.gen_switch_src data = Ok (SwitchTable.unparse f)
       /\ SwitchTable.tests f = Dict.values data
       /\ length (SwitchTable.tests f) = length (Dict.keys data)
       /\ forall i t, tup !! i = Some t ->
            exists n, SwitchTable.run_switch f i = Ok n
                      /\ Dict.keys data !! n = Some t.
Proof.
  intros Hne data.
  assert (Hkeys : Dict.keys data = first_occ tup) by apply analyse_tuple_keys.
  assert (Hnd : NoDup (Dict.keys data)) by (rewrite Hkeys; apply NoDup_first_occ).
  assert (Hentry : forall k idxs, (k, idxs) ∈ data ->
            NoDup idxs /\ forall i, i ∈ idxs <-> tup !! i = Some k).
  { intros k idxs Hin. unfold data in Hin. rewrite analyse_tuple_spec in Hin.
    apply list_elem_of_fmap in Hin as (k' & [= -> ->] & _).
    split; [apply NoDup_positions|]. intros i. rewrite elem_of_positions.
    replace (i - 0)%nat with i by lia. split; [tauto | split; [lia | done]]. }
  split; [done|]. split; [done|]. split; [done|]. split.
  - intros i Hi. destruct (lookup_lt_is_Some_2 tup i Hi) as [t Ht].
    exists t, (positions t 0 tup). split; [|split].
    + unfold data. rewrite analyse_tuple_spec. apply list_elem_of_fmap.
      exists t. split; [done|]. apply elem_of_first_occ.
      by eapply list_elem_of_lookup_2.
    + apply elem_of_positions. split; [lia|]. by replace (i - 0)%nat with i by lia.
    + intros k' idxs' Hin' Hi'. apply Hentry in Hin' as [_ Hin'].
      apply Hin' in Hi'. congruence.
  - assert (Hvals : Dict.values data
                    = map (fun k => positions k 0 tup) (first_occ tup))
      by apply analyse_tuple_values.
    clearbody data. destruct data as [|p ps].
    + exfalso. destruct tup as [|t rest]; [done|]. done.
    + exists (SwitchTable.mkSwitch p.2 (map snd ps)).
      split; [by apply gen_switch_src_unparse|].
      split; [done|]. split.
      { unfold SwitchTable.tests, Dict.keys. simpl. by rewrite !length_map. }
      intros i t Ht. unfold SwitchTable.run_switch.
      change (SwitchTable.tests (SwitchTable.mkSwitch p.2 (map snd ps)))
        with (Dict.values (p :: ps)).
      rewrite Hvals, Hkeys.
      destruct (select_positions tup (first_occ tup) i t Ht) as (n & Hsel & Hn).
      { apply elem_of_first_occ. by eapply list_elem_of_lookup_2. }
      exists n. by rewrite Hsel.
Qed.

Lemma switch_covers_every_slot_witness :
  let tup := [Scalar "int64"; Scalar "float64"; Scalar "int64"] in
  tup <> []
  /\ Dict.keys (SwitchTable.analyse_tuple tup) = [Scalar "int64"; Scalar "float64"]
  /\ exists f,
       SwitchTable.gen_switch_src (SwitchTable.analyse_tuple tup)
       = Ok (SwitchTable.unparse f)
       /\ SwitchTable.tests f = [[0; 2]; [1]]%nat.
Proof.
  intros tup. assert (Hne : tup <> []) by done.
  split; [done|].
  destruct (switch_covers_every_slot tup Hne) as (Hk & _ & _ & _ & f & Hsrc & Hts & _).
  split; [by rewrite Hk|]. exists f. split; [done|]. by rewrite Hts.
Defined.

(** C3 (as stated, for every length): refuted at the empty container, where the
    map has no first key and [gen_switch] raises instead of building a chain. *)
Lemma empty_container_has_no_switch :
  SwitchTable.slots (Tuple []) = Ok []
  /\ SwitchTable.analyse_tuple (@nil ty) = []
  /\ SwitchTable.gen_switch_src (SwitchTable.analyse_tuple (@nil ty))
     = Raise IndexError
  /\ ~ exists f, SwitchTable.gen_switch_src (SwitchTable.analyse_tuple (@nil ty))
                 = Ok (SwitchTable.unparse f).
Proof.
  repeat split. intros [f Hf]. discriminate Hf.
Qed.

(** ** The claim on the inversion error handler *)

(** C9: the return code is classified three ways: negative calls the fatal
    error routine, which ends the process; positive raises the singular-matrix
    error; zero returns normally. *)
Theorem inv_err_handler_three_way (r : Z) :
  (r < 0 -> linalg._inv_err_handler r = linalg.Aborts)
  /\ (0 < r -> linalg._inv_err_handler r
               = linalg.Raises
                   (LinAlgError "Matrix is singular and cannot be inverted."))
  /\ (r = 0 -> linalg._inv_err_handler r = linalg.Returns tt).
Proof.
  unfold linalg._inv_err_handler. repeat split.
  - intros Hr. destruct (Z.eqb_spec r 0) as [->|_]; [lia|]. simpl.
    destruct (Z.ltb_spec r 0); [done | lia].
  - intros Hr. destruct (Z.eqb_spec r 0) as [->|_]; [lia|]. simpl.
    destruct (Z.ltb_spec r 0); [lia|]. simpl.
    destruct (Z.ltb_spec 0 r); [done | lia].
  - by intros ->.
Qed.

Lemma inv_err_handler_three_way_witness :
  linalg._inv_err_handler (-4) = linalg.Aborts
  /\ linalg._inv_err_handler 3
     = linalg.Raises (LinAlgError "Matrix is singular and cannot be inverted.")
  /\ linalg._inv_err_handler 0 = linalg.Returns tt.
Proof.
  split; [|split].
  - apply (inv_err_handler_three_way (-4)). lia.
  - apply (inv_err_handler_three_way 3). lia.
  - apply (inv_err_handler_three_way 0). reflexivity.
Defined.

(** ** Compilation state and the functions the passes call *)

Module Pipeline.

(** The fields of the compilation state that the two passes touch. *)
Record State := mkState {
  func_ir : FunctionIR;
  typemap : option (list (string * ty));
  return_type : option ty;
  calltypes : option (list (expr * ty)) }.

(** The state together with the module-level counter of [mk_unique_var]. *)
Record World := mkWorld {
  state : State;
  _unique_var_count : nat }.

Definition set_blocks (f : FunctionIR) (b : list (label * Block)) : FunctionIR :=
  mkIR b (_definitions f) (livemap f).

Definition set_definitions (f : FunctionIR) (d : list (string * list value))
  : FunctionIR :=
  mkIR (blocks f) d (livemap f).

Definition set_func_ir (s : State) (f : FunctionIR) : State :=
  mkState f (typemap s) (return_type s) (calltypes s).

Definition set_state (w : World) (s : State) : World :=
  mkWorld s (_unique_var_count w).

Definition with_ir (w : World) (f : FunctionIR) : World :=
  set_state w (set_func_ir (state w) f).

(** The analyses and utilities of numba (analysis.py, ir_utils.py, ir.py,
    postproc.py, inline_closurecall.py, types) that the passes call and whose
    code is not among the sources.  The passes are embedded over any
    implementation of them. *)
Class Collaborators := {
  (** [compute_cfg_from_blocks(blocks).loops().items()] *)
  cfg_loops : list (label * Block) -> list (label * Loop);
  (** [[x[0] for x in compute_cfg_from_blocks(blocks).successors(lbl)]] *)
  cfg_successors : list (label * Block) -> label -> list label;
  (** [simplify_CFG(blocks)] *)
  simplify_CFG : list (label * Block) -> list (label * Block);
  (** [func_ir.get_definition(x)] *)
  get_definition : FunctionIR -> value -> result value;
  (** [build_definitions(blocks)] *)
  build_definitions : list (label * Block) -> list (string * list value);
  (** [postproc.PostProcessor(func_ir).run()] *)
  post_proc_run : FunctionIR -> FunctionIR;
  (** [compute_use_defs(blocks)]: the usemap and the defmap *)
  compute_use_defs :
    list (label * Block) -> list (label * list string) * list (label * list string);
  (** [exec] of the switch text followed by [compile_to_numba_ir]; it may draw
      fresh names, so it gets and returns the counter of [mk_unique_var] *)
  compile_to_numba_ir : string -> nat -> list (label * Block) * nat;
  (** [inline_closure_call(func_ir, glbls, block, i, get_range)], the block
      given by its label; it gets and returns the counter as well *)
  inline_closure_call : FunctionIR -> label -> nat -> nat -> FunctionIR * nat;
  (** the truth value Python gives a type object *)
  type_truth : ty -> bool }.

(** [isinstance(t, (types.Tuple, types.UniTuple))] *)
Definition accepted_type (t : ty) : bool :=
  match t with
  | Tuple _ | UniTuple _ _ => true
  | _ => false
  end.

(** [typemap[name]] *)
Definition typemap_lookup (tm : option (list (string * ty))) (name : string)
  : result ty :=
  match tm with
  | None => Raise TypeError
  | Some m => of_option KeyError (Dict.get m name)
  end.

(** [blocks[lbl]] *)
Definition block_at (b : list (label * Block)) (lbl : label) : result Block :=
  of_option KeyError (Dict.get b lbl).

(** Modelled from the spec: mk_unique_var of numba/ir_utils.py, which is not
    among the sources.  The "fresh unique name" is the prefix, a dot and the
    value of a module-level counter; the counter is then incremented. *)
Definition mk_unique_var (prefix : string) (count : nat) : string * nat :=
  (prefix ++ "." ++ str count, S count).

(** [max(keys)] and [min(keys)]; both raise on an empty sequence. *)
Definition max_label (ks : list label) : result label :=
  match ks with
  | [] => Raise (ValueError "max() arg is an empty sequence")
  | k :: rest => Ok (fold_left Z.max rest k)
  end.

Definition min_label (ks : list label) : result label :=
  match ks with
  | [] => Raise (ValueError "min() arg is an empty sequence")
  | k :: rest => Ok (fold_left Z.min rest k)
  end.

End Pipeline.

Import Pipeline.

(** ** Variables of the IR and their renaming *)

Module Vars.

(** The variables a statement names, in visiting order. *)
Definition expr_vars (e : expr) : list string :=
  match e with
  | call f args => f :: args
  | getiter v | iternext v | pair_first v | pair_second v => [v]
  | getitem v i => [v; i]
  | typed_getitem v _ i => [v; i]
  | exhaust_iter v _ => [v]
  | binop _ l r => [l; r]
  | build_tuple items => items
  end.

Definition value_vars (x : value) : list string :=
  match x with
  | Var n => [n]
  | Expr e => expr_vars e
  | _ => []
  end.

Definition stmt_vars (s : stmt) : list string :=
  match s with
  | Assign x t => t :: value_vars x
  | Branch c _ _ => [c]
  | Return v => [v]
  | Del v => [v]
  | Jump _ | StaticRaise _ => []
  end.

Definition block_vars (b : Block) : list string :=
  concat (map stmt_vars (body b)).

Definition blocks_vars (bs : list (label * Block)) : list string :=
  concat (map (fun lb => block_vars lb.2) bs).

(** The first occurrence of every element, in order. *)
Fixpoint dedup (seen l : list string) : list string :=
  match l with
  | [] => []
  | x :: rest =>
      if decide (x ∈ seen) then dedup seen rest else x :: dedup (x :: seen) rest
  end.

(** Modelled from the spec: get_name_var_table of numba/ir_utils.py, which is
    not among the sources: the names of the variables the blocks mention
    ("every variable ... within the copy"), each once. *)
Definition get_name_var_table (bs : list (label * Block)) : list string :=
  dedup [] (blocks_vars bs).

Definition rename (d : list (string * string)) (n : string) : string :=
  default n (Dict.get d n).

Definition rename_expr (d : list (string * string)) (e : expr) : expr :=
  let r := rename d in
  match e with
  | call f args => call (r f) (map r args)
  | getiter v => getiter (r v)
  | iternext v => iternext (r v)
  | pair_first v => pair_first (r v)
  | pair_second v => pair_second (r v)
  | getitem v i => getitem (r v) (r i)
  | typed_getitem v t i => typed_getitem (r v) t (r i)
  | exhaust_iter v c => exhaust_iter (r v) c
  | binop fn l r' => binop fn (r l) (r r')
  | build_tuple items => build_tuple (map r items)
  end.

Definition rename_value (d : list (string * string)) (x : value) : value :=
  match x with
  | Var n => Var (rename d n)
  | Expr e => Expr (rename_expr d e)
  | _ => x
  end.

Definition rename_stmt (d : list (string * string)) (s : stmt) : stmt :=
  match s with
  | Assign x t => Assign (rename_value d x) (rename d t)
  | Branch c t f => Branch (rename d c) t f
  | Return v => Return (rename d v)
  | Del v => Del (rename d v)
  | Jump _ | StaticRaise _ => s
  end.

Definition rename_block (d : list (string * string)) (b : Block) : Block :=
  mkBlock (map (rename_stmt d) (body b)).

(** Modelled from the spec: replace_var_names of numba/ir_utils.py, which is
    not among the sources: every variable with an entry in the dictionary gets
    the name the dictionary gives ("rename every variable ... to a fresh unique
    name"), all others keep theirs. *)
Definition replace_var_names (bs : list (label * Block))
    (d : list (string * string)) : list (label * Block) :=
  map (fun lb => (lb.1, rename_block d lb.2)) bs.

End Vars.

Import Vars.

(** ** Computations that draw fresh names *)

Module Fresh.

(** A computation that reads and advances the counter of [mk_unique_var] and
    may raise; the counter survives a raise. *)
Definition M (A : Type) : Type := nat -> result A * nat.

#[global] Instance M_ret : MRet M := fun A a c => (Ok a, c).
#[global] Instance M_bind : MBind M := fun A B k m c =>
  match m c with
  | (Ok a, c') => k a c'
  | (Raise e, c') => (Raise e, c')
  end.

Definition lift {A} (r : result A) : M A := fun c => (r, c).

(** A total step that draws names. *)
Definition draw {A} (f : nat -> A * nat) : M A :=
  fun c => let '(a, c') := f c in (Ok a, c').

Definition unique_var (prefix : string) : M string := draw (mk_unique_var prefix).

End Fresh.

Import Fresh.

(** ** MixedContainerUnroller *)

Module MixedContainerUnroller.

(** The namedtuple [unroll_info]. *)
Record unroll_info := mk_unroll_info {
  loop : Loop;
  call : value;
  arg : string;
  getitem : stmt }.

(** What the body of the scanning loop of [apply_transform] does for one loop:
    [return False], go on to the next loop, or store a record under a key. *)
Inductive verdict :=
| ReturnFalse
| Continue
| Store (key : label) (ui : unroll_info).

(** One versioned copy of the loop body, as [inject_loop_body] builds it for one
    branch: the renamed blocks and the renaming used. *)
Record branch_copy := mk_branch_copy {
  copy_blocks : list (label * Block);
  new_var_dict : list (string * string) }.

Section passes.
Context `{Collaborators}.

(** *** add_offset_to_labels_w_ignore *)

Definition offset_target (ignore : list label) (offset : Z) (t : label) : label :=
  if decide (t ∈ ignore) then t else t + offset.

Definition offset_terminator (ignore : list label) (offset : Z) (s : stmt) : stmt :=
  match s with
  | Jump t => if decide (t ∈ ignore) then s else Jump (t + offset)
  | Branch c t f =>
      Branch c (offset_target ignore offset t) (offset_target ignore offset f)
  | _ => s
  end.

Definition offset_block (ignore : list label) (offset : Z) (b : Block) : Block :=
  match rev (body b) with
  | [] => b
  | term :: front =>
      mkBlock (rev front ++ [offset_terminator ignore offset term])%list
  end.

Definition add_offset_to_labels_w_ignore (bs : list (label * Block))
    (offset : Z) (ignore : list label) : list (label * Block) :=
  fold_left (fun new_blocks lb =>
               Dict.set new_blocks (lb.1 + offset) (offset_block ignore offset lb.2))
            bs [].

(** *** gen_switch *)

Definition bind_placeholder (index : value) (s : stmt) : stmt :=
  match s with
  | Assign (Global name _) t =>
      if decide (name = "PLACEHOLDER_INDEX") then Assign index t else s
  | _ => s
  end.

Definition gen_switch (data : list (ty * list nat)) (index : value)
  : M (list (label * Block)) :=
  src ← lift (SwitchTable.gen_switch_src data);
  branches ← draw (compile_to_numba_ir src);
  mret (map (fun lb => (lb.1, mkBlock (map (bind_placeholder index) (body lb.2))))
            branches).

(** *** inject_loop_body *)

Definition is_sentinel (s : stmt) : bool :=
  match s with
  | Assign _ t => contains "SENTINEL" t
  | _ => false
  end.

(** [blk.body[-1].target] *)
Definition last_target (blk : Block) : result label :=
  match last (body blk) with
  | Some (Jump t) => Ok t
  | Some _ => Raise AttributeError
  | None => Raise IndexError
  end.

(** [s.add(x)] on a set held in insertion order. *)
Definition set_add (x : label) (s : list label) : list label :=
  if decide (x ∈ s) then s else (s ++ [x])%list.

Fixpoint find_sentinels (bs : list (label * Block))
    (sentinel_blocks sentinel_exits : list label)
  : result (list label * list label) :=
  match bs with
  | [] => Ok (sentinel_blocks, sentinel_exits)
  | (lbl, blk) :: rest =>
      if existsb is_sentinel (body blk)
      then t ← last_target blk;
           find_sentinels rest (sentinel_blocks ++ [lbl])%list (set_add t sentinel_exits)
      else find_sentinels rest sentinel_blocks sentinel_exits
  end.

Definition nonlocal_targets (local_lbl : list label) (s : stmt) : list label :=
  match s with
  | Jump t => if decide (t ∈ local_lbl) then [] else [t]
  | Branch _ t f =>
      ((if decide (t ∈ local_lbl) then [] else [t])
       ++ (if decide (f ∈ local_lbl) then [] else [f]))%list
  | _ => []
  end.

Definition find_ignore_set (loop_blocks : list (label * Block)) : list label :=
  let local_lbl := Dict.keys loop_blocks in
  concat (map (fun lb => concat (map (nonlocal_targets local_lbl) (body lb.2)))
              loop_blocks).

(** The rewriting of one statement in "fix the typed_getitem locations". *)
Definition fix_typed_getitem (branch_ty : ty) (dont_replace : list string)
    (s : stmt) : M (list stmt * list string) :=
  match s with
  | Assign (Expr (typed_getitem v _ i)) target =>
      match branch_ty with
      | Literal literal_value =>
          new_const_name ← unique_var "branch_const";
          mret ([Assign (Const literal_value) new_const_name;
                 Assign (Var new_const_name) target],
                (dont_replace ++ [new_const_name])%list)
      | _ => mret ([Assign (Expr (typed_getitem v branch_ty i)) target],
                   dont_replace)
      end
  | _ => mret ([s], dont_replace)
  end.

Fixpoint fix_body (branch_ty : ty) (dont_replace : list string)
    (stmts : list stmt) : M (list stmt * list string) :=
  match stmts with
  | [] => mret ([], dont_replace)
  | s :: rest =>
      '(new, dont_replace) ← fix_typed_getitem branch_ty dont_replace s;
      '(new_body, dont_replace) ← fix_body branch_ty dont_replace rest;
      mret ((new ++ new_body)%list, dont_replace)
  end.

Fixpoint fix_blocks (branch_ty : ty) (dont_replace : list string)
    (bs : list (label * Block)) : M (list (label * Block) * list string) :=
  match bs with
  | [] => mret ([], dont_replace)
  | (lbl, blk) :: rest =>
      '(new_body, dont_replace) ← fix_body branch_ty dont_replace (body blk);
      '(rest', dont_replace) ← fix_blocks branch_ty dont_replace rest;
      mret ((lbl, mkBlock new_body) :: rest', dont_replace)
  end.

(** [new_var_dict[name] = mk_unique_var(name)] for every name of the table. *)
Fixpoint fresh_names (names : list string) : M (list (string * string)) :=
  match names with
  | [] => mret []
  | name :: rest =>
      new_name ← unique_var name;
      d ← fresh_names rest;
      mret ((name, new_name) :: d)
  end.

(** [l.remove(x)] *)
Fixpoint list_remove (x : label) (l : list label) : result (list label) :=
  match l with
  | [] => Raise (ValueError "list.remove(x): x not in list")
  | y :: rest => if decide (y = x) then Ok rest
                 else rest' ← list_remove x rest; Ok (y :: rest')
  end.

(** The body of "replace the sentinel_blocks with the loop body" for one
    sentinel block and branch type. *)
Definition inject_branch (loop_ir_blocks : list (label * Block))
    (ignore_set : list label) (switch_blocks : list (label * Block))
    (dont_replace : list string) (lbl : label) (branch_ty : ty)
  : M (list (label * Block) * list string * branch_copy) :=
  max_label ← lift (Pipeline.max_label (Dict.keys switch_blocks));
  let loop_blocks :=
    add_offset_to_labels_w_ignore loop_ir_blocks (max_label + 1) ignore_set in
  loop_start_lbl ← lift (min_label (Dict.keys loop_blocks));
  '(loop_blocks, dont_replace) ← fix_blocks branch_ty dont_replace loop_blocks;
  let var_table := get_name_var_table loop_blocks in
  let var_table := filter (fun name => name ∉ dont_replace) var_table in
  new_var_dict ← fresh_names var_table;
  let loop_blocks := replace_var_names loop_blocks new_var_dict in
  start ← lift (block_at loop_blocks loop_start_lbl);
  let switch_blocks := Dict.set switch_blocks lbl start in
  remaining_keys ← lift (list_remove loop_start_lbl (Dict.keys loop_blocks));
  rest ← lift (mapM (fun k => b ← block_at loop_blocks k; Ok (k, b)) remaining_keys);
  let switch_blocks :=
    fold_left (fun sb kb => Dict.set sb kb.1 kb.2) rest switch_blocks in
  mret (switch_blocks, dont_replace, mk_branch_copy loop_blocks new_var_dict).

(** The loop over [zip(sentinel_blocks, switch_data.keys())]; the copies built
    on the way are returned beside the switch blocks. *)
Fixpoint inject_branches (loop_ir_blocks : list (label * Block))
    (ignore_set : list label) (switch_blocks : list (label * Block))
    (dont_replace : list string) (branches : list (label * ty))
  : M (list (label * Block) * list string * list branch_copy) :=
  match branches with
  | [] => mret (switch_blocks, dont_replace, [])
  | (lbl, branch_ty) :: rest =>
      '(switch_blocks, dont_replace, copy) ←
        inject_branch loop_ir_blocks ignore_set switch_blocks dont_replace
                      lbl branch_ty;
      '(switch_blocks, dont_replace, copies) ←
        inject_branches loop_ir_blocks ignore_set switch_blocks dont_replace rest;
      mret (switch_blocks, dont_replace, copy :: copies)
  end.

(** [zip(a, b)] *)
Fixpoint zip {A B} (a : list A) (b : list B) : list (A * B) :=
  match a, b with
  | x :: a', y :: b' => (x, y) :: zip a' b'
  | _, _ => []
  end.

Definition inject_loop_body_copies (switch_ir loop_ir : list (label * Block))
    (caller_max_label : label) (dont_replace : list string)
    (switch_data : list (ty * list nat))
  : M (list (label * Block) * list branch_copy) :=
  '(sentinel_blocks, sentinel_exits) ← lift (find_sentinels switch_ir [] []);
  lift (assert (bool_decide (length sentinel_exits = 1%nat)));;
  exit_lbl ← lift (of_option KeyError (head sentinel_exits));
  lift (if Dict.mem switch_ir exit_lbl then Ok tt else Raise KeyError);;
  let switch_blocks := Dict.remove switch_ir exit_lbl in
  let ignore_set := find_ignore_set loop_ir in
  lift (assert (bool_decide (length sentinel_blocks = length switch_data)));;
  '(switch_blocks, _, copies) ←
    inject_branches loop_ir ignore_set switch_blocks dont_replace
                    (zip sentinel_blocks (Dict.keys switch_data));
  mret (add_offset_to_labels_w_ignore switch_blocks (caller_max_label + 1)
                                      ignore_set,
        copies).

Definition inject_loop_body (switch_ir loop_ir : list (label * Block))
    (caller_max_label : label) (dont_replace : list string)
    (switch_data : list (ty * list nat)) : M (list (label * Block)) :=
  r ← inject_loop_body_copies switch_ir loop_ir caller_max_label dont_replace
                              switch_data;
  mret r.1.

(** *** apply_transform: finding the loops to unroll *)

(** The test the passes apply to one statement when they look for a getitem on
    the unrolled container: [a[i]] or [ref(a)[i]] with [a] the marked tuple. *)
Definition conforming_getitem (func_ir : FunctionIR)
    (tm : option (list (string * ty))) (arg : string) (s : stmt) : result bool :=
  match s with
  | Assign (Expr (ir.getitem v _)) _ =>
      ok ← (if decide (v ≠ arg)
            then dfn ← get_definition func_ir (Var v);
                 args ← getattr_default (attr_args dfn);
                 match args with
                 | Some (a0 :: _) => Ok (bool_decide (a0 = arg))
                 | _ => Ok false
                 end
            else Ok true);
      if ok : bool then target_ty ← typemap_lookup tm arg; Ok (accepted_type target_ty)
      else Ok false
  | _ => Ok false
  end.

Fixpoint first_conforming (func_ir : FunctionIR)
    (tm : option (list (string * ty))) (arg : string) (stmts : list stmt)
  : result (option stmt) :=
  match stmts with
  | [] => Ok None
  | s :: rest =>
      c ← conforming_getitem func_ir tm arg s;
      if c : bool then Ok (Some s) else first_conforming func_ir tm arg rest
  end.

(** "find a getitem": the first block of the loop body, in iteration order,
    with a conforming statement, and that statement. *)
Fixpoint find_getitem (func_ir : FunctionIR)
    (tm : option (list (string * ty))) (arg : string) (labels : list label)
  : result (option (label * stmt)) :=
  match labels with
  | [] => Ok None
  | lbl :: rest =>
      blk ← block_at (blocks func_ir) lbl;
      found ← first_conforming func_ir tm arg (body blk);
      match found with
      | Some s => Ok (Some (lbl, s))
      | None => find_getitem func_ir tm arg rest
      end
  end.

(** The body of [for lbl, loop in loops.items()].  The record is stored under
    the label at which the inner loop [for lbl in loop.body] stopped. *)
Definition check_loop (func_ir : FunctionIR)
    (tm : option (list (string * ty))) (l : Loop) : result verdict :=
  hdr ← block_at (blocks func_ir) (header l);
  match find_exprs "iternext" hdr with
  | [the_iternext] =>
      match (v ← attr_value (Expr the_iternext); get_definition func_ir v) with
      | Raise _ => Ok Continue
      | Ok phi =>
          phi_value ← attr_value phi;
          range_call ← get_definition func_ir phi_value;
          if negb (is_Expr_op "call" range_call) then Ok Continue else
          range_func ← attr_func range_call;
          range_global ← get_definition func_ir range_func;
          if negb (is_Global_of py_range range_global) then Ok Continue else
          range_arg ← first_arg range_call;
          len_call ← get_definition func_ir (Var range_arg);
          if negb (is_Expr_op "call" len_call) then Ok Continue else
          len_func ← attr_func len_call;
          len_global ← get_definition func_ir len_func;
          if negb (is_Global_of py_len len_global) then Ok Continue else
          len_arg ← first_arg len_call;
          literal_unroll_call ← get_definition func_ir (Var len_arg);
          literal_func ← getattr_default (attr_func literal_unroll_call);
          match literal_func with
          | None => Ok Continue
          | Some literal_func =>
              d ← get_definition func_ir literal_func;
              call_func ← attr_value d;
              if decide (call_func = Obj py_literal_unroll) then
                args ← attr_args literal_unroll_call;
                assert (bool_decide (length args = 1%nat));;
                arg ← of_option IndexError (head args);
                t ← typemap_lookup tm arg;
                assert (accepted_type t);;
                found ← find_getitem func_ir tm arg (loop_body l);
                match found with
                | None => Ok Continue
                | Some (lbl, tuple_getitem) =>
                    Ok (Store lbl (mk_unroll_info l literal_unroll_call arg
                                                  tuple_getitem))
                end
              else Ok Continue
          end
      end
  | _ => Ok ReturnFalse
  end.

(** The scanning loop; [None] is the [return False] from inside it. *)
Fixpoint scan (func_ir : FunctionIR) (tm : option (list (string * ty)))
    (loops : list (label * Loop)) (literal_unroll_info : list (label * unroll_info))
  : result (option (list (label * unroll_info))) :=
  match loops with
  | [] => Ok (Some literal_unroll_info)
  | (_, l) :: rest =>
      v ← check_loop func_ir tm l;
      match v with
      | ReturnFalse => Ok None
      | Continue => scan func_ir tm rest literal_unroll_info
      | Store key ui => scan func_ir tm rest (Dict.set literal_unroll_info key ui)
      end
  end.

(** "Validate loops": some record's loop header lies in the body of the loop
    of a record stored under another key. *)
Definition nesting (literal_unroll_info : list (label * unroll_info)) : bool :=
  existsb (fun test =>
    existsb (fun ref =>
      if decide (test.1 = ref.1) then false
      else bool_decide (header (loop test.2) ∈ loop_body (loop ref.2)))
      literal_unroll_info)
    literal_unroll_info.

(** *** unroll_loop *)

Fixpoint collect_in_body (func_ir : FunctionIR)
    (tm : option (list (string * ty))) (arg : string) (lbl : label) (i : nat)
    (stmts : list stmt) : result (list (label * nat * stmt)) :=
  match stmts with
  | [] => Ok []
  | s :: rest =>
      c ← conforming_getitem func_ir tm arg s;
      more ← collect_in_body func_ir tm arg lbl (S i) rest;
      Ok (if c : bool then (lbl, i, s) :: more else more)
  end.

(** "find a getitem that conforms": every conforming statement of the loop
    body, with the block and position it sits at. *)
Fixpoint collect_getitems (func_ir : FunctionIR)
    (tm : option (list (string * ty))) (arg : string) (labels : list label)
  : result (list (label * nat * stmt)) :=
  match labels with
  | [] => Ok []
  | lbl :: rest =>
      blk ← block_at (blocks func_ir) lbl;
      here ← collect_in_body func_ir tm arg lbl 0 (body blk);
      more ← collect_getitems func_ir tm arg rest;
      Ok (here ++ more)%list
  end.

(** [item.value = ir.Expr.typed_getitem(old.value, types.void, old.index, old.loc)] *)
Definition to_typed_getitem (s : stmt) : stmt :=
  match s with
  | Assign (Expr (ir.getitem v i)) t => Assign (Expr (typed_getitem v void i)) t
  | _ => s
  end.

Definition set_stmt (bs : list (label * Block)) (lbl : label) (i : nat) (s : stmt)
  : list (label * Block) :=
  match Dict.get bs lbl with
  | Some blk => Dict.set bs lbl (mkBlock (<[i := s]> (body blk)))
  | None => bs
  end.

(** [tuple_getitem[0].value.index.name] *)
Definition getitem_index_name (s : stmt) : result string :=
  match s with
  | Assign (Expr (ir.getitem _ i)) _ => Ok i
  | Assign (Expr (typed_getitem _ _ i)) _ => Ok i
  | Assign (Expr _) _ => Raise KeyError
  | _ => Raise AttributeError
  end.

(** [blks[header_block].body[-1].truebr = replace] *)
Definition set_truebr (b : Block) (t : label) : result Block :=
  match rev (body b) with
  | [] => Raise IndexError
  | Branch c _ f :: front => Ok (mkBlock (rev front ++ [Branch c t f])%list)
  | _ => Ok b
  end.

(** "6. Patch in the unrolled body and fix up", with the block map as the
    statements leave it, also when one of them raises. *)
Definition patch_in (blks unroll : list (label * Block))
    (this_loop_body : list label) (header_block : label)
  : result unit * list (label * Block) :=
  match this_loop_body with
  | [] => (Raise (ValueError "not enough values to unpack"), blks)
  | replace :: delete =>
      let unroll_lbl := merge_sort Z.le (Dict.keys unroll) in
      match unroll_lbl with
      | [] => (Raise IndexError, blks)
      | first :: others =>
          match Dict.get unroll first with
          | None => (Raise KeyError, blks)
          | Some b0 =>
              let blks := Dict.set blks replace b0 in
              match forallb (Dict.mem blks) delete with
              | false => (Raise KeyError, blks)
              | true =>
                  let blks := fold_left Dict.remove delete blks in
                  let blks :=
                    fold_left (fun bs k =>
                                 match Dict.get unroll k with
                                 | Some b => Dict.set bs k b
                                 | None => bs
                                 end) others blks in
                  match Dict.get blks header_block with
                  | None => (Raise KeyError, blks)
                  | Some hb =>
                      match set_truebr hb replace with
                      | Raise e => (Raise e, blks)
                      | Ok hb' => (Ok tt, Dict.set blks header_block hb')
                      end
                  end
              end
          end
      end
  end.

Definition no_getitem_msg : string :=
  "Loop unrolling analysis has failed, there's no getitem in loop body that conforms to literal_unroll requirements.".

Definition unroll_loop (w : World) (loop_info : unroll_info)
  : result unit * World :=
  let st := state w in
  let func_ir := Pipeline.func_ir st in
  let getitem_target := arg loop_info in
  let this_loop := loop loop_info in
  match (target_ty ← lift (typemap_lookup (typemap st) getitem_target);
         lift (assert (accepted_type target_ty));;
         tuple_getitem ← lift (collect_getitems func_ir (typemap st)
                                 getitem_target (loop_body this_loop));
         first ← lift (of_option (CompilerError no_getitem_msg)
                                 (head tuple_getitem));
         tys ← lift (SwitchTable.slots target_ty);
         let switch_data := SwitchTable.analyse_tuple tys in
         index_name ← lift (getitem_index_name first.2);
         defs ← lift (of_option KeyError
                                (Dict.get (_definitions func_ir) index_name));
         index ← lift (of_option IndexError (head defs));
         branches ← gen_switch switch_data index;
         mret (tuple_getitem, switch_data, branches)) (_unique_var_count w) with
  | (Raise e, c) => (Raise e, mkWorld st c)
  | (Ok (tuple_getitem, switch_data, branches), c3) =>
      let blocks4 :=
        fold_left (fun bs item => set_stmt bs item.1.1 item.1.2
                                           (to_typed_getitem item.2))
                  tuple_getitem (blocks func_ir) in
      let w4 := mkWorld (set_func_ir st (set_blocks func_ir blocks4)) c3 in
      let this_loop_body :=
        filter (fun x => x ≠ header this_loop) (loop_body this_loop) in
      let idx := header this_loop in
      match (loop_blocks ← mapM (fun x => b ← block_at blocks4 x; Ok (x, b))
                                this_loop_body;
             let usedefs := compute_use_defs blocks4 in
             u ← of_option KeyError (Dict.get usedefs.1 idx);
             d ← of_option KeyError (Dict.get usedefs.2 idx);
             l ← of_option KeyError (Dict.get (livemap func_ir) idx);
             caller_max_label ← max_label (Dict.keys blocks4);
             Ok (loop_blocks, list_union (list_union u d) l, caller_max_label)) with
      | Raise e => (Raise e, w4)
      | Ok (loop_blocks, dont_replace, caller_max_label) =>
          match inject_loop_body branches loop_blocks caller_max_label
                                 dont_replace switch_data c3 with
          | (Raise e, c) => (Raise e, mkWorld (state w4) c)
          | (Ok unrolled_body, c) =>
              let '(r, blks) :=
                patch_in blocks4 unrolled_body this_loop_body idx in
              (r, mkWorld (set_func_ir st (set_blocks func_ir blks)) c)
          end
      end
  end.

(** *** apply_transform and run_pass *)

Definition nesting_msg : string := "Nesting of literal_unroll is unsupported".

Definition apply_transform (w : World) : result bool * World :=
  let func_ir := Pipeline.func_ir (state w) in
  let loops := cfg_loops (blocks func_ir) in
  match scan func_ir (typemap (state w)) loops [] with
  | Raise e => (Raise e, w)
  | Ok None => (Ok false, w)
  | Ok (Some literal_unroll_info) =>
      match Dict.popitem literal_unroll_info with
      | None => (Ok false, w)
      | Some ((lbl, info), _) =>
          if nesting literal_unroll_info
          then (Raise (UnsupportedError nesting_msg), w)
          else
            match unroll_loop w info with
            | (Raise e, w') => (Raise e, w')
            | (Ok _, w') =>
                let ir1 := Pipeline.func_ir (state w') in
                let ir2 := set_blocks ir1 (simplify_CFG (blocks ir1)) in
                let ir3 := post_proc_run ir2 in
                let ir4 := set_definitions ir3 (build_definitions (blocks ir3)) in
                (Ok true, with_ir w' ir4)
            end
      end
  end.

(** The [while(True)] loop of [run_pass]; [None] when the fuel runs out before
    the loop is left. *)
Fixpoint transform_loop (fuel : nat) (w : World) (mutated : bool)
  : option (result bool * World) :=
  match fuel with
  | O => None
  | S fuel' =>
      match apply_transform w with
      | (Raise e, w') => Some (Raise e, w')
      | (Ok stat, w') =>
          let mutated := mutated || stat in
          if negb stat then Some (Ok mutated, w')
          else transform_loop fuel' w' mutated
      end
  end.

(** "reset type inference now we are done with the partial results" *)
Definition reset_typing (s : State) : State :=
  mkState (Pipeline.func_ir s) (Some []) None None.

(** "first limit the work by squashing the CFG if possible" *)
Definition squash (w : World) : World :=
  let func_ir := Pipeline.func_ir (state w) in
  with_ir w (set_blocks func_ir (simplify_CFG (blocks func_ir))).

Definition run_pass (fuel : nat) (w : World) : option (result bool * World) :=
  let w1 := squash w in
  match transform_loop fuel w1 false with
  | None => None
  | Some (Raise e, w') => Some (Raise e, w')
  | Some (Ok mutated, w') => Some (Ok mutated, set_state w' (reset_typing (state w')))
  end.

End passes.
End MixedContainerUnroller.

(** ** IterLoopCanonicalization *)

Module IterLoopCanonicalization.

(** A step of [transform]: it reads and updates the function IR and the counter
    of [mk_unique_var], and what it has updated stays updated when it raises. *)
Definition T (A : Type) : Type := FunctionIR * nat -> result A * (FunctionIR * nat).

#[global] Instance T_ret : MRet T := fun A a s => (Ok a, s).
#[global] Instance T_bind : MBind T := fun A B k m s =>
  match m s with
  | (Ok a, s') => k a s'
  | (Raise e, s') => (Raise e, s')
  end.

Definition liftT {A} (r : result A) : T A := fun s => (r, s).
Definition get_ir : T FunctionIR := fun s => (Ok s.1, s).
Definition put_ir (f : FunctionIR) : T unit := fun s => (Ok tt, (f, s.2)).
Definition unique_varT (prefix : string) : T string :=
  fun s => let '(n, c) := mk_unique_var prefix s.2 in (Ok n, (s.1, c)).

(** [_accepted_calls = (literal_unroll,)]: membership is identity of the
    function object. *)
Definition accepted_call (o : pyobj) : bool := bool_decide (o = py_literal_unroll).

(** The truth value of [partial_typemap]: [None] and the empty map are false. *)
Definition typemap_truth (tm : option (list (string * ty))) : bool :=
  match tm with
  | Some (_ :: _) => true
  | _ => false
  end.

(** [l.insert(i, x)] for [i] within the list. *)
Definition list_insert_at {A} (i : nat) (x : A) (l : list A) : list A :=
  (take i l ++ x :: drop i l)%list.

(** [l.index(x)] followed by [l.pop(...)]: the first occurrence goes. *)
Fixpoint remove_first (x : stmt) (l : list stmt) : result (list stmt) :=
  match l with
  | [] => Raise (ValueError "x is not in list")
  | y :: rest => if decide (y = x) then Ok rest
                 else rest' ← remove_first x rest; Ok (y :: rest')
  end.

(** The search for the getiter assignment in the entry block: its position, its
    target and the variable iterated. *)
Fixpoint find_getiter (idx : nat) (stmts : list stmt)
  : result (nat * string * string) :=
  match stmts with
  | [] => Raise (ValueError "problem")
  | Assign (Expr (getiter v)) t :: _ => Ok (idx, t, v)
  | _ :: rest => find_getiter (S idx) rest
  end.

(** The first assignment of the statements with the given right-hand side. *)
Fixpoint find_assignee (rhs : value) (stmts : list stmt) : result string :=
  match stmts with
  | [] => Raise (ValueError "Could not find an assignee")
  | Assign x t :: rest =>
      if decide (x = rhs) then Ok t else find_assignee rhs rest
  | _ :: rest => find_assignee rhs rest
  end.

(** Modelled from the spec: FunctionIR.get_assignee of numba/ir.py, which is not
    among the sources: the target of the assignment, in the given block, whose
    right-hand side is the given value ("its direct aliases"); it raises when
    there is none. *)
Definition get_assignee (func_ir : FunctionIR) (rhs : value) (in_block : label)
  : result string :=
  blk ← block_at (blocks func_ir) in_block;
  find_assignee rhs (body blk).

(** [a ^ {x}] on sets held as lists. *)
Definition sym_diff_singleton (a : list label) (x : label) : list label :=
  if decide (x ∈ a) then filter (fun y => y ≠ x) a else (a ++ [x])%list.

(** "replace RHS use of induction var with getitem", for one statement. *)
Definition index_induction_var (iterarg : string) (induction_vars : list string)
    (s : stmt) : stmt :=
  match s with
  | Assign (Var v) t =>
      if decide (v ∈ induction_vars) then Assign (Expr (getitem iterarg v)) t
      else s
  | _ => s
  end.

(** The statement [x.value.value = v] reaches the expression object [x.value],
    which the definitions table holds too: the table entry of the statement's
    target changes with it. *)
Definition alias_update (defs : list (string * list value)) (target : string)
    (old new : value) : list (string * list value) :=
  match Dict.get defs target with
  | Some ds =>
      Dict.set defs target (map (fun d => if decide (d = old) then new else d) ds)
  | None => defs
  end.

Section passes.
Context `{Collaborators}.

Definition inline_at (func_ir : FunctionIR) (lbl : label) (idx : nat) : T unit :=
  fun s => (Ok tt, inline_closure_call func_ir lbl idx s.2).

Definition assess_loop (l : Loop) (func_ir : FunctionIR)
    (partial_typemap : option (list (string * ty))) : result bool :=
  hdr ← block_at (blocks func_ir) (header l);
  match find_exprs "iternext" hdr with
  | [the_iternext] =>
      match (v ← attr_value (Expr the_iternext); get_definition func_ir v) with
      | Raise _ => Ok false
      | Ok phi =>
          if is_Expr_op "getiter" phi then
            if typemap_truth partial_typemap then
              phi_value ← attr_value phi;
              phi_val_defn ← get_definition func_ir phi_value;
              if negb (is_Expr_op "call" phi_val_defn) then Ok false else
              the_call ← get_definition func_ir phi_val_defn;
              args ← attr_args the_call;
              if negb (bool_decide (length args = 1%nat)) then Ok false else
              call_func ← attr_func the_call;
              func_var ← get_definition func_ir call_func;
              func ← get_definition func_ir func_var;
              if negb (is_Global func) then Ok false else
              func_value ← attr_value func;
              if negb (bool_decide (func_value = Obj py_literal_unroll))
              then Ok false else
              arg0 ← of_option IndexError (head args);
              match partial_typemap ≫= fun m => Dict.get m arg0 with
              | Some t =>
                  if type_truth t && accepted_type t
                  then Ok (bool_decide (length (entries l) = 1%nat))
                  else Ok false
              | None => Ok false
              end
            else Ok (bool_decide (length (entries l) = 1%nat))
          else Ok false
      end
  | _ => Ok false
  end.

(** Lines 1088-1124: the call of [get_range] put before the getiter of the
    entry block, the getiter pointed at its result, and the call inlined.  The
    result is the variable the loop iterated before. *)
Definition inject_range (l : Loop) : T value :=
  func_ir ← get_ir;
  hdr ← liftT (block_at (blocks func_ir) (header l));
  the_iternext ← liftT (of_option IndexError (head (find_exprs "iternext" hdr)));
  get_range_var ← unique_varT "get_range_gbl";
  let assgn := Assign (Global "get_range" py_get_range) get_range_var in
  loop_entry ← liftT (of_option IndexError (head (entries l)));
  entry_block ← liftT (block_at (blocks func_ir) loop_entry);
  let entry_body := assgn :: body entry_block in
  let func_ir :=
    set_blocks func_ir (Dict.set (blocks func_ir) loop_entry (mkBlock entry_body)) in
  put_ir func_ir;;
  phi ← liftT (v ← attr_value (Expr the_iternext); get_definition func_ir v);
  iterarg ← liftT (attr_value phi);
  '(idx, target, iterated) ← liftT (find_getiter 0 entry_body);
  call_get_range_var ← unique_varT "call_get_range";
  let make_call := call get_range_var [iterated] in
  let assgn_call := Assign (Expr make_call) call_get_range_var in
  let entry_body := list_insert_at idx assgn_call entry_body in
  let entry_body :=
    <[S idx := Assign (Expr (getiter call_get_range_var)) target]> entry_body in
  let func_ir :=
    mkIR (Dict.set (blocks func_ir) loop_entry (mkBlock entry_body))
         (alias_update (_definitions func_ir) target (Expr (getiter iterated))
                       (Expr (getiter call_get_range_var)))
         (livemap func_ir) in
  inline_at func_ir loop_entry idx;;
  func_ir ← get_ir;
  entry_block ← liftT (block_at (blocks func_ir) loop_entry);
  entry_body ← liftT (remove_first assgn (body entry_block));
  put_ir (set_blocks func_ir
            (Dict.set (blocks func_ir) loop_entry (mkBlock entry_body)));;
  mret iterarg.

(** Lines 1126-1139: the induction variable and its aliases in the header. *)
Definition find_induction_vars (func_ir : FunctionIR) (l : Loop)
  : result (list string) :=
  header_block ← block_at (blocks func_ir) (header l);
  let ind := find_exprs "pair_first" header_block in
  induction_vars ← mapM (fun x => get_assignee func_ir (Expr x) (header l)) ind;
  let induction_vars := remove_dups induction_vars in
  tmp ← mapM (fun x => get_assignee func_ir (Var x) (header l)) induction_vars;
  Ok (list_union induction_vars (remove_dups tmp)).

(** Lines 1141-1145: the blocks that may mention the induction variable. *)
Definition check_blocks (l : Loop) (succs : label -> list label) : list label :=
  let succ := fold_left (fun acc lbl => list_union acc (succs lbl)) (exits l) [] in
  sym_diff_singleton (list_union (list_union (loop_body l) (exits l)) succ)
                     (header l).

(** Lines 1147-1153: the rewriting loop over the check blocks. *)
Fixpoint rewrite_blocks (iterarg : string) (induction_vars : list string)
    (bs : list (label * Block)) (lbls : list label)
  : result (list (label * Block)) :=
  match lbls with
  | [] => Ok bs
  | lbl :: rest =>
      blk ← block_at bs lbl;
      rewrite_blocks iterarg induction_vars
        (Dict.set bs lbl
           (mkBlock (map (index_induction_var iterarg induction_vars) (body blk))))
        rest
  end.

(** [transform] up to, and without, the final post-processing. *)
Definition transform_rewrite (l : Loop) (succs : label -> list label) : T unit :=
  iterarg ← inject_range l;
  func_ir ← get_ir;
  induction_vars ← liftT (find_induction_vars func_ir l);
  iterarg_name ← liftT (match iterarg with
                        | Var n => Ok n
                        | _ => Raise AssertionError
                        end);
  bs ← liftT (rewrite_blocks iterarg_name induction_vars (blocks func_ir)
                             (check_blocks l succs));
  put_ir (set_blocks func_ir bs).

Definition transform (l : Loop) (succs : label -> list label) : T unit :=
  transform_rewrite l succs;;
  func_ir ← get_ir;
  put_ir (post_proc_run func_ir).

(** The loop of [run_pass] over [loops.items()]. *)
Fixpoint canonicalise (loops : list (label * Loop))
    (tm : option (list (string * ty))) (succs : label -> list label)
    (mutated : bool) : T bool :=
  match loops with
  | [] => mret mutated
  | (_, l) :: rest =>
      func_ir ← get_ir;
      stat ← liftT (assess_loop l func_ir tm);
      if stat : bool
      then transform l succs;; canonicalise rest tm succs true
      else canonicalise rest tm succs mutated
  end.

Definition run_pass (w : World) : result bool * World :=
  let st := state w in
  let func_ir := Pipeline.func_ir st in
  let loops := cfg_loops (blocks func_ir) in
  let succs := cfg_successors (blocks func_ir) in
  let pass : T bool :=
    mutated ← canonicalise loops (typemap st) succs false;
    func_ir ← get_ir;
    put_ir (set_blocks func_ir (simplify_CFG (blocks func_ir)));;
    mret mutated in
  let '(r, (func_ir', c)) := pass (func_ir, _unique_var_count w) in
  (r, mkWorld (set_func_ir st func_ir') c).

End passes.
End IterLoopCanonicalization.

(** ** Reference collaborators

    Executable stand-ins for the collaborators, used to run the passes on
    concrete functions.  The statements about the passes hold for every
    implementation of the collaborators; these are one. *)

Module Reference.

Definition targets (s : stmt) : list label :=
  match s with
  | Jump t => [t]
  | Branch _ t f => [t; f]
  | _ => []
  end.

(** Modelled from the spec: the successor adjacency of the CFG analyser
    (numba/analysis.py is not among the sources): the targets of the block's
    terminator. *)
Definition successors (bs : list (label * Block)) (lbl : label) : list label :=
  match Dict.get bs lbl with
  | Some b => match last (body b) with
              | Some s => targets s
              | None => []
              end
  | None => []
  end.

Definition predecessors (bs : list (label * Block)) (lbl : label) : list label :=
  filter (fun p => lbl ∈ successors bs p) (Dict.keys bs).

Definition inter (a b : list label) : list label := filter (fun x => x ∈ b) a.

(** One round of the dominator equations
    dom(n) = {n} ∪ ⋂ { dom(p) | p a predecessor of n }. *)
Definition dom_round (bs : list (label * Block)) (entry : label)
    (dom : list (label * list label)) : list (label * list label) :=
  map (fun nd =>
         let n := nd.1 in
         if decide (n = entry) then (n, [n])
         else (n, list_union [n]
                    (fold_left (fun acc p => inter acc (default [] (Dict.get dom p)))
                               (predecessors bs n) (Dict.keys bs))))
      dom.

Fixpoint iterate {A} (n : nat) (f : A -> A) (x : A) : A :=
  match n with
  | O => x
  | S n' => iterate n' f (f x)
  end.

Definition dominators (bs : list (label * Block)) : list (label * list label) :=
  match min_label (Dict.keys bs) with
  | Ok entry =>
      iterate (length bs) (dom_round bs entry)
              (map (fun lb => (lb.1, Dict.keys bs)) bs)
  | Raise _ => []
  end.

(** The nodes that reach [n] without passing through the header. *)
Fixpoint reach_back (fuel : nat) (bs : list (label * Block))
    (body stack : list label) : list label :=
  match fuel, stack with
  | S fuel', m :: rest =>
      if decide (m ∈ body) then reach_back fuel' bs body rest
      else reach_back fuel' bs (body ++ [m])%list (predecessors bs m ++ rest)%list
  | _, _ => body
  end.

Definition back_edges (bs : list (label * Block)) : list (label * label) :=
  let dom := dominators bs in
  concat (map (fun n =>
                 omap (fun h => if decide (h ∈ default [] (Dict.get dom n))
                                then Some (n, h) else None)
                      (successors bs n))
              (Dict.keys bs)).

(** Modelled from the spec: the loop analysis of the CFG analyser: "the natural
    loop set keyed by header label, each with header/body/entries/exits", the
    entries being "predecessors outside the loop". *)
Definition loops (bs : list (label * Block)) : list (label * Loop) :=
  let edges := back_edges bs in
  let headers := remove_dups (map snd edges) in
  map (fun h =>
         let sources := map fst (filter (fun e => e.2 = h) edges) in
         let body := merge_sort Z.le
                       (reach_back (length bs * length bs + length bs) bs [h] sources) in
         let outside l := filter (fun x => x ∉ body) l in
         (h, mkLoop h body
               (remove_dups (concat (map (fun n => outside (predecessors bs n)) body)))
               (remove_dups (concat (map (fun n => outside (successors bs n)) body)))))
      headers.

(** Modelled from the spec: get_definition of numba/ir.py: "chasing assignments
    through the IR" while the value is a variable with exactly one definition;
    it raises when a variable has none or several. *)
Fixpoint chase (fuel : nat) (defs : list (string * list value)) (x : value)
  : result value :=
  match x with
  | Var n =>
      match Dict.get defs n, fuel with
      | Some [d], S fuel' => chase fuel' defs d
      | _, _ => Raise KeyError
      end
  | _ => Ok x
  end.

Definition get_definition (f : FunctionIR) (x : value) : result value :=
  chase (S (length (_definitions f))) (_definitions f) x.

(** Modelled from the spec: build_definitions of numba/ir_utils.py: the
    "definition table", every variable with the right-hand sides assigned to
    it, in block and statement order. *)
Definition build_definitions (bs : list (label * Block))
  : list (string * list value) :=
  fold_left (fun defs s =>
               match s with
               | Assign x t =>
                   Dict.set defs t (default [] (Dict.get defs t) ++ [x])%list
               | _ => defs
               end)
            (concat (map (fun lb => body lb.2) bs)) [].

(** Modelled from the spec: compute_use_defs of numba/analysis.py: "per-label
    use/def sets": the variables a block assigns, and those it reads before
    assigning them. *)
Definition use_def (b : Block) : list string * list string :=
  fold_left (fun ud s =>
               let '(u, d) := ud in
               let reads := match s with
                            | Assign x _ => value_vars x
                            | _ => stmt_vars s
                            end in
               let u := list_union u (filter (fun v => v ∉ d) reads) in
               match s with
               | Assign _ t => (u, list_union d [t])
               | _ => (u, d)
               end)
            (body b) ([], []).

Definition compute_use_defs (bs : list (label * Block))
  : list (label * list string) * list (label * list string) :=
  (map (fun lb => (lb.1, (use_def lb.2).1)) bs,
   map (fun lb => (lb.1, (use_def lb.2).2)) bs).

(** Modelled from the spec: simplify_CFG of numba/ir_utils.py: "merge
    trivially-redundant jump-only blocks": a block other than the entry that
    holds nothing but a jump to another block is removed, and the jumps and
    branches to it go to its target. *)
Definition jump_only (entry : label) (lb : label * Block) : option (label * label) :=
  match body lb.2 with
  | [Jump t] => if decide (lb.1 = entry \/ lb.1 = t) then None else Some (lb.1, t)
  | _ => None
  end.

Definition retarget (from to : label) (s : stmt) : stmt :=
  let r x := if decide (x = from) then to else x in
  match s with
  | Jump t => Jump (r t)
  | Branch c t f => Branch c (r t) (r f)
  | _ => s
  end.

Definition simplify_once (bs : list (label * Block)) : list (label * Block) :=
  match min_label (Dict.keys bs) with
  | Ok entry =>
      match omap (jump_only entry) bs with
      | (from, to) :: _ =>
          map (fun lb => (lb.1, mkBlock (map (retarget from to) (body lb.2))))
              (Dict.remove bs from)
      | [] => bs
      end
  | Raise _ => bs
  end.

Definition simplify_CFG (bs : list (label * Block)) : list (label * Block) :=
  iterate (length bs) simplify_once bs.

(** The tests of the if/elif chain, read back from the generated text: the
    numbers between every "in (" and the next ")".  [skip] counts the
    characters of an "in (" still to pass; [cur] and [test] hold the number and
    the tuple being read. *)
Fixpoint parse_tests (inside : bool) (skip : nat) (cur : option nat)
    (test : list nat) (src : string) : list (list nat) :=
  match src with
  | EmptyString => []
  | String c rest =>
      if inside then
        if decide (c = ")"%char)
        then test :: parse_tests false 0 None [] rest
        else if decide (c = ","%char)
        then parse_tests true 0 None
               (match cur with Some n => test ++ [n] | None => test end)%list rest
        else
          let d := (nat_of_ascii c - 48)%nat in
          parse_tests true 0 (Some (10 * default 0%nat cur + d)%nat) test rest
      else
        match skip with
        | S O => parse_tests true 0 None [] rest
        | S k => parse_tests false k None [] rest
        | O => if String.prefix "in (" src
               then parse_tests false 3 None [] rest
               else parse_tests false 0 None [] rest
        end
  end.

(** Modelled from the spec: the IR of the switch function ("a fresh block graph
    encoding if idx in {...}: SENTINEL elif ...: SENTINEL ... else: raise").
    A test block and a sentinel block per branch, the raising else block and
    the common exit; labels start at [base]. *)
Fixpoint chain_blocks (base : label) (j : nat) (exit_lbl else_lbl : label)
    (ts : list (list nat)) (c : nat) : list (label * Block) * nat :=
  match ts with
  | [] => ([], c)
  | t :: rest =>
      let test_lbl := base + 2 * Z.of_nat j in
      let sent_lbl := test_lbl + 1 in
      let next_lbl := match rest with [] => else_lbl | _ => test_lbl + 2 end in
      let '(ph, c) := mk_unique_var "$ph" c in
      let '(tup, c) := mk_unique_var "$tup" c in
      let '(cmp, c) := mk_unique_var "$cmp" c in
      let '(none, c) := mk_unique_var "$none" c in
      let '(sentinel, c) := mk_unique_var "SENTINEL" c in
      let '(more, c) := chain_blocks base (S j) exit_lbl else_lbl rest c in
      ((test_lbl, mkBlock [Assign (Global "PLACEHOLDER_INDEX" py_none) ph;
                           Assign (Const (py_tuple t)) tup;
                           Assign (Expr (binop "in" ph tup)) cmp;
                           Branch cmp sent_lbl next_lbl])
       :: (sent_lbl, mkBlock [Assign (Const py_none) none;
                              Assign (Var none) sentinel;
                              Jump exit_lbl])
       :: more, c)
  end.

Definition switch_base : label := 1000.

Definition compile_to_numba_ir (src : string) (c : nat)
  : list (label * Block) * nat :=
  let ts := parse_tests false 0 None [] src in
  let else_lbl := switch_base + 2 * Z.of_nat (length ts) in
  let exit_lbl := else_lbl + 1 in
  let '(chain, c) := chain_blocks switch_base 0 exit_lbl else_lbl ts c in
  let '(ret, c) := mk_unique_var "$ret" c in
  ((chain ++ [(else_lbl, mkBlock [StaticRaise "Unreachable"]);
              (exit_lbl, mkBlock [Assign (Const py_none) ret; Return ret])])%list,
   c).

(** Modelled from the spec: inline_closure_call on the call of [get_range]:
    "a call to an index-range helper (range(len(X))) inlined at loop entry", as
    the entry block reads once the inlined blocks are merged into it. *)
Definition inline_closure_call (f : FunctionIR) (lbl : label) (idx : nat)
    (c : nat) : FunctionIR * nat :=
  match Dict.get (blocks f) lbl with
  | Some blk =>
      match body blk !! idx with
      | Some (Assign (Expr (call _ [x])) t) =>
          let '(len_g, c) := mk_unique_var "$len_g" c in
          let '(len_v, c) := mk_unique_var "$len" c in
          let '(range_g, c) := mk_unique_var "$range_g" c in
          let '(range_v, c) := mk_unique_var "$range" c in
          let inlined := [Assign (Global "len" py_len) len_g;
                          Assign (Expr (call len_g [x])) len_v;
                          Assign (Global "range" py_range) range_g;
                          Assign (Expr (call range_g [len_v])) range_v;
                          Assign (Var range_v) t] in
          let new_body := (take idx (body blk) ++ inlined
                           ++ drop (S idx) (body blk))%list in
          (mkIR (Dict.set (blocks f) lbl (mkBlock new_body))
                (fold_left (fun defs s =>
                              match s with
                              | Assign v tgt =>
                                  Dict.set defs tgt
                                    (default [] (Dict.get defs tgt) ++ [v])%list
                              | _ => defs
                              end) inlined (_definitions f))
                (livemap f), c)
      | _ => (f, c)
      end
  | None => (f, c)
  end.

(** Modelled from the spec: the truth value of a type object; the container
    types have a length, and an object of length zero is false. *)
Definition type_truth (t : ty) : bool :=
  match t with
  | Tuple [] => false
  | UniTuple _ O => false
  | _ => true
  end.

(** Modelled from the spec: the "live-variable map" that post-processing leaves
    in [variable_lifetime]: the variables live on entry to each block, by
    iterating live(b) = use(b) ∪ (⋃ live(successors of b) ∖ def(b)). *)
Definition live_round (bs : list (label * Block)) (live : list (label * list string))
  : list (label * list string) :=
  map (fun lb =>
         let '(u, d) := use_def lb.2 in
         let out := concat (map (fun s => default [] (Dict.get live s))
                                (successors bs lb.1)) in
         (lb.1, list_union u (filter (fun v => v ∉ d) (remove_dups out))))
      bs.

Definition post_proc_run (f : FunctionIR) : FunctionIR :=
  mkIR (blocks f) (_definitions f)
       (iterate (length (blocks f) * length (blocks f) + 1)
                (live_round (blocks f))
                (map (fun lb => (lb.1, [])) (blocks f))).

Definition collaborators : Collaborators := {|
  cfg_loops := loops;
  cfg_successors := successors;
  Pipeline.simplify_CFG := simplify_CFG;
  Pipeline.get_definition := get_definition;
  Pipeline.build_definitions := build_definitions;
  Pipeline.post_proc_run := post_proc_run;
  Pipeline.compute_use_defs := compute_use_defs;
  Pipeline.compile_to_numba_ir := compile_to_numba_ir;
  Pipeline.inline_closure_call := inline_closure_call;
  Pipeline.type_truth := type_truth |}.

End Reference.

(** ** The unroll driver *)

Section driver_facts.
Context `{Collaborators}.
Import MixedContainerUnroller.

(** The number of eligibility records one scan of the state finds. *)
Definition eligible (w : World) : nat :=
  match scan (func_ir (state w)) (typemap (state w))
             (cfg_loops (blocks (func_ir (state w)))) [] with
  | Ok (Some literal_unroll_info) => length literal_unroll_info
  | _ => 0%nat
  end.

(** What [apply_transform] does after a successful unroll. *)
Definition tidy (w : World) : World :=
  let ir1 := func_ir (state w) in
  let ir2 := set_blocks ir1 (simplify_CFG (blocks ir1)) in
  let ir3 := post_proc_run ir2 in
  with_ir w (set_definitions ir3 (build_definitions (blocks ir3))).

Lemma popitem_None {K V} (d : list (K * V)) : Dict.popitem d = None -> d = [].
Proof.
  unfold Dict.popitem. destruct (rev d) as [|kv r] eqn:Hr; [|done].
  intros _. apply (f_equal (@rev _)) in Hr. by rewrite rev_involutive in Hr.
Qed.

Lemma popitem_Some {K V} (d : list (K * V)) kv rest :
  Dict.popitem d = Some (kv, rest) -> d = (rest ++ [kv])%list.
Proof.
  unfold Dict.popitem. destruct (rev d) as [|kv' r] eqn:Hr; [done|].
  intros [= -> <-]. apply (f_equal (@rev _)) in Hr.
  rewrite rev_involutive in Hr. by rewrite Hr.
Qed.

(** The three ways [apply_transform] ends normally or with the nesting error. *)
Lemma apply_transform_cases (w : World) :
  match scan (func_ir (state w)) (typemap (state w))
             (cfg_loops (blocks (func_ir (state w)))) [] with
  | Raise e => apply_transform w = (Raise e, w)
  | Ok None => apply_transform w = (Ok false, w)
  | Ok (Some info) =>
      match Dict.popitem info with
      | None => apply_transform w = (Ok false, w)
      | Some ((lbl, ui), _) =>
          if nesting info
          then apply_transform w = (Raise (UnsupportedError nesting_msg), w)
          else match unroll_loop w ui with
               | (Raise e, w') => apply_transform w = (Raise e, w')
               | (Ok _, w') => apply_transform w = (Ok true, tidy w')
               end
      end
  end.
Proof.
  unfold apply_transform.
  destruct (scan _ _ _ _) as [[info|]|e]; [|done|done].
  destruct (Dict.popitem info) as [[[lbl ui] rest]|]; [|done].
  destruct (nesting info); [done|].
  destruct (unroll_loop w ui) as [[u|e] w']; done.
Qed.

(** Reporting no change leaves the state as it was. *)
Lemma apply_transform_false (w w' : World) :
  apply_transform w = (Ok false, w') -> w' = w.
Proof.
  pose proof (apply_transform_cases w) as Hc.
  destruct (scan _ _ _ _) as [[info|]|e]; try congruence.
  destruct (Dict.popitem info) as [[[lbl ui] rest]|]; [|congruence].
  destruct (nesting info); [congruence|].
  destruct (unroll_loop w ui) as [[u|e] w'']; congruence.
Qed.

(** Reporting a change means exactly one call of [unroll_loop], on the record
    stored last, followed by the tidying. *)
Lemma apply_transform_true (w w' : World) :
  apply_transform w = (Ok true, w') ->
  exists info lbl ui rest w1,
    scan (func_ir (state w)) (typemap (state w))
         (cfg_loops (blocks (func_ir (state w)))) [] = Ok (Some info)
    /\ Dict.popitem info = Some ((lbl, ui), rest)
    /\ nesting info = false
    /\ unroll_loop w ui = (Ok tt, w1)
    /\ w' = tidy w1.
Proof.
  pose proof (apply_transform_cases w) as Hc.
  destruct (scan _ _ _ _) as [[info|]|e]; try congruence.
  destruct (Dict.popitem info) as [[[lbl ui] rest]|] eqn:Hpop; [|congruence].
  destruct (nesting info) eqn:Hn; [congruence|].
  destruct (unroll_loop w ui) as [[[]|e] w1] eqn:Hu; [|congruence].
  intros Ht. exists info, lbl, ui, rest, w1. repeat split; congruence.
Qed.

Lemma transform_loop_false (fuel : nat) (w : World) (mutated : bool) :
  apply_transform w = (Ok false, w) ->
  transform_loop (S fuel) w mutated = Some (Ok mutated, w).
Proof. intros Ha. simpl. rewrite Ha. simpl. by rewrite orb_false_r. Qed.

(** The loop hands on errors and otherwise ends in a state that the last
    [apply_transform] left untouched. *)
Lemma transform_loop_typing (fuel : nat) (w w' : World) (m r : bool) :
  transform_loop fuel w m = Some (Ok r, w') ->
  apply_transform w' = (Ok false, w').
Proof.
  revert w m. induction fuel as [|fuel IH]; intros w m; simpl; [done|].
  destruct (apply_transform w) as [[stat|e] w1] eqn:Ha; [|done].
  destruct stat; simpl.
  - apply IH.
  - intros [= <- <-]. by rewrite (apply_transform_false _ _ Ha) in Ha |- *.
Qed.

End driver_facts.

(** ** Concrete functions *)

Module Examples.

(** The state a pipeline hands to the passes for a block map: definitions and
    live variables computed, counter at zero. *)
Definition world_of (bs : list (label * Block))
    (tm : option (list (string * ty))) : World :=
  mkWorld (mkState (Reference.post_proc_run
                      (mkIR bs (Reference.build_definitions bs) []))
                   tm (Some (Scalar "int64")) (Some [])) 0.

Definition mixed : ty := Tuple [Scalar "int64"; Literal (py_int 7); Scalar "int64"].

(** [acc = 0; for a in literal_unroll(t): acc = acc + a; return acc] *)
Definition sum_blocks : list (label * Block) :=
  [(0, mkBlock [Assign (Arg "t" 0) "t";
                Assign (Const (py_int 0)) "acc";
                Assign (Global "literal_unroll" py_literal_unroll) "$lu_g";
                Assign (Expr (call "$lu_g" ["t"])) "$lu";
                Assign (Expr (getiter "$lu")) "$it";
                Jump 10]);
   (10, mkBlock [Assign (Expr (iternext "$it")) "$n";
                 Assign (Expr (pair_first "$n")) "$first";
                 Assign (Expr (pair_second "$n")) "$second";
                 Assign (Var "$first") "$phi";
                 Branch "$second" 20 30]);
   (20, mkBlock [Assign (Var "$phi") "a";
                 Assign (Expr (binop "+" "acc" "a")) "acc";
                 Jump 10]);
   (30, mkBlock [Return "acc"])].

Definition sum_typed : World := world_of sum_blocks (Some [("t", mixed)]).
Definition sum_untyped : World := world_of sum_blocks None.

(** [return x]: no loop at all. *)
Definition plain_blocks : list (label * Block) :=
  [(0, mkBlock [Assign (Arg "x" 0) "x"; Return "x"])].

Definition plain : World := world_of plain_blocks (Some [("x", Scalar "int64")]).

(** [x = f(); return x] with a block that only jumps between the two. *)
Definition detour_blocks : list (label * Block) :=
  [(0, mkBlock [Assign (Arg "x" 0) "x"; Jump 4]);
   (4, mkBlock [Jump 8]);
   (8, mkBlock [Return "x"])].

Definition detour : World := world_of detour_blocks (Some [("x", Scalar "int64")]).

(** [for a in literal_unroll(t): for b in literal_unroll(u): acc = acc + b]
    followed by [acc = acc + a] in the outer loop; block 50 is the jump-only
    block that leaves the inner loop. *)
Definition nested_blocks : list (label * Block) :=
  [(0, mkBlock [Assign (Arg "t" 0) "t";
                Assign (Arg "u" 1) "u";
                Assign (Const (py_int 0)) "acc";
                Assign (Global "literal_unroll" py_literal_unroll) "$lu_g";
                Assign (Expr (call "$lu_g" ["t"])) "$lut";
                Assign (Expr (getiter "$lut")) "$it_a";
                Jump 10]);
   (10, mkBlock [Assign (Expr (iternext "$it_a")) "$n_a";
                 Assign (Expr (pair_first "$n_a")) "$first_a";
                 Assign (Expr (pair_second "$n_a")) "$second_a";
                 Assign (Var "$first_a") "$phi_a";
                 Branch "$second_a" 20 70]);
   (20, mkBlock [Assign (Var "$phi_a") "a";
                 Assign (Global "literal_unroll" py_literal_unroll) "$lu_g2";
                 Assign (Expr (call "$lu_g2" ["u"])) "$luu";
                 Assign (Expr (getiter "$luu")) "$it_b";
                 Jump 30]);
   (30, mkBlock [Assign (Expr (iternext "$it_b")) "$n_b";
                 Assign (Expr (pair_first "$n_b")) "$first_b";
                 Assign (Expr (pair_second "$n_b")) "$second_b";
                 Assign (Var "$first_b") "$phi_b";
                 Branch "$second_b" 40 50]);
   (40, mkBlock [Assign (Var "$phi_b") "b";
                 Assign (Expr (binop "+" "acc" "b")) "acc";
                 Jump 30]);
   (50, mkBlock [Jump 60]);
   (60, mkBlock [Assign (Expr (binop "+" "acc" "a")) "acc";
                 Jump 10]);
   (70, mkBlock [Return "acc"])].

Definition nested_typemap : option (list (string * ty)) :=
  Some [("t", mixed); ("u", UniTuple (Scalar "float64") 2)].

(** The same nest written in canonical form,
    [for i in range(len(literal_unroll(t))): a = t[i]; ...], again with the
    jump-only block 50. *)
Definition nested_canonical_blocks : list (label * Block) :=
  [(0, mkBlock [Assign (Arg "t" 0) "t";
                Assign (Arg "u" 1) "u";
                Assign (Const (py_int 0)) "acc";
                Assign (Global "literal_unroll" py_literal_unroll) "$lu_g";
                Assign (Global "len" py_len) "$len_g";
                Assign (Global "range" py_range) "$range_g";
                Assign (Expr (call "$lu_g" ["t"])) "$lut";
                Assign (Expr (call "$len_g" ["$lut"])) "$len_t";
                Assign (Expr (call "$range_g" ["$len_t"])) "$range_t";
                Assign (Expr (getiter "$range_t")) "$it_a";
                Jump 10]);
   (10, mkBlock [Assign (Expr (iternext "$it_a")) "$n_a";
                 Assign (Expr (pair_first "$n_a")) "$first_a";
                 Assign (Expr (pair_second "$n_a")) "$second_a";
                 Assign (Var "$first_a") "$phi_a";
                 Branch "$second_a" 20 70]);
   (20, mkBlock [Assign (Expr (getitem "$lut" "$phi_a")) "a";
                 Assign (Expr (call "$lu_g" ["u"])) "$luu";
                 Assign (Expr (call "$len_g" ["$luu"])) "$len_u";
                 Assign (Expr (call "$range_g" ["$len_u"])) "$range_u";
                 Assign (Expr (getiter "$range_u")) "$it_b";
                 Jump 30]);
   (30, mkBlock [Assign (Expr (iternext "$it_b")) "$n_b";
                 Assign (Expr (pair_first "$n_b")) "$first_b";
                 Assign (Expr (pair_second "$n_b")) "$second_b";
                 Assign (Var "$first_b") "$phi_b";
                 Branch "$second_b" 40 50]);
   (40, mkBlock [Assign (Expr (getitem "$luu" "$phi_b")) "b";
                 Assign (Expr (binop "+" "acc" "b")) "acc";
                 Jump 30]);
   (50, mkBlock [Jump 60]);
   (60, mkBlock [Assign (Expr (binop "+" "acc" "a")) "acc";
                 Jump 10]);
   (70, mkBlock [Return "acc"])].

Definition nested_canonical : World :=
  world_of nested_canonical_blocks nested_typemap.

(** [while n: n = n - one] ahead of the loop of [sum_blocks]. *)
Definition while_blocks : list (label * Block) :=
  [(0, mkBlock [Assign (Arg "t" 0) "t";
                Assign (Arg "n" 1) "n";
                Assign (Const (py_int 1)) "one";
                Assign (Const (py_int 0)) "acc";
                Jump 2]);
   (2, mkBlock [Branch "n" 4 6]);
   (4, mkBlock [Assign (Expr (binop "-" "n" "one")) "n";
                Jump 2]);
   (6, mkBlock [Assign (Global "literal_unroll" py_literal_unroll) "$lu_g";
                Assign (Expr (call "$lu_g" ["t"])) "$lu";
                Assign (Expr (getiter "$lu")) "$it";
                Jump 10]);
   (10, mkBlock [Assign (Expr (iternext "$it")) "$n";
                 Assign (Expr (pair_first "$n")) "$first";
                 Assign (Expr (pair_second "$n")) "$second";
                 Assign (Var "$first") "$phi";
                 Branch "$second" 20 30]);
   (20, mkBlock [Assign (Var "$phi") "a";
                 Assign (Expr (binop "+" "acc" "a")) "acc";
                 Jump 10]);
   (30, mkBlock [Return "acc"])].

(** [for a, b in literal_unroll(t): acc = acc + a]: the loop variable is
    unpacked, so the body reads the induction variable inside an expression. *)
Definition unpack_blocks : list (label * Block) :=
  [(0, mkBlock [Assign (Arg "t" 0) "t";
                Assign (Const (py_int 0)) "acc";
                Assign (Global "literal_unroll" py_literal_unroll) "$lu_g";
                Assign (Expr (call "$lu_g" ["t"])) "$lu";
                Assign (Expr (getiter "$lu")) "$it";
                Jump 10]);
   (10, mkBlock [Assign (Expr (iternext "$it")) "$n";
                 Assign (Expr (pair_first "$n")) "$first";
                 Assign (Expr (pair_second "$n")) "$second";
                 Assign (Var "$first") "$phi";
                 Branch "$second" 20 30]);
   (20, mkBlock [Assign (Expr (exhaust_iter "$phi" 2)) "$pair";
                 Assign (Var "$phi") "whole";
                 Assign (Expr (binop "+" "acc" "whole")) "acc";
                 Jump 10]);
   (30, mkBlock [Return "acc"])].

End Examples.

(** ** The claims on the unroll driver *)

Section driver_claims.
Context `{Collaborators}.
Import MixedContainerUnroller.

Lemma nesting_true (info : list (label * unroll_info)) k1 u1 k2 u2 :
  (k1, u1) ∈ info -> (k2, u2) ∈ info -> k1 <> k2 ->
  header (loop u1) ∈ loop_body (loop u2) ->
  nesting info = true.
Proof.
  intros H1 H2 Hne Hin. unfold nesting.
  apply existsb_exists. exists (k1, u1). split; [by apply list_elem_of_In|].
  apply existsb_exists. exists (k2, u2). split; [by apply list_elem_of_In|].
  simpl. rewrite decide_False by done. by apply bool_decide_eq_true.
Qed.


Lemma transform_loop_true (fuel : nat) (w w' : World) (r : bool) :
  transform_loop fuel w true = Some (Ok r, w') -> r = true.
Proof.
  revert w. induction fuel as [|fuel IH]; intros w; simpl; [done|].
  destruct (apply_transform w) as [[stat|e] w1]; [|done].
  destruct stat; simpl; [apply IH|]. by intros [= <- <-].
Qed.

(** The result of the loop is whether its first iteration unrolled a loop. *)
Lemma transform_loop_result (fuel : nat) (w w' : World) (r : bool) :
  transform_loop fuel w false = Some (Ok r, w') ->
  r = true <-> exists w2, apply_transform w = (Ok true, w2).
Proof.
  destruct fuel as [|fuel]; simpl; [done|].
  destruct (apply_transform w) as [[stat|e] w1]; [|done].
  destruct stat; simpl.
  - intros Ht. apply transform_loop_true in Ht. split; [by exists w1 | done].
  - intros [= <- <-]. split; [done | by intros [w2 [=]]].
Qed.

(** The states the while loop of [run_pass] passes through from [w0] on. *)
Inductive reaches (w0 : World) : World -> Prop :=
| reaches_start : reaches w0 w0
| reaches_step w w' :
    reaches w0 w -> apply_transform w = (Ok true, w') -> reaches w0 w'.

Lemma transform_loop_enough_fuel (w0 : World) :
  (forall w1 w2, reaches w0 w1 -> apply_transform w1 = (Ok true, w2) ->
                 (eligible w2 < eligible w1)%nat) ->
  forall fuel w1 m, reaches w0 w1 -> (eligible w1 < fuel)%nat ->
    exists out, transform_loop fuel w1 m = Some out.
Proof.
  intros Hdec. induction fuel as [|fuel IH]; intros w1 m Hr Hlt; [lia|].
  simpl. destruct (apply_transform w1) as [[stat|e] w2] eqn:Ha; [|by eexists].
  destruct stat; simpl; [|by eexists].
  apply IH.
  - by eapply reaches_step.
  - specialize (Hdec _ _ Hr Ha). lia.
Qed.


(** C10: whenever [run_pass] returns, the type map it leaves is the empty map
    and the return type and call types are None; in particular when the first
    scan reports no change, where it returns false. *)
Theorem unroller_resets_typing (fuel : nat) (w : World) :
  (forall mutated w',
      run_pass fuel w = Some (Ok mutated, w') ->
      typemap (state w') = Some []
      /\ return_type (state w') = None
      /\ calltypes (state w') = None)
  /\ (apply_transform (squash w) = (Ok false, squash w) ->
      exists w', run_pass (S fuel) w = Some (Ok false, w')
                 /\ func_ir (state w') = func_ir (state (squash w))
                 /\ typemap (state w') = Some []
                 /\ return_type (state w') = None
                 /\ calltypes (state w') = None).
Proof.
  split.
  - intros mutated w'. unfold run_pass.
    destruct (transform_loop fuel (squash w) false) as [[[m|e] w1]|];
      [|done|done].
    by intros [= <- <-].
  - intros Ha. unfold run_pass.
    rewrite (transform_loop_false fuel (squash w) false Ha).
    eexists. split; [reflexivity|]. done.
Qed.

(** The scanning loop gives up at the first loop whose header does not hold
    exactly one iternext: the records stored so far are dropped and the loops
    after it are not looked at. *)
Lemma scan_gives_up (f : FunctionIR) (tm : option (list (string * ty)))
    (lbl : label) (l : Loop) (rest : list (label * Loop))
    (info : list (label * unroll_info)) (hdr : Block) :
  Dict.get (blocks f) (header l) = Some hdr ->
  length (find_exprs "iternext" hdr) <> 1%nat ->
  scan f tm ((lbl, l) :: rest) info = Ok None.
Proof.
  intros Hh Hn. simpl. unfold check_loop, block_at. rewrite Hh. simpl.
  destruct (find_exprs "iternext" hdr) as [|e [|e' es]]; done.
Qed.

End driver_claims.

(** ** The passes run on the concrete functions *)

Module Runs.
Import MixedContainerUnroller.

Definition canonicalise (w : World) : result bool * World :=
  IterLoopCanonicalization.run_pass (H := Reference.collaborators) w.

Definition unroll (fuel : nat) (w : World) : option (result bool * World) :=
  run_pass (H := Reference.collaborators) fuel w.

Definition step (w : World) : result bool * World :=
  apply_transform (H := Reference.collaborators) w.

Definition records (w : World) : list (label * unroll_info) :=
  match scan (H := Reference.collaborators) (func_ir (state w)) (typemap (state w))
             (Reference.loops (blocks (func_ir (state w)))) [] with
  | Ok (Some info) => info
  | _ => []
  end.

(** [sum_blocks] after canonicalisation, and after one unroll. *)
Definition sum_canonical : World :=
  Eval vm_compute in (canonicalise Examples.sum_typed).2.

Definition sum_unrolled : World :=
  Eval vm_compute in (step sum_canonical).2.

(** [while_blocks] after canonicalisation. *)
Definition while_canonical : World :=
  Eval vm_compute in
    (canonicalise (Examples.world_of Examples.while_blocks
                                     (Some [("t", Examples.mixed)]))).2.

Definition nested_records : list (label * unroll_info) :=
  Eval vm_compute in records (squash (H := Reference.collaborators)
                                     Examples.nested_canonical).

End Runs.

(** ** The driver claims at the concrete functions *)



Lemma sum_canonical_steps :
  MixedContainerUnroller.squash (H := Reference.collaborators) Runs.sum_canonical
  = Runs.sum_canonical
  /\ Runs.step Runs.sum_canonical = (Ok true, Runs.sum_unrolled)
  /\ Runs.step Runs.sum_unrolled = (Ok false, Runs.sum_unrolled)
  /\ eligible (H := Reference.collaborators) Runs.sum_canonical = 1%nat
  /\ eligible (H := Reference.collaborators) Runs.sum_unrolled = 0%nat.
Proof. repeat split; vm_compute; reflexivity. Qed.

Lemma sum_canonical_reaches (w1 : World) :
  reaches (H := Reference.collaborators) Runs.sum_canonical w1 ->
  w1 = Runs.sum_canonical \/ w1 = Runs.sum_unrolled.
Proof.
  destruct sum_canonical_steps as (_ & H1 & H2 & _).
  induction 1 as [|w1 w2 _ IH Hstep]; [by left|].
  destruct IH as [-> | ->].
  - right. unfold Runs.step in H1. congruence.
  - unfold Runs.step in H2. congruence.
Qed.



Lemma unroller_resets_typing_witness :
  exists w', Runs.unroll 1 Examples.plain = Some (Ok false, w')
             /\ typemap (state Examples.plain) = Some [("x", Scalar "int64")]
             /\ typemap (state w') = Some []
             /\ return_type (state w') = None
             /\ calltypes (state w') = None.
Proof.
  destruct (unroller_resets_typing (H := Reference.collaborators) 0 Examples.plain)
    as [_ Hfalse].
  destruct Hfalse as (w' & Hrun & _ & Htm & Hrt & Hct).
  - vm_compute. reflexivity.
  - exists w'. split; [exact Hrun|]. split; [reflexivity|]. auto.
Defined.

(** C6, the unroll driver: at [while_canonical] the marked loop is eligible on
    its own (its check stores a record), yet the scan returns False at the
    while loop, whose header has no iternext; the driver ends with no change and
    the marked loop keeps its plain getitem.  The canonicaliser did go past the
    while loop and rewrote the marked one; without the while loop the driver
    unrolls it. *)
Lemma unroller_stops_scanning_at_loop_without_iternext :
  let w := Runs.while_canonical in
  let f := func_ir (state w) in
  (Runs.canonicalise (Examples.world_of Examples.while_blocks
                        (Some [("t", Examples.mixed)]))).1 = Ok true
  /\ exists l_while l_for hdr ui w',
       Reference.loops (blocks f) = [(2, l_while); (10, l_for)]
       /\ Dict.get (blocks f) (header l_while) = Some hdr
       /\ find_exprs "iternext" hdr = []
       /\ MixedContainerUnroller.check_loop (H := Reference.collaborators)
            f (typemap (state w)) l_for
          = Ok (MixedContainerUnroller.Store 20 ui)
       /\ MixedContainerUnroller.scan (H := Reference.collaborators)
            f (typemap (state w)) (Reference.loops (blocks f)) [] = Ok None
       /\ Runs.unroll 1 w = Some (Ok false, w')
       /\ blocks (func_ir (state w')) = blocks f
       /\ Dict.get (blocks f) 20
          = Some (mkBlock [Assign (Expr (getitem "$lu" "$phi")) "a";
                           Assign (Expr (binop "+" "acc" "a")) "acc";
                           Jump 10])
       /\ (Runs.step Runs.sum_canonical).1 = Ok true.
Proof.
  intros w f. split; [vm_compute; reflexivity|].
  do 5 eexists.
  split; [vm_compute; reflexivity|].
  split; [vm_compute; reflexivity|].
  split; [vm_compute; reflexivity|].
  split; [vm_compute; reflexivity|].
  split; [vm_compute; reflexivity|].
  split; [vm_compute; reflexivity|].
  repeat split; vm_compute; reflexivity.
Qed.

(** ** The canonicaliser *)

Section canonicaliser_claims.
Context `{Collaborators}.
Import IterLoopCanonicalization.
#[local] Arguments Dict.get : simpl never.
#[local] Arguments typemap_truth : simpl never.

Lemma find_exprs_op (o : string) (b : Block) (e : expr) :
  e ∈ find_exprs o b -> op e = o.
Proof.
  unfold find_exprs. intros Hin. apply list_elem_of_omap in Hin as (s & _ & Hs).
  destruct s as [x t| | | | |]; try discriminate.
  destruct x as [| | | |e'|]; try discriminate.
  destruct (decide (op e' = o)); [|discriminate]. by injection Hs as <-.
Qed.

Lemma is_Expr_op_inv (o : string) (x : value) :
  is_Expr_op o x = true -> exists e, x = Expr e /\ op e = o.
Proof.
  destruct x as [| | | |e|]; simpl; try discriminate.
  intros Hb. apply bool_decide_eq_true in Hb. by exists e.
Qed.

Lemma op_getiter_inv (e : expr) : op e = "getiter" -> exists x, e = getiter x.
Proof. destruct e; simpl; try discriminate. by eexists. Qed.

Lemma op_iternext_inv (e : expr) : op e = "iternext" -> exists x, e = iternext x.
Proof. destruct e; simpl; try discriminate. by eexists. Qed.

Lemma op_call_inv (e : expr) : op e = "call" -> exists f a, e = call f a.
Proof. destruct e; simpl; try discriminate. by eexists _, _. Qed.

(** C8: with no partial type map (None or the empty map) [assess_loop] accepts
    every loop whose header holds exactly one iternext defined by a getiter and
    which has exactly one entry, whatever is iterated; with a partial type map
    it accepts exactly the single-entry loops whose getiter argument is defined
    by a one-argument call of a global whose value is the marker object
    literal_unroll, under whatever name, with an argument typed Tuple or
    UniTuple. *)
Theorem assess_loop_acceptance (l : Loop) (f : FunctionIR)
    (tm : option (list (string * ty))) :
  (typemap_truth tm = false ->
   forall hdr v x,
     Dict.get (blocks f) (header l) = Some hdr ->
     find_exprs "iternext" hdr = [iternext v] ->
     get_definition f (Var v) = Ok (Expr (getiter x)) ->
     length (entries l) = 1%nat ->
     assess_loop l f tm = Ok true)
  /\ (typemap_truth tm = true ->
      (assess_loop l f tm = Ok true <->
       exists hdr v x d fn a gv name m t,
         Dict.get (blocks f) (header l) = Some hdr
         /\ find_exprs "iternext" hdr = [iternext v]
         /\ get_definition f (Var v) = Ok (Expr (getiter x))
         /\ get_definition f (Var x) = Ok d
         /\ is_Expr_op "call" d = true
         /\ get_definition f d = Ok (Expr (call fn [a]))
         /\ get_definition f (Var fn) = Ok gv
         /\ get_definition f gv = Ok (Global name py_literal_unroll)
         /\ tm = Some m
         /\ Dict.get m a = Some t
         /\ type_truth t = true
         /\ accepted_type t = true
         /\ length (entries l) = 1%nat)).
Proof.
  split.
  - intros Htm hdr v x Hh Hf Hd He.
    unfold assess_loop, block_at. rewrite Hh. simpl. rewrite Hf. simpl.
    rewrite Hd. simpl. rewrite Htm. by rewrite He.
  - intros Htm. split.
    + unfold assess_loop, block_at.
      destruct (Dict.get (blocks f) (header l)) as [hdr|] eqn:Hh; [|done].
      simpl.
      destruct (find_exprs "iternext" hdr) as [|e [|e' es]] eqn:Hf; [done| |done].
      assert (He : exists v, e = iternext v).
      { apply op_iternext_inv, (find_exprs_op _ hdr). rewrite Hf. left. }
      destruct He as [v ->]. simpl.
      destruct (get_definition f (Var v)) as [phi|err] eqn:Hphi; [|done].
      destruct (is_Expr_op "getiter" phi) eqn:Hop; [|done].
      apply is_Expr_op_inv in Hop as (e & -> & Hop).
      apply op_getiter_inv in Hop as [x ->].
      rewrite Htm. simpl.
      destruct (get_definition f (Var x)) as [d|err] eqn:Hd; [|done]. simpl.
      destruct (is_Expr_op "call" d) eqn:Hcall; [|done]. simpl.
      destruct (get_definition f d) as [c|err] eqn:Hc; [|done]. simpl.
      destruct (attr_args c) as [args|err] eqn:Hargs; [|done]. simpl.
      destruct args as [|a [|a' args]]; [done| |done]. simpl.
      destruct c as [| | | |ce|]; try discriminate.
      destruct ce as [fn args'| | | | | | | | |]; try discriminate.
      injection Hargs as ->. simpl.
      destruct (get_definition f (Var fn)) as [gv|err] eqn:Hgv; [|done]. simpl.
      destruct (get_definition f gv) as [func|err] eqn:Hfunc; [|done]. simpl.
      destruct func as [| |name o| | |]; try done. simpl.
      destruct (bool_decide (Obj o = Obj py_literal_unroll)) eqn:Ho; [|done].
      apply bool_decide_eq_true in Ho. injection Ho as ->. simpl.
      destruct tm as [m|]; [|done]. simpl.
      destruct (Dict.get m a) as [t|] eqn:Ht; [|done].
      destruct (type_truth t) eqn:Htt; [|done].
      destruct (accepted_type t) eqn:Hat; [|done]. simpl.
      intros [= Hent]. apply bool_decide_eq_true in Hent.
      exists hdr, v, x, d, fn, a, gv, name, m, t. by repeat split.
    + intros (hdr & v & x & d & fn & a & gv & name & m & t & Hh & Hf & Hphi & Hd
              & Hcall & Hc & Hgv & Hfunc & -> & Ht & Htt & Hat & Hent).
      unfold assess_loop, block_at. rewrite Hh. simpl. rewrite Hf. simpl.
      rewrite Hphi. simpl. rewrite Htm. rewrite Hd. simpl. rewrite Hcall. simpl.
      rewrite Hc. simpl. rewrite Hgv. simpl. rewrite Hfunc. simpl.
      rewrite Ht, Htt, Hat. simpl. by rewrite Hent.
Qed.

Lemma get_set_eq {K V} `{EqDecision K} (d : list (K * V)) k v :
  Dict.get (Dict.set d k v) k = Some v.
Proof.
  induction d as [|[k' v'] d IH]; unfold Dict.get, Dict.set; simpl; fold (@Dict.get K V _) (@Dict.set K V _).
  - by rewrite decide_True.
  - destruct (decide (k' = k)) as [->|Hne]; unfold Dict.get; simpl; fold (@Dict.get K V _).
    + by rewrite decide_True.
    + by rewrite decide_False.
Qed.

Lemma get_set_ne {K V} `{EqDecision K} (d : list (K * V)) k k' v :
  k <> k' -> Dict.get (Dict.set d k v) k' = Dict.get d k'.
Proof.
  intros Hne. induction d as [|[k2 v2] d IH]; unfold Dict.get, Dict.set; simpl; fold (@Dict.get K V _) (@Dict.set K V _).
  - by rewrite decide_False.
  - destruct (decide (k2 = k)) as [->|Hne2]; unfold Dict.get; simpl; fold (@Dict.get K V _).
    + by rewrite !decide_False.
    + destruct (decide (k2 = k')); [done|]. apply IH.
Qed.

(** The rewriting of a statement leaves nothing for a second rewriting. *)
Lemma index_induction_var_idem iterarg ivs s :
  index_induction_var iterarg ivs (index_induction_var iterarg ivs s)
  = index_induction_var iterarg ivs s.
Proof.
  destruct s as [x t| | | | |]; try done.
  destruct x as [v| | | | |]; try done. simpl.
  destruct (decide (v ∈ ivs)) as [Hin|Hnin]; [done|]. simpl.
  by rewrite decide_False.
Qed.

Lemma index_induction_var_cases iterarg ivs s :
  (exists v t, v ∈ ivs /\ s = Assign (Var v) t
               /\ index_induction_var iterarg ivs s
                  = Assign (Expr (getitem iterarg v)) t)
  \/ ((forall v t, s = Assign (Var v) t -> v ∉ ivs)
      /\ index_induction_var iterarg ivs s = s).
Proof.
  destruct s as [x t| | | | |]; try (right; split; [intros ?? [=] | done]).
  destruct x as [v| | | | |]; try (right; split; [intros ?? [=] | done]).
  simpl. destruct (decide (v ∈ ivs)) as [Hin|Hnin].
  - left. by exists v, t.
  - right. split; [|done]. by intros v' t' [= <- <-].
Qed.

Lemma rewrite_blocks_spec iterarg ivs lbls :
  forall bs bs',
  rewrite_blocks iterarg ivs bs lbls = Ok bs' ->
  forall lbl,
    Dict.get bs' lbl
    = if decide (lbl ∈ lbls)
      then (fun b => mkBlock (map (index_induction_var iterarg ivs) (body b)))
             <$> Dict.get bs lbl
      else Dict.get bs lbl.
Proof.
  induction lbls as [|l0 lbls IH]; intros bs bs'; simpl.
  - intros [= <-] lbl.
    destruct (decide (lbl ∈ [])) as [Hin|_]; [by apply elem_of_nil in Hin | done].
  - unfold block_at. destruct (Dict.get bs l0) as [b|] eqn:Hb; [|done]. simpl.
    intros Hr lbl. rewrite (IH _ _ Hr lbl).
    destruct (decide (lbl = l0)) as [->|Hne].
    + rewrite get_set_eq, Hb. rewrite (decide_True (P := l0 ∈ l0 :: lbls)) by left.
      simpl. destruct (decide (l0 ∈ lbls)); [|done]. simpl. f_equal. f_equal.
      rewrite map_map. apply map_ext. intros s. apply index_induction_var_idem.
    + rewrite get_set_ne by done.
      destruct (decide (lbl ∈ lbls)) as [Hin|Hnin].
      * rewrite decide_True; [done | by right].
      * rewrite decide_False; [done|]. rewrite not_elem_of_cons. tauto.
Qed.

Lemma rewrite_blocks_defined iterarg ivs lbls :
  forall bs bs', rewrite_blocks iterarg ivs bs lbls = Ok bs' ->
  forall lbl, lbl ∈ lbls -> is_Some (Dict.get bs lbl).
Proof.
  induction lbls as [|l0 lbls IH]; intros bs bs'; simpl.
  - intros _ lbl Hin. by apply elem_of_nil in Hin.
  - unfold block_at. destruct (Dict.get bs l0) as [b|] eqn:Hb; [|done]. simpl.
    intros Hr lbl Hin. destruct (decide (lbl = l0)) as [->|Hne]; [by rewrite Hb|].
    apply elem_of_cons in Hin as [?|Hin]; [done|].
    specialize (IH _ _ Hr lbl Hin). by rewrite get_set_ne in IH.
Qed.



(** A loop in the form the canonicaliser leaves: the header's one iternext is
    fed by a getiter on the result of a call of a global that is not the
    marker (for a canonicalised loop, the inlined [range]). *)
Definition range_driven (f : FunctionIR) (l : Loop) : Prop :=
  exists hdr v x d fn args gv name o,
    Dict.get (blocks f) (header l) = Some hdr
    /\ find_exprs "iternext" hdr = [iternext v]
    /\ get_definition f (Var v) = Ok (Expr (getiter x))
    /\ get_definition f (Var x) = Ok d
    /\ is_Expr_op "call" d = true
    /\ get_definition f d = Ok (Expr (call fn args))
    /\ get_definition f (Var fn) = Ok gv
    /\ get_definition f gv = Ok (Global name o)
    /\ o <> py_literal_unroll.

Lemma range_driven_rejected f l tm :
  typemap_truth tm = true -> range_driven f l -> assess_loop l f tm = Ok false.
Proof.
  intros Htm (hdr & v & x & d & fn & args & gv & name & o & Hh & Hf & Hphi & Hd
              & Hcall & Hc & Hgv & Hfunc & Ho).
  unfold assess_loop, block_at. rewrite Hh. simpl. rewrite Hf. simpl.
  rewrite Hphi. simpl. rewrite Htm. rewrite Hd. simpl. rewrite Hcall. simpl.
  rewrite Hc. simpl.
  destruct (bool_decide (length args = 1%nat)); [|done]. simpl.
  rewrite Hgv. simpl. rewrite Hfunc. simpl.
  rewrite bool_decide_eq_false_2; [done|]. by intros [= ->].
Qed.

Lemma canonicalise_nothing f c tm succs loops :
  typemap_truth tm = true ->
  Forall (fun p => range_driven f p.2) loops ->
  canonicalise loops tm succs false (f, c) = (Ok false, (f, c)).
Proof.
  intros Htm. induction 1 as [|[lbl l] loops Hl _ IH]; [done|].
  simpl. unfold mbind, T_bind, get_ir, liftT. simpl.
  rewrite (range_driven_rejected f l tm Htm Hl). exact IH.
Qed.


End canonicaliser_claims.

(** ** The canonicaliser claims at the concrete functions *)

Module CanonicaliserRuns.
Import IterLoopCanonicalization.

(** The loop of [sum_blocks] and of [unpack_blocks]. *)
Definition the_loop : Loop := mkLoop 10 [10; 20] [0] [30].

Definition sum_ir : FunctionIR := func_ir (state Examples.sum_typed).

Definition sum_succs : label -> list label := Reference.successors (blocks sum_ir).

(** The state after lines 1088-1124 of [transform] on [sum_blocks], and after
    the rewriting loop. *)
Definition sum_injected : FunctionIR * nat :=
  Eval vm_compute in
    (inject_range (H := Reference.collaborators) the_loop (sum_ir, 0%nat)).2.

Definition sum_rewritten : FunctionIR * nat :=
  Eval vm_compute in
    (transform_rewrite (H := Reference.collaborators) the_loop sum_succs
                       (sum_ir, 0%nat)).2.

Definition unpack_world : World :=
  Examples.world_of Examples.unpack_blocks (Some [("t", Examples.mixed)]).

Definition unpack_transformed : FunctionIR * nat :=
  Eval vm_compute in
    (transform (H := Reference.collaborators) the_loop
               (Reference.successors Examples.unpack_blocks)
               (func_ir (state unpack_world), 0%nat)).2.

End CanonicaliserRuns.

Lemma assess_loop_acceptance_witness :
  let l := CanonicaliserRuns.the_loop in
  IterLoopCanonicalization.assess_loop (H := Reference.collaborators)
    l (func_ir (state Examples.sum_untyped)) None = Ok true
  /\ IterLoopCanonicalization.assess_loop (H := Reference.collaborators)
       l (func_ir (state Examples.sum_typed)) (typemap (state Examples.sum_typed))
     = Ok true.
Proof.
  intros l. split.
  - destruct (assess_loop_acceptance (H := Reference.collaborators)
                l (func_ir (state Examples.sum_untyped)) None) as [Hno _].
    eapply (Hno eq_refl); vm_compute; reflexivity.
  - destruct (assess_loop_acceptance (H := Reference.collaborators)
                l (func_ir (state Examples.sum_typed))
                (typemap (state Examples.sum_typed))) as [_ Hyes].
    apply (Hyes eq_refl).
    do 10 eexists. repeat split; vm_compute; reflexivity.
Defined.





(** ** Fresh names are distinct *)

(** Whether a name holds a dot. *)
Fixpoint has_dot (s : string) : bool :=
  match s with
  | EmptyString => false
  | String c rest => bool_decide (c = "."%char) || has_dot rest
  end.

Lemma has_dot_app (a b : string) : has_dot (a ++ b) = has_dot a || has_dot b.
Proof. induction a as [|c a IH]; simpl; [done|]. by rewrite IH, orb_assoc. Qed.

Lemma pretty_N_go_no_dot (x : N) (s : string) :
  has_dot s = false -> has_dot (pretty_N_go x s) = false.
Proof.
  revert s. induction (N.lt_wf_0 x) as [x _ IH]; intros s Hs.
  destruct (decide (x = 0)%N) as [->|Hx]; [by rewrite pretty_N_go_0|].
  rewrite pretty_N_go_step by lia. apply IH.
  - apply N.div_lt; lia.
  - simpl. rewrite Hs, orb_false_r. unfold pretty_N_char.
    by repeat case_match.
Qed.

Lemma str_no_dot (n : nat) : has_dot (str n) = false.
Proof.
  unfold str, pretty, pretty_nat, pretty, pretty_N.
  case_decide; [done|]. by apply pretty_N_go_no_dot.
Qed.

Lemma dot_split (p1 p2 d1 d2 : string) :
  p1 ++ String "."%char d1 = p2 ++ String "."%char d2 ->
  has_dot d1 = false -> has_dot d2 = false -> p1 = p2 /\ d1 = d2.
Proof.
  revert p2. induction p1 as [|c p1 IH]; intros [|c2 p2]; simpl; intros Heq H1 H2.
  - by injection Heq as ->.
  - injection Heq as _ Heq. subst d1. rewrite has_dot_app in H1. simpl in H1.
    by rewrite orb_true_r in H1.
  - injection Heq as _ Heq. subst d2. rewrite has_dot_app in H2. simpl in H2.
    by rewrite orb_true_r in H2.
  - injection Heq as -> Heq. destruct (IH _ Heq H1 H2) as [-> ->]. done.
Qed.

Lemma mk_unique_var_inj (p q : string) (m n : nat) :
  (mk_unique_var p m).1 = (mk_unique_var q n).1 -> p = q /\ m = n.
Proof.
  unfold mk_unique_var. simpl. intros Heq.
  apply (dot_split p q (str m) (str n)) in Heq as [-> Heq];
    try apply str_no_dot.
  split; [done|]. unfold str in Heq. by apply (inj pretty) in Heq.
Qed.

Lemma mk_unique_var_has_dot (p : string) (n : nat) :
  has_dot (mk_unique_var p n).1 = true.
Proof.
  unfold mk_unique_var. simpl. rewrite has_dot_app. simpl. by rewrite orb_true_r.
Qed.

(** Names without a dot are none of the names [mk_unique_var] makes. *)
Lemma no_dot_fresh (names : list string) (p : string) (n : nat) :
  Forall (fun x => has_dot x = false) names -> (mk_unique_var p n).1 ∉ names.
Proof.
  intros Hall Hin. rewrite Forall_forall in Hall. specialize (Hall _ Hin).
  by rewrite mk_unique_var_has_dot in Hall.
Qed.

(** ** More on dictionaries, labels and lists *)

Section dict_more.
Context {K V : Type} `{EqDecision K}.
Implicit Types (d : list (K * V)) (k : K) (v : V).

Lemma elem_of_set d k v p : p ∈ Dict.set d k v -> p ∈ d \/ p = (k, v).
Proof.
  induction d as [|[k' v'] d IH]; simpl.
  - intros Hp. apply list_elem_of_singleton in Hp. by right.
  - destruct (decide (k' = k)) as [->|Hne].
    + intros [->|Hp]%elem_of_cons; [by right | left; by right].
    + intros [->|Hp]%elem_of_cons; [left; left|].
      destruct (IH Hp); [left; by right | by right].
Qed.

Lemma keys_set_mono d k v k' : k' ∈ Dict.keys d -> k' ∈ Dict.keys (Dict.set d k v).
Proof. rewrite keys_set. case_decide; [done | rewrite elem_of_app; tauto]. Qed.

Lemma NoDup_keys_set d k v : NoDup (Dict.keys d) -> NoDup (Dict.keys (Dict.set d k v)).
Proof.
  rewrite keys_set. case_decide; [done|]. intros Hnd. apply NoDup_app.
  split; [done|]. split; [|apply NoDup_singleton].
  intros x Hx Hx'%list_elem_of_singleton. by subst.
Qed.

Lemma elem_of_remove d k p : p ∈ Dict.remove d k -> p ∈ d.
Proof.
  induction d as [|[k' v'] d IH]; simpl; [done|].
  destruct (decide (k' = k)); [by right|].
  intros [->|Hp]%elem_of_cons; [left | right; auto].
Qed.

Lemma keys_remove_ne d k k' :
  k' ∈ Dict.keys d -> k' <> k -> k' ∈ Dict.keys (Dict.remove d k).
Proof.
  unfold Dict.keys. induction d as [|[k2 v2] d IH]; simpl; [done|].
  intros [->|Hin]%elem_of_cons Hne.
  - rewrite decide_False by done. left.
  - destruct (decide (k2 = k)); [done|]. right. auto.
Qed.

Lemma NoDup_keys_remove d k : NoDup (Dict.keys d) -> NoDup (Dict.keys (Dict.remove d k)).
Proof.
  unfold Dict.keys. induction d as [|[k2 v2] d IH]; simpl; [done|].
  intros [Hk Hnd]%NoDup_cons. destruct (decide (k2 = k)); [done|].
  simpl. apply NoDup_cons. split; [|auto].
  intros Hin. apply Hk. apply list_elem_of_fmap in Hin as (p & -> & Hp).
  apply list_elem_of_fmap. exists p. split; [done|]. by eapply elem_of_remove.
Qed.

Lemma get_remove_ne d k k' : k <> k' -> Dict.get (Dict.remove d k) k' = Dict.get d k'.
Proof.
  intros Hne. induction d as [|[k2 v2] d IH]; simpl; [done|].
  destruct (decide (k2 = k)) as [->|Hne2]; simpl.
  - by rewrite decide_False.
  - by rewrite IH.
Qed.

(** Storing a list of pairs one after the other. *)
Definition set_all (rest : list (K * V)) d : list (K * V) :=
  fold_left (fun sb kb => Dict.set sb kb.1 kb.2) rest d.

Lemma set_all_other rest : forall d k,
  k ∉ map fst rest -> Dict.get (set_all rest d) k = Dict.get d k.
Proof.
  induction rest as [|[k0 v0] rest IH]; intros d k Hk; simpl; [done|].
  simpl in Hk. apply not_elem_of_cons in Hk as [Hne Hk].
  unfold set_all in *. simpl. rewrite IH by done. by apply get_set_ne.
Qed.

Lemma set_all_stored rest : forall d k v,
  NoDup (map fst rest) -> (k, v) ∈ rest -> Dict.get (set_all rest d) k = Some v.
Proof.
  induction rest as [|[k0 v0] rest IH]; intros d k v Hnd Hin; simpl.
  - by apply elem_of_nil in Hin.
  - simpl in Hnd. apply NoDup_cons in Hnd as [Hk0 Hnd].
    apply elem_of_cons in Hin as [[= -> ->]|Hin].
    + pose proof (set_all_other rest (Dict.set d k0 v0) k0 Hk0) as Ho.
      unfold set_all in *. simpl. rewrite Ho. apply get_set_eq.
    + unfold set_all in *. simpl. by apply IH.
Qed.

Lemma set_all_elem rest : forall d p, p ∈ set_all rest d -> p ∈ d \/ p ∈ rest.
Proof.
  induction rest as [|[k0 v0] rest IH]; intros d p; simpl; [by left|].
  intros Hp. unfold set_all in *. simpl in Hp. apply IH in Hp as [Hp|Hp]; [|right; by right].
  apply elem_of_set in Hp as [Hp| ->]; [by left | right; left].
Qed.

Lemma set_all_keys rest : forall d k, k ∈ Dict.keys d -> k ∈ Dict.keys (set_all rest d).
Proof.
  induction rest as [|[k0 v0] rest IH]; intros d k Hk; simpl; [done|].
  unfold set_all in *. simpl. apply IH. by apply keys_set_mono.
Qed.

Lemma set_all_NoDup rest : forall d,
  NoDup (Dict.keys d) -> NoDup (Dict.keys (set_all rest d)).
Proof.
  induction rest as [|[k0 v0] rest IH]; intros d Hnd; simpl; [done|].
  unfold set_all in *. simpl. apply IH. by apply NoDup_keys_set.
Qed.

End dict_more.

Lemma fold_max_ge (l : list Z) : forall a,
  a <= fold_left Z.max l a /\ forall k, k ∈ l -> k <= fold_left Z.max l a.
Proof.
  induction l as [|x l IH]; intros a; simpl.
  - split; [lia|]. intros k Hk. by apply elem_of_nil in Hk.
  - destruct (IH (Z.max a x)) as [Ha Hl]. split; [lia|].
    intros k [->|Hk]%elem_of_cons; [lia | auto].
Qed.

Lemma max_label_ge (ks : list label) (m : label) :
  max_label ks = Ok m -> forall k, k ∈ ks -> k <= m.
Proof.
  destruct ks as [|k0 rest]; simpl; [done|]. intros [= <-] k.
  destruct (fold_max_ge rest k0) as [H0 Hl].
  intros [->|Hk]%elem_of_cons; auto.
Qed.

Lemma fold_min_in (l : list Z) : forall a, fold_left Z.min l a ∈ a :: l.
Proof.
  induction l as [|x l IH]; intros a; simpl; [left|].
  specialize (IH (Z.min a x)). apply elem_of_cons in IH as [Heq|Hin].
  - rewrite Heq. destruct (Z.min_spec a x) as [[_ ->]|[_ ->]]; [left | right; left].
  - right. by right.
Qed.

Lemma min_label_in (ks : list label) (m : label) : min_label ks = Ok m -> m ∈ ks.
Proof.
  destruct ks as [|k0 rest]; simpl; [done|]. intros [= <-]. apply fold_min_in.
Qed.

Lemma zip_fst {A B} (a : list A) (b : list B) :
  length a = length b -> map fst (MixedContainerUnroller.zip a b) = a.
Proof.
  revert b. induction a as [|x a IH]; intros [|y b]; simpl; try done.
  intros [= Hl]. by rewrite IH.
Qed.

Lemma zip_lookup_fst {A B} (a : list A) (b : list B) (i : nat) (x : A) (y : B) :
  MixedContainerUnroller.zip a b !! i = Some (x, y) -> a !! i = Some x.
Proof.
  revert b i. induction a as [|x0 a IH]; intros [|y0 b] [|i]; simpl; try done.
  - by intros [= -> _].
  - apply IH.
Qed.

Lemma get_shifted {V} (g : V -> V) (bs : list (label * V)) (offset l : label) :
  Dict.get (map (fun lb => (lb.1 + offset, g lb.2)) bs) (l + offset)
  = g <$> Dict.get bs l.
Proof.
  induction bs as [|[k v] bs IH]; simpl; [done|].
  destruct (decide (k = l)) as [->|Hne].
  - by rewrite decide_True.
  - rewrite decide_False by lia. exact IH.
Qed.

(** ** Renaming in the injected loop bodies *)

(** The variables a statement still names once a typed_getitem placeholder is
    replaced by a constant: of a placeholder only its target, of any other
    statement all of them. *)
Definition kept_stmt_vars (s : stmt) : list string :=
  match s with
  | Assign (Expr (typed_getitem _ _ _)) t => [t]
  | _ => stmt_vars s
  end.

Definition kept_vars (bs : list (label * Block)) : list string :=
  concat (map (fun lb => concat (map kept_stmt_vars (body lb.2))) bs).

(** The dictionary [fresh_names] builds from counter value [c] on. *)
Fixpoint named_from (names : list string) (c : nat) : list (string * string) :=
  match names with
  | [] => []
  | name :: rest => (name, (mk_unique_var name c).1) :: named_from rest (S c)
  end.

(** [x] is a name made by [mk_unique_var] at a counter value in [lo, hi). *)
Definition counter_in (lo hi : nat) (x : string) : Prop :=
  exists p n, x = (mk_unique_var p n).1 /\ (lo <= n < hi)%nat.

(** [x] is a branch constant made at a counter value in [lo, hi). *)
Definition const_in (lo hi : nat) (x : string) : Prop :=
  exists n, x = (mk_unique_var "branch_const" n).1 /\ (lo <= n < hi)%nat.

Section renaming_facts.
Context `{Collaborators}.
Import MixedContainerUnroller.

Lemma elem_of_dedup (seen l : list string) (x : string) :
  x ∈ dedup seen l <-> x ∈ l /\ x ∉ seen.
Proof.
  revert seen. induction l as [|y l IH]; intros seen; simpl.
  - split; [intros Hin; by apply elem_of_nil in Hin | intros [Hin _]; by apply elem_of_nil in Hin].
  - destruct (decide (y ∈ seen)) as [Hy|Hy].
    + rewrite IH, elem_of_cons. split; [tauto|].
      intros [[->|Hin] Hn]; [done | tauto].
    + rewrite elem_of_cons, IH, not_elem_of_cons, elem_of_cons.
      destruct (decide (x = y)) as [->|Hne]; tauto.
Qed.

Lemma NoDup_dedup (seen l : list string) : NoDup (dedup seen l).
Proof.
  revert seen. induction l as [|y l IH]; intros seen; simpl; [constructor|].
  destruct (decide (y ∈ seen)); [apply IH|].
  constructor; [|apply IH]. rewrite elem_of_dedup. intros [_ Hn]. apply Hn. left.
Qed.

Lemma elem_of_var_table (bs : list (label * Block)) (x : string) :
  x ∈ get_name_var_table bs <-> x ∈ blocks_vars bs.
Proof.
  unfold get_name_var_table. rewrite elem_of_dedup. split; [tauto|].
  intros Hin. split; [done | apply not_elem_of_nil].
Qed.

(** *** The dictionary of fresh names *)

Lemma fresh_names_spec (names : list string) (c : nat) :
  fresh_names names c = (Ok (named_from names c), (c + length names)%nat).
Proof.
  revert c. induction names as [|name rest IH]; intros c; simpl.
  - unfold mret, M_ret. do 2 f_equal. lia.
  - unfold mbind, M_bind, unique_var, draw. simpl. rewrite IH. simpl.
    unfold mret, M_ret. do 2 f_equal. lia.
Qed.

Lemma named_from_keys (names : list string) (c : nat) :
  map fst (named_from names c) = names.
Proof. revert c. induction names as [|n r IH]; intros c; simpl; [done|]. by rewrite IH. Qed.

Lemma named_from_length (names : list string) (c : nat) :
  length (named_from names c) = length names.
Proof. by rewrite <- (named_from_keys names c) at 2; rewrite length_map. Qed.

Lemma named_from_values (names : list string) (c : nat) (x : string) :
  x ∈ map snd (named_from names c) ->
  exists p n, p ∈ names /\ x = (mk_unique_var p n).1
              /\ (c <= n < c + length names)%nat.
Proof.
  revert c. induction names as [|name rest IH]; intros c; simpl.
  - intros Hin. by apply elem_of_nil in Hin.
  - intros [->|Hin]%elem_of_cons.
    + exists name, c. split; [left|]. split; [done | lia].
    + destruct (IH _ Hin) as (p & n & Hp & -> & Hn).
      exists p, n. split; [by right|]. split; [done | lia].
Qed.

Lemma named_from_NoDup (names : list string) (c : nat) :
  NoDup (map snd (named_from names c)).
Proof.
  revert c. induction names as [|name rest IH]; intros c; simpl; constructor.
  - intros Hin. apply named_from_values in Hin as (p & n & _ & Heq & Hn).
    apply mk_unique_var_inj in Heq as [_ ->]. lia.
  - apply IH.
Qed.

Lemma named_from_lookup (names : list string) (c : nat) (v : string) :
  v ∈ names -> exists x, Dict.get (named_from names c) v = Some x
                         /\ x ∈ map snd (named_from names c).
Proof.
  revert c. induction names as [|name rest IH]; intros c; simpl.
  - intros Hin. by apply elem_of_nil in Hin.
  - intros Hin. destruct (decide (name = v)) as [->|Hne].
    + eexists. split; [done | left].
    + apply elem_of_cons in Hin as [?|Hin]; [congruence|].
      destruct (IH (S c) Hin) as (x & Hx & Hx'). exists x. split; [done | by right].
Qed.

Lemma rename_not_key (d : list (string * string)) (v : string) :
  v ∉ map fst d -> rename d v = v.
Proof.
  intros Hn. unfold rename. by rewrite (proj2 (get_None d v) Hn).
Qed.


(** *** Fixing the typed_getitem placeholders *)

(** What one pass of the fixing does between counter values [c] and [c']: the
    names it adds to the do-not-rename list are branch constants made in
    between, the statements it leaves name nothing but old names and those
    constants, and they still name every kept variable. *)
Definition fix_ok (c c' : nat) (D D' vars_in kept_in vars_out : list string) : Prop :=
  (c <= c')%nat
  /\ exists consts, D' = (D ++ consts)%list
       /\ Forall (const_in c c') consts
       /\ (forall x, x ∈ vars_out -> x ∈ vars_in \/ x ∈ consts)
       /\ (forall x, x ∈ kept_in -> x ∈ vars_out).

Lemma const_in_mono (a b a' b' : nat) (x : string) :
  const_in a b x -> (a' <= a)%nat -> (b <= b')%nat -> const_in a' b' x.
Proof. intros (n & -> & Hn) ? ?. exists n. split; [done | lia]. Qed.

Lemma fix_ok_refl (c : nat) (D vs : list string) : fix_ok c c D D vs vs vs.
Proof.
  split; [lia|]. exists []. rewrite app_nil_r. repeat split; auto.
Qed.

Lemma fix_ok_trans c c1 c2 D D1 D2 vi1 ki1 vo1 vi2 ki2 vo2 :
  fix_ok c c1 D D1 vi1 ki1 vo1 -> fix_ok c1 c2 D1 D2 vi2 ki2 vo2 ->
  fix_ok c c2 D D2 (vi1 ++ vi2) (ki1 ++ ki2) (vo1 ++ vo2).
Proof.
  intros (Hc1 & k1 & -> & Hk1 & Hv1 & Hkept1) (Hc2 & k2 & -> & Hk2 & Hv2 & Hkept2).
  split; [lia|]. exists (k1 ++ k2)%list. rewrite app_assoc. split; [done|].
  split; [|split].
  - apply Forall_app. split; eapply Forall_impl; eauto; intros x Hx;
      eapply const_in_mono; eauto; lia.
  - intros x. rewrite !elem_of_app. intros [Hx|Hx]; [apply Hv1 in Hx | apply Hv2 in Hx]; tauto.
  - intros x. rewrite !elem_of_app. intros [Hx|Hx]; [apply Hkept1 in Hx | apply Hkept2 in Hx]; tauto.
Qed.

Lemma placeholder_or_not (s : stmt) :
  (exists v dt i t, s = Assign (Expr (typed_getitem v dt i)) t)
  \/ (forall ty D c, fix_typed_getitem ty D s c = (Ok ([s], D), c))
      /\ kept_stmt_vars s = stmt_vars s.
Proof.
  destruct s as [x t| | | | |]; try (right; split; done).
  destruct x as [| | | |e|]; try (right; split; done).
  destruct e; try (right; split; done).
  left. by eexists _, _, _, _.
Qed.

Lemma fix_typed_getitem_ok ty D s c new D' c' :
  fix_typed_getitem ty D s c = (Ok (new, D'), c') ->
  fix_ok c c' D D' (stmt_vars s) (kept_stmt_vars s) (concat (map stmt_vars new)).
Proof.
  destruct (placeholder_or_not s) as [(v & dt & i & t & ->) | [Hfix Hkept]].
  - simpl. destruct ty as [lv| | | |];
      try (intros [= <- <- <-]; simpl; split; [lia|]; exists [];
           rewrite app_nil_r; repeat split; auto;
           intros x Hx; simpl; apply elem_of_cons in Hx as [->|Hx]; [left|];
           by apply elem_of_nil in Hx).
    unfold mbind, M_bind, unique_var, draw, mret, M_ret. simpl.
    intros [= <- <- <-]. split; [lia|].
    exists [(mk_unique_var "branch_const" c).1]. split; [done|]. split; [|split].
    + constructor; [|constructor]. exists c. split; [done | lia].
    + intros x. simpl. rewrite !elem_of_cons.
      intros [->|[->|[->|Hx]]];
        [right; by left | left; by left | right; by left
         | by apply elem_of_nil in Hx].
    + intros x [->|Hx]%elem_of_cons; [|by apply elem_of_nil in Hx].
      simpl. right. left.
  - rewrite Hfix, Hkept. intros [= <- <- <-]. simpl. rewrite app_nil_r.
    apply fix_ok_refl.
Qed.

Lemma fix_body_ok ty stmts : forall D c new_body D' c',
  fix_body ty D stmts c = (Ok (new_body, D'), c') ->
  fix_ok c c' D D' (concat (map stmt_vars stmts))
         (concat (map kept_stmt_vars stmts)) (concat (map stmt_vars new_body)).
Proof.
  induction stmts as [|s rest IH]; intros D c new_body D' c'; simpl.
  - intros [= <- <- <-]. apply fix_ok_refl.
  - unfold mbind, M_bind.
    destruct (fix_typed_getitem ty D s c) as [[[new D1]|e] c1] eqn:Hs; [|done].
    destruct (fix_body ty D1 rest c1) as [[[nb D2]|e] c2] eqn:Hr; [|done].
    intros [= <- <- <-]. rewrite map_app, concat_app.
    eapply fix_ok_trans; [by eapply fix_typed_getitem_ok | by eapply IH].
Qed.

Lemma fix_blocks_ok ty bs : forall D c bs' D' c',
  fix_blocks ty D bs c = (Ok (bs', D'), c') ->
  fix_ok c c' D D' (blocks_vars bs) (kept_vars bs) (blocks_vars bs').
Proof.
  induction bs as [|[lbl blk] rest IH]; intros D c bs' D' c'; simpl.
  - intros [= <- <- <-]. apply fix_ok_refl.
  - unfold mbind, M_bind.
    destruct (fix_body ty D (body blk) c) as [[[nb D1]|e] c1] eqn:Hs; [|done].
    destruct (fix_blocks ty D1 rest c1) as [[[rest' D2]|e] c2] eqn:Hr; [|done].
    intros [= <- <- <-]. unfold blocks_vars, kept_vars. simpl.
    eapply fix_ok_trans; [by eapply fix_body_ok | by eapply IH].
Qed.


(** *** Relabelling keeps the variables *)

Lemma stmt_vars_offset ignore offset s :
  stmt_vars (offset_terminator ignore offset s) = stmt_vars s
  /\ kept_stmt_vars (offset_terminator ignore offset s) = kept_stmt_vars s.
Proof.
  destruct s as [x t|t|c t f| | |]; try done.
  simpl. by destruct (decide (t ∈ ignore)).
Qed.

Lemma block_vars_offset ignore offset b :
  block_vars (offset_block ignore offset b) = block_vars b
  /\ concat (map kept_stmt_vars (body (offset_block ignore offset b)))
     = concat (map kept_stmt_vars (body b)).
Proof.
  unfold offset_block, block_vars.
  destruct (rev (body b)) as [|term front] eqn:Hrev; [done|].
  apply (f_equal (@rev _)) in Hrev. rewrite rev_involutive in Hrev. simpl in Hrev.
  rewrite Hrev. simpl. rewrite !map_app, !concat_app. simpl.
  destruct (stmt_vars_offset ignore offset term) as [-> ->]. done.
Qed.

Lemma fold_set_fresh {V} (g : label * V -> label * V) (bs acc : list (label * V)) :
  NoDup (map (fun lb => (g lb).1) bs) ->
  (forall lb, lb ∈ bs -> (g lb).1 ∉ Dict.keys acc) ->
  fold_left (fun nb lb => Dict.set nb (g lb).1 (g lb).2) bs acc
  = (acc ++ map g bs)%list.
Proof.
  revert acc. induction bs as [|lb bs IH]; intros acc Hnd Hfresh; simpl.
  - by rewrite app_nil_r.
  - apply NoDup_cons in Hnd as [Hlb Hnd].
    rewrite set_absent by (apply Hfresh; left).
    rewrite IH; [|done|].
    + rewrite <- app_assoc. simpl. by destruct (g lb).
    + intros lb' Hin. unfold Dict.keys. rewrite map_app, elem_of_app. simpl.
      intros [Hk|Hk].
      * by apply (Hfresh lb'); [right|].
      * apply list_elem_of_singleton in Hk. apply Hlb. rewrite <- Hk.
        apply list_elem_of_fmap. by exists lb'.
Qed.

Lemma add_offset_spec (bs : list (label * Block)) (offset : Z) (ignore : list label) :
  NoDup (Dict.keys bs) ->
  add_offset_to_labels_w_ignore bs offset ignore
  = map (fun lb => (lb.1 + offset, offset_block ignore offset lb.2)) bs.
Proof.
  intros Hnd. unfold add_offset_to_labels_w_ignore.
  pose proof (fold_set_fresh
                (fun lb => (lb.1 + offset, offset_block ignore offset lb.2)) bs [])
    as Hf.
  simpl in Hf. apply Hf.
  - unfold Dict.keys in Hnd.
    rewrite <- (map_map fst (fun l => l + offset)).
    apply NoDup_fmap; [|done]. intros x y. lia.
  - intros lb _. apply not_elem_of_nil.
Qed.

Lemma add_offset_vars (bs : list (label * Block)) (offset : Z) (ignore : list label) :
  NoDup (Dict.keys bs) ->
  blocks_vars (add_offset_to_labels_w_ignore bs offset ignore) = blocks_vars bs
  /\ kept_vars (add_offset_to_labels_w_ignore bs offset ignore) = kept_vars bs.
Proof.
  intros Hnd. rewrite add_offset_spec by done.
  unfold blocks_vars, kept_vars. rewrite !map_map. simpl.
  split; f_equal; apply map_ext; intros lb;
    by destruct (block_vars_offset ignore offset lb.2).
Qed.

(** *** Renaming *)

Lemma stmt_vars_rename d s : stmt_vars (rename_stmt d s) = map (rename d) (stmt_vars s).
Proof.
  destruct s as [x t| | | | |]; try done. simpl. f_equal.
  destruct x as [| | | |e|]; try done. by destruct e.
Qed.

Lemma blocks_vars_rename d bs :
  blocks_vars (replace_var_names bs d) = map (rename d) (blocks_vars bs).
Proof.
  unfold blocks_vars, replace_var_names, block_vars. rewrite map_map. simpl.
  induction bs as [|lb bs IH]; simpl; [done|].
  rewrite IH, map_app. f_equal.
  induction (body lb.2) as [|s ss IHs]; simpl; [done|].
  by rewrite IHs, map_app, stmt_vars_rename.
Qed.

(** *** One branch *)

Lemma inject_branch_props body ignore_set sb D lbl ty c sb' D' copy c' :
  NoDup (Dict.keys body) ->
  inject_branch body ignore_set sb D lbl ty c = (Ok (sb', D', copy), c') ->
  exists fixed c1,
    fix_ok c c1 D D' (blocks_vars body) (kept_vars body) (blocks_vars fixed)
    /\ new_var_dict copy
       = named_from (filter (fun n => n ∉ D') (get_name_var_table fixed)) c1
    /\ copy_blocks copy = replace_var_names fixed (new_var_dict copy)
    /\ c' = (c1 + length (new_var_dict copy))%nat.
Proof.
  intros Hnd. unfold inject_branch.
  unfold mbind at 1, M_bind, lift.
  destruct (max_label (Dict.keys sb)) as [ml|e]; [|done].
  unfold mbind at 1, M_bind.
  destruct (min_label _) as [start|e]; [|done].
  unfold mbind at 1, M_bind.
  destruct (fix_blocks ty D _ c) as [[[fixed D1]|e] c1] eqn:Hfix; [|done].
  unfold mbind at 1, M_bind. rewrite fresh_names_spec.
  unfold mbind at 1, M_bind.
  destruct (block_at _ start) as [sblk|e]; [|done].
  unfold mbind at 1, M_bind.
  destruct (list_remove start _) as [rk|e]; [|done].
  unfold mbind at 1, M_bind.
  destruct (mapM _ rk) as [rest|e]; [|done].
  unfold mret, M_ret. intros [= <- <- <- <-].
  exists fixed, c1. simpl.
  apply fix_blocks_ok in Hfix.
  destruct (add_offset_vars body (ml + 1) ignore_set Hnd) as [Hv Hk].
  rewrite Hv, Hk in Hfix.
  split; [done|]. split; [done|]. split; [done|].
  by rewrite named_from_length.
Qed.


(** *** All branches *)

(** What the claim says of one copy: its dictionary renames exactly the
    variables of [V] outside [D], to distinct names made at counter values in
    [lo, hi), none of which is in [V] or [D]; the variables of [D] keep their
    names; the copy names the new name of every renamed variable, and nothing
    but new names and names of the final do-not-rename list. *)
Definition renamed_apart (V D D_final : list string) (lo hi : nat)
    (copy : branch_copy) : Prop :=
  map fst (new_var_dict copy) ≡ₚ filter (fun v => v ∉ D) V
  /\ NoDup (map snd (new_var_dict copy))
  /\ Forall (counter_in lo hi) (map snd (new_var_dict copy))
  /\ (forall x, x ∈ map snd (new_var_dict copy) -> (x ∉ V) /\ (x ∉ D))
  /\ (forall d, d ∈ D -> rename (new_var_dict copy) d = d)
  /\ (forall v, v ∈ V -> v ∉ D ->
        rename (new_var_dict copy) v ∈ map snd (new_var_dict copy)
        /\ rename (new_var_dict copy) v ∈ blocks_vars (copy_blocks copy))
  /\ (forall x, x ∈ blocks_vars (copy_blocks copy) ->
        x ∈ map snd (new_var_dict copy) \/ x ∈ D_final).

Lemma renamed_apart_mono V D Df Df' lo hi lo' hi' copy :
  renamed_apart V D Df lo hi copy ->
  (lo' <= lo)%nat -> (hi <= hi')%nat -> (forall x, x ∈ Df -> x ∈ Df') ->
  renamed_apart V D Df' lo' hi' copy.
Proof.
  intros (H1 & H2 & H3 & H4 & H5 & H6 & H7) Hlo Hhi Hsub.
  repeat split; try done.
  - eapply Forall_impl; [exact H3|]. intros x (p & n & -> & Hn).
    exists p, n. split; [done | lia].
  - by apply H4.
  - by apply H4.
  - by apply H6.
  - by apply H6.
  - intros x Hx. destruct (H7 x Hx); [by left | right; auto].
Qed.

Section branches.
Variables (body : list (label * Block)) (ignore_set : list label)
          (D : list string) (c0 : nat).
Hypothesis body_keys : NoDup (Dict.keys body).
Hypothesis counter_ahead : forall p n,
  (p ∈ get_name_var_table body) \/ p = "branch_const" -> (c0 <= n)%nat ->
  ((mk_unique_var p n).1 ∉ get_name_var_table body)
  /\ ((mk_unique_var p n).1 ∉ D).
Hypothesis operands_kept : forall v,
  v ∈ get_name_var_table body -> v ∉ D -> v ∈ kept_vars body.

Lemma one_branch_renamed sb Dk lbl ty ck sb' D1 copy c' pre :
  (c0 <= ck)%nat -> Dk = (D ++ pre)%list -> Forall (const_in c0 ck) pre ->
  inject_branch body ignore_set sb Dk lbl ty ck = (Ok (sb', D1, copy), c') ->
  (ck <= c')%nat
  /\ (exists post, D1 = (Dk ++ post)%list /\ Forall (const_in c0 c') post)
  /\ renamed_apart (get_name_var_table body) D D1 ck c' copy.
Proof.
  intros Hck -> Hpre Hinj.
  destruct (inject_branch_props _ _ _ _ _ _ _ _ _ _ _ body_keys Hinj)
    as (fixed & c1 & (Hc1 & consts & -> & Hconsts & Hvars & Hkept) & Hd & Hb & ->).
  set (V := get_name_var_table body) in *.
  set (D1 := ((D ++ pre) ++ consts)%list) in *.
  set (K := filter (fun n => n ∉ D1) (get_name_var_table fixed)) in *.
  assert (HD1 : forall x, x ∈ D1 -> (x ∈ D) \/ const_in c0 c1 x).
  { intros x. unfold D1. rewrite !elem_of_app. intros [[Hx|Hx]|Hx]; [by left|..].
    - right. rewrite Forall_forall in Hpre.
      eapply const_in_mono; [by apply Hpre | lia | lia].
    - right. rewrite Forall_forall in Hconsts.
      eapply const_in_mono; [by apply Hconsts | lia | lia]. }
  assert (HK : forall x, x ∈ K <-> x ∈ V /\ x ∉ D).
  { intros x. unfold K. rewrite list_elem_of_filter, elem_of_var_table. split.
    - intros [Hn Hx]. split.
      + unfold V. rewrite elem_of_var_table.
        destruct (Hvars x Hx) as [?|Hc]; [done|]. exfalso. apply Hn.
        unfold D1. rewrite elem_of_app. by right.
      + intros HxD. apply Hn. unfold D1. rewrite !elem_of_app. tauto.
    - intros [Hx Hn]. split.
      + intros HxD. destruct (HD1 x HxD) as [?|(n & -> & Hn')]; [done|].
        destruct (counter_ahead "branch_const" n) as [Hf _]; [by right | lia|].
        by apply Hf.
      + by apply Hkept, operands_kept. }
  assert (Hkeys : map fst (new_var_dict copy) = K)
    by (rewrite Hd; apply named_from_keys).
  assert (Hlen : length (new_var_dict copy) = length K)
    by (rewrite Hd; apply named_from_length).
  assert (Hval : forall x, x ∈ map snd (new_var_dict copy) ->
            exists p n, p ∈ K /\ x = (mk_unique_var p n).1
                        /\ (c1 <= n < c1 + length K)%nat).
  { rewrite Hd. apply named_from_values. }
  split; [lia|]. split.
  { exists consts. split; [done|]. eapply Forall_impl; [exact Hconsts|].
    intros x Hx. eapply const_in_mono; [exact Hx | lia | lia]. }
  repeat split.
  - rewrite Hkeys. apply NoDup_Permutation.
    + apply NoDup_filter, NoDup_dedup.
    + apply NoDup_filter, NoDup_dedup.
    + intros x. rewrite HK, list_elem_of_filter. tauto.
  - rewrite Hd. apply named_from_NoDup.
  - apply Forall_forall. intros x Hx.
    destruct (Hval x Hx) as (p & n & _ & -> & Hn). exists p, n.
    split; [done | lia].
  - destruct (Hval x H0) as (p & n & Hp & -> & Hn).
    apply HK in Hp as [Hp _].
    destruct (counter_ahead p n) as [Hf _]; [by left | lia | done].
  - destruct (Hval x H0) as (p & n & Hp & -> & Hn).
    apply HK in Hp as [Hp _].
    destruct (counter_ahead p n) as [_ Hf]; [by left | lia | done].
  - intros d Hd'. apply rename_not_key. rewrite Hkeys, HK. tauto.
  - assert (Hv : v ∈ K) by (by apply HK).
    rewrite Hd. destruct (named_from_lookup K c1 v Hv) as (x & Hx & Hx').
    unfold rename. by rewrite Hx.
  - rewrite Hb, blocks_vars_rename. apply list_elem_of_fmap. exists v.
    split; [done|]. by apply Hkept, operands_kept.
  - intros x. rewrite Hb, blocks_vars_rename.
    intros (y & -> & Hy)%list_elem_of_fmap.
    destruct (decide (y ∈ K)) as [HyK|HyK].
    + left. rewrite Hd. destruct (named_from_lookup K c1 y HyK) as (x & Hx & Hx').
      unfold rename. by rewrite Hx.
    + right. rewrite rename_not_key by (by rewrite Hkeys).
      destruct (decide (y ∈ D1)) as [?|HyD]; [done|]. exfalso. apply HyK.
      unfold K. rewrite list_elem_of_filter, elem_of_var_table. done.
Qed.

Lemma all_branches_renamed branches : forall sb Dk ck sb' D' copies c' pre,
  (c0 <= ck)%nat -> Dk = (D ++ pre)%list -> Forall (const_in c0 ck) pre ->
  inject_branches body ignore_set sb Dk branches ck = (Ok (sb', D', copies), c') ->
  (ck <= c')%nat
  /\ (exists post, D' = (Dk ++ post)%list /\ Forall (const_in c0 c') post)
  /\ length copies = length branches
  /\ Forall (renamed_apart (get_name_var_table body) D D' ck c') copies
  /\ (forall i j ci cj, (i < j)%nat ->
        copies !! i = Some ci -> copies !! j = Some cj ->
        forall x, x ∈ map snd (new_var_dict ci) -> x ∉ map snd (new_var_dict cj)).
Proof.
  induction branches as [|[lbl ty] rest IH];
    intros sb Dk ck sb' D' copies c' pre Hck HDk Hpre; simpl.
  - unfold mret, M_ret. intros [= <- <- <- <-].
    split; [lia|]. split; [exists []; by rewrite app_nil_r|].
    split; [done|]. split; [constructor|]. intros i j ci cj _ Hi. done.
  - unfold mbind at 1, M_bind.
    destruct (inject_branch _ _ sb Dk lbl ty ck) as [[[[sb1 D1] copy]|e] c1] eqn:Hb;
      [|done].
    unfold mbind at 1, M_bind.
    destruct (inject_branches _ _ sb1 D1 rest c1)
      as [[[[sb2 D2] copies']|e] c2] eqn:Hr; [|done].
    unfold mret, M_ret. intros [= <- <- <- <-].
    destruct (one_branch_renamed _ _ _ _ _ _ _ _ _ _ Hck HDk Hpre Hb)
      as (Hc1 & (post1 & HD1 & Hpost1) & Hcopy).
    assert (Hpre1 : Forall (const_in c0 c1) (pre ++ post1)).
    { apply Forall_app. split; [|done]. eapply Forall_impl; [exact Hpre|].
      intros x Hx. eapply const_in_mono; [exact Hx | lia | lia]. }
    assert (HD1' : D1 = (D ++ (pre ++ post1))%list)
      by (rewrite HD1, HDk; by rewrite app_assoc).
    destruct (IH _ _ _ _ _ _ _ _ (Nat.le_trans _ _ _ Hck Hc1) HD1' Hpre1 Hr)
      as (Hc2 & (post2 & HD2 & Hpost2) & Hlen & Hall & Hpair).
    split; [lia|]. split.
    { exists (post1 ++ post2)%list. split.
      - rewrite HD2, HD1. by rewrite app_assoc.
      - apply Forall_app. split; [|done]. eapply Forall_impl; [exact Hpost1|].
        intros x Hx. eapply const_in_mono; [exact Hx | lia | lia]. }
    split; [simpl; by rewrite Hlen|]. split.
    { constructor.
      - eapply renamed_apart_mono; [exact Hcopy | lia | lia |].
        intros x. rewrite HD2, elem_of_app. tauto.
      - eapply Forall_impl; [exact Hall|]. intros cp Hcp.
        eapply renamed_apart_mono; [exact Hcp | lia | lia | done]. }
    intros [|i] [|j] ci cj Hij Hi Hj; try lia; simpl in Hi, Hj.
    + injection Hi as <-. intros x Hx Hx'.
      destruct Hcopy as (_ & _ & Hwin & _). rewrite Forall_forall in Hwin.
      destruct (Hwin x Hx) as (p & n & -> & Hn).
      rewrite Forall_forall in Hall.
      destruct (Hall cj) as (_ & _ & Hwin' & _); [by eapply list_elem_of_lookup_2|].
      rewrite Forall_forall in Hwin'.
      destruct (Hwin' _ Hx') as (q & m & Heq & Hm).
      apply mk_unique_var_inj in Heq as [_ ->]. lia.
    + apply (Hpair i j ci cj); [lia | done | done].
Qed.

End branches.


Lemma zip_length {A B} (a : list A) (b : list B) :
  length a = length b -> length (zip a b) = length b.
Proof.
  revert b. induction a as [|x a IH]; intros [|y b]; simpl; try done.
  intros [= Hl]. by rewrite IH.
Qed.

(** *** Where the copies go *)

Lemma fix_body_total_keys ty bs : forall D c bs' D' c',
  fix_blocks ty D bs c = (Ok (bs', D'), c') -> map fst bs' = map fst bs.
Proof.
  induction bs as [|[lbl blk] rest IH]; intros D c bs' D' c'; simpl.
  - by intros [= <- <- <-].
  - unfold mbind, M_bind.
    destruct (fix_body ty D (body blk) c) as [[[nb D1]|e] c1]; [|done].
    destruct (fix_blocks ty D1 rest c1) as [[[rest' D2]|e] c2] eqn:Hr; [|done].
    intros [= <- <- <-]. simpl. f_equal. by eapply IH.
Qed.

Lemma list_remove_spec (x : label) (l : list label) : forall r,
  list_remove x l = Ok r -> NoDup l ->
  NoDup r /\ forall y, y ∈ r <-> y ∈ l /\ y <> x.
Proof.
  induction l as [|y0 l IH]; intros r; simpl; [done|].
  destruct (decide (y0 = x)) as [->|Hne].
  - intros [= <-] [Hx Hnd]%NoDup_cons. split; [done|].
    intros y. rewrite elem_of_cons. split; [|tauto].
    intros Hy. split; [by right|]. by intros ->.
  - destruct (list_remove x l) as [r'|e]; [|done]. simpl.
    intros [= <-] [Hy0 Hnd]%NoDup_cons.
    destruct (IH r' eq_refl Hnd) as [Hnd' Hr'].
    split.
    + apply NoDup_cons. split; [|done]. rewrite Hr'. tauto.
    + intros y. rewrite !elem_of_cons, Hr'. split; [|tauto].
      intros [->|[? ?]]; tauto.
Qed.

Lemma mapM_block_at (bs : list (label * Block)) (ks : list label) : forall rest,
  mapM (fun k => b ← block_at bs k; Ok (k, b)) ks = Ok rest ->
  map fst rest = ks /\ forall k b, (k, b) ∈ rest -> Dict.get bs k = Some b.
Proof.
  induction ks as [|k0 ks IH]; intros rest; simpl.
  - intros [= <-]. split; [done|]. intros k b Hin. by apply elem_of_nil in Hin.
  - unfold block_at. destruct (Dict.get bs k0) as [b0|] eqn:Hb0; [|done]. simpl.
    destruct (mapM _ ks) as [rest'|e]; [|done]. simpl.
    intros [= <-]. destruct (IH rest' eq_refl) as [Hk Hr]. simpl. split; [by rewrite Hk|].
    intros k b [[= -> ->]|Hin]%elem_of_cons; auto.
Qed.

(** Where the blocks of one copy sit in the switch blocks. *)
Definition placed (sb : list (label * Block)) (lbl : label) (copy : branch_copy) : Prop :=
  exists start_lbl start,
    min_label (Dict.keys (copy_blocks copy)) = Ok start_lbl
    /\ Dict.get (copy_blocks copy) start_lbl = Some start
    /\ Dict.get sb lbl = Some start
    /\ forall k b, (k, b) ∈ copy_blocks copy -> k <> start_lbl ->
         Dict.get sb k = Some b.

Lemma inject_branch_places body ig sb D lbl ty c sb' D' copy c' :
  NoDup (Dict.keys body) -> Forall (fun k => 0 <= k) (Dict.keys body) ->
  lbl ∈ Dict.keys sb ->
  inject_branch body ig sb D lbl ty c = (Ok (sb', D', copy), c') ->
  exists m,
    max_label (Dict.keys sb) = Ok m
    /\ Dict.keys (copy_blocks copy) = map (fun k => k + (m + 1)) (Dict.keys body)
    /\ placed sb' lbl copy
    /\ (forall k, k <> lbl -> k <= m -> Dict.get sb' k = Dict.get sb k)
    /\ (forall p, p ∈ sb' -> p ∈ sb \/ p.2 ∈ map snd (copy_blocks copy))
    /\ (forall k, k ∈ Dict.keys sb -> k ∈ Dict.keys sb')
    /\ (NoDup (Dict.keys sb) -> NoDup (Dict.keys sb')).
Proof.
  intros Hnd Hpos Hlbl. unfold inject_branch.
  unfold mbind at 1, M_bind, lift.
  destruct (max_label (Dict.keys sb)) as [ml|e] eqn:Hml; [|done].
  unfold mbind at 1, M_bind.
  destruct (min_label _) as [start_lbl|e] eqn:Hmin; [|done].
  unfold mbind at 1, M_bind.
  destruct (fix_blocks ty D _ c) as [[[fixed D1]|e] c1] eqn:Hfix; [|done].
  unfold mbind at 1, M_bind. rewrite fresh_names_spec.
  unfold mbind at 1, M_bind.
  set (dict := named_from _ c1).
  set (renamed := replace_var_names fixed dict).
  destruct (block_at renamed start_lbl) as [start|e] eqn:Hstart; [|done].
  unfold mbind at 1, M_bind.
  destruct (list_remove start_lbl (Dict.keys renamed)) as [rk|e] eqn:Hrk; [|done].
  unfold mbind at 1, M_bind.
  destruct (mapM _ rk) as [rest|e] eqn:Hrest; [|done].
  unfold mret, M_ret. intros [= <- <- <- <-]. simpl.
  assert (Hkeys : Dict.keys renamed = map (fun k => k + (ml + 1)) (Dict.keys body)).
  { unfold renamed, replace_var_names, Dict.keys. rewrite map_map. simpl.
    change (map (fun x : label * Block => x.1) fixed) with (map fst fixed).
    rewrite (fix_body_total_keys _ _ _ _ _ _ _ Hfix).
    rewrite add_offset_spec by done. by rewrite !map_map. }
  assert (Hnd_r : NoDup (Dict.keys renamed)).
  { rewrite Hkeys. apply NoDup_fmap; [|done]. intros x y. lia. }
  assert (Hhigh : forall k, k ∈ Dict.keys renamed -> ml < k).
  { intros k. rewrite Hkeys. intros (k0 & -> & Hk0)%list_elem_of_fmap.
    rewrite Forall_forall in Hpos. specialize (Hpos _ Hk0). lia. }
  destruct (list_remove_spec _ _ _ Hrk Hnd_r) as [Hnd_rk Hin_rk].
  destruct (mapM_block_at _ _ _ Hrest) as [Hfst Hget].
  fold (set_all rest (Dict.set sb lbl start)).
  assert (Hlow : forall k, k <= ml -> k ∉ map fst rest).
  { intros k Hk Hin. rewrite Hfst in Hin. apply Hin_rk in Hin as [Hin _].
    apply Hhigh in Hin. lia. }
  assert (Hmin' : min_label (Dict.keys renamed) = Ok start_lbl).
  { rewrite Hkeys. rewrite <- Hmin. f_equal.
    rewrite add_offset_spec by done. unfold Dict.keys. by rewrite !map_map. }
  exists ml. split; [done|]. split; [done|]. split; [|split; [|split; [|split]]].
  - exists start_lbl, start. split; [done|]. split.
    { simpl. unfold block_at in Hstart.
      destruct (Dict.get renamed start_lbl) as [b|]; [|done].
      simpl in Hstart. congruence. }
    split.
    + rewrite set_all_other by (apply Hlow; by eapply max_label_ge).
      apply get_set_eq.
    + intros k b Hin Hne.
      assert (Hk : k ∈ rk).
      { apply Hin_rk. split; [|done]. apply list_elem_of_fmap. by exists (k, b). }
      rewrite <- Hfst in Hk. apply list_elem_of_fmap in Hk as ([k' b'] & Hk' & Hin').
      simpl in Hk'. subst k'.
      assert (b' = b) as ->.
      { apply Hget in Hin'. rewrite (get_elem_NoDup _ _ _ Hnd_r Hin) in Hin'. congruence. }
      apply set_all_stored; [by rewrite Hfst | done].
  - intros k Hne Hk. rewrite set_all_other by (by apply Hlow).
    by apply get_set_ne.
  - intros p Hp. apply set_all_elem in Hp as [Hp|Hp].
    + apply elem_of_set in Hp as [Hp| ->]; [by left|]. right. simpl.
      unfold block_at in Hstart.
      destruct (Dict.get renamed start_lbl) as [b|] eqn:Hb; [|done].
      simpl in Hstart. injection Hstart as ->. apply get_Some_elem in Hb.
      apply list_elem_of_fmap. by exists (start_lbl, start).
    + right. destruct p as [k b]. apply Hget in Hp. apply get_Some_elem in Hp.
      apply list_elem_of_fmap. by exists (k, b).
  - intros k Hk. apply set_all_keys. by apply keys_set_mono.
  - intros Hsb. apply set_all_NoDup. by apply NoDup_keys_set.
Qed.

Lemma inject_branches_place body ig :
  NoDup (Dict.keys body) -> Forall (fun k => 0 <= k) (Dict.keys body) ->
  forall branches sb D c sb' D' copies c',
    NoDup (map fst branches) ->
    (forall lbl, lbl ∈ map fst branches -> lbl ∈ Dict.keys sb) ->
    inject_branches body ig sb D branches c = (Ok (sb', D', copies), c') ->
    (forall k b, Dict.get sb k = Some b -> k ∉ map fst branches ->
                 Dict.get sb' k = Some b)
    /\ (forall i lbl ty copy, branches !! i = Some (lbl, ty) ->
          copies !! i = Some copy -> placed sb' lbl copy)
    /\ (forall p, p ∈ sb' ->
          p ∈ sb \/ exists copy, copy ∈ copies /\ p.2 ∈ map snd (copy_blocks copy))
    /\ (forall k, k ∈ Dict.keys sb -> k ∈ Dict.keys sb')
    /\ (NoDup (Dict.keys sb) -> NoDup (Dict.keys sb')).
Proof.
  intros Hnd Hpos.
  induction branches as [|[lbl ty] rest IH];
    intros sb D c sb' D' copies c' Hbr Hin; simpl.
  - unfold mret, M_ret. intros [= <- <- <- <-].
    split; [done|]. split; [intros i ? ? ? Hi; done|]. split; [by left | done].
  - unfold mbind at 1, M_bind.
    destruct (inject_branch _ _ sb D lbl ty c) as [[[[sb1 D1] copy]|e] c1] eqn:Hb;
      [|done].
    unfold mbind at 1, M_bind.
    destruct (inject_branches _ _ sb1 D1 rest c1)
      as [[[[sb2 D2] copies']|e] c2] eqn:Hr; [|done].
    unfold mret, M_ret. intros [= <- <- <- <-].
    simpl in Hbr. apply NoDup_cons in Hbr as [Hlbl Hrest].
    destruct (inject_branch_places _ _ _ _ _ _ _ _ _ _ _ Hnd Hpos
                (Hin lbl ltac:(left)) Hb)
      as (m & Hm & Hkeys & Hplaced & Hframe & Helem & Hmono & Hnd1).
    assert (Hin1 : forall l, l ∈ map fst rest -> l ∈ Dict.keys sb1).
    { intros l Hl. apply Hmono, Hin. by right. }
    destruct (IH _ _ _ _ _ _ _ Hrest Hin1 Hr)
      as (Hframe2 & Hplaced2 & Helem2 & Hmono2 & Hnd2).
    assert (Hrest_low : forall l, l ∈ map fst rest -> l <= m).
    { intros l Hl. eapply max_label_ge; [exact Hm|]. apply Hin. by right. }
    split; [|split; [|split; [|split]]].
    + intros k b Hk Hn. apply not_elem_of_cons in Hn as [Hne Hn].
      apply Hframe2; [|done]. rewrite Hframe; [done | done |].
      eapply max_label_ge; [exact Hm|]. apply get_Some_elem in Hk.
      apply list_elem_of_fmap. by exists (k, b).
    + intros [|i] lbl' ty' copy'; simpl.
      * intros [= <- <-] [= <-].
        destruct Hplaced as (start_lbl & start & Hmin & Hstart & Hs & Hothers).
        exists start_lbl, start. split; [done|]. split; [done|]. split.
        -- by apply Hframe2.
        -- intros k b Hkb Hne. apply Hframe2; [by apply Hothers|].
           intros Hk. apply Hrest_low in Hk.
           assert (Hk' : k ∈ Dict.keys (copy_blocks copy))
             by (apply list_elem_of_fmap; by exists (k, b)).
           rewrite Hkeys in Hk'. apply list_elem_of_fmap in Hk' as (k0 & -> & Hk0).
           rewrite Forall_forall in Hpos. specialize (Hpos _ Hk0). lia.
      * apply Hplaced2.
    + intros p Hp. apply Helem2 in Hp as [Hp|(cp & Hcp & Hp)].
      * apply Helem in Hp as [Hp|Hp]; [by left|]. right. exists copy. split; [left | done].
      * right. exists cp. split; [by right | done].
    + intros k Hk. auto.
    + intros Hsb. auto.
Qed.

Lemma find_sentinels_found (bs : list (label * Block)) : forall sb se sb' se',
  find_sentinels bs sb se = Ok (sb', se') ->
  exists found, sb' = (sb ++ found)%list
    /\ found `sublist_of` map fst bs
    /\ (forall t, t ∈ se -> t ∈ se')
    /\ forall lbl, lbl ∈ found ->
         exists blk t, (lbl, blk) ∈ bs /\ existsb is_sentinel (body blk) = true
                       /\ last_target blk = Ok t /\ t ∈ se'.
Proof.
  induction bs as [|[lbl blk] rest IH]; intros sb se sb' se'; simpl.
  - intros [= <- <-]. exists []. rewrite app_nil_r. split; [done|]. split; [done|].
    split; [done|]. intros lbl Hl. by apply elem_of_nil in Hl.
  - destruct (existsb is_sentinel (body blk)) eqn:Hs.
    + destruct (last_target blk) as [t|e] eqn:Ht; [|done]. simpl.
      intros Hf. destruct (IH _ _ _ _ Hf) as (found & -> & Hsub & Hse & Hfound).
      exists (lbl :: found). rewrite <- app_assoc. split; [done|].
      split; [by constructor|].
      assert (Ht' : t ∈ se').
      { apply Hse. unfold set_add. case_decide; [done|]. apply elem_of_app. right. left. }
      split.
      * intros t' Ht''. apply Hse. unfold set_add. case_decide; [done|].
        apply elem_of_app. by left.
      * intros l [->|Hl]%elem_of_cons.
        -- exists blk, t. split; [left|]. done.
        -- destruct (Hfound l Hl) as (blk' & t' & ? & ? & ? & ?).
           exists blk', t'. split; [by right|]. done.
    + intros Hf. destruct (IH _ _ _ _ Hf) as (found & -> & Hsub & Hse & Hfound).
      exists found. split; [done|]. split; [by constructor|]. split; [done|].
      intros l Hl. destruct (Hfound l Hl) as (blk' & t' & ? & ? & ? & ?).
      exists blk', t'. split; [by right|]. done.
Qed.

Lemma inject_loop_body_has_copies switch_ir loop_ir caller_max_label D switch_data
    c0 unrolled c' :
  inject_loop_body switch_ir loop_ir caller_max_label D switch_data c0
  = (Ok unrolled, c') ->
  exists copies,
    inject_loop_body_copies switch_ir loop_ir caller_max_label D switch_data c0
    = (Ok (unrolled, copies), c').
Proof.
  unfold inject_loop_body, mbind, M_bind.
  destruct (inject_loop_body_copies _ _ _ _ _ c0) as [[[u copies]|e] c1]; [|done].
  unfold mret, M_ret. simpl. intros [= <- <-]. by exists copies.
Qed.

(** Every copy names each variable that the loop body keeps, under the name
    its dictionary gives it. *)
Lemma all_branches_keep body ig (Hnd : NoDup (Dict.keys body)) branches :
  forall sb D c sb' D' copies c',
    inject_branches body ig sb D branches c = (Ok (sb', D', copies), c') ->
    Forall (fun copy => forall x, x ∈ kept_vars body ->
              rename (new_var_dict copy) x ∈ blocks_vars (copy_blocks copy)) copies.
Proof.
  induction branches as [|[lbl ty] rest IH]; intros sb D c sb' D' copies c'; simpl.
  - unfold mret, M_ret. intros [= <- <- <- <-]. constructor.
  - unfold mbind at 1, M_bind.
    destruct (inject_branch _ _ sb D lbl ty c) as [[[[sb1 D1] copy]|e] c1] eqn:Hb;
      [|done].
    unfold mbind at 1, M_bind.
    destruct (inject_branches _ _ sb1 D1 rest c1)
      as [[[[sb2 D2] copies']|e] c2] eqn:Hr; [|done].
    unfold mret, M_ret. intros [= <- <- <- <-]. constructor; [|by eapply IH].
    destruct (inject_branch_props _ _ _ _ _ _ _ _ _ _ _ Hnd Hb)
      as (fixed & c3 & (_ & consts & _ & _ & _ & Hkept) & _ & Hcb & _).
    intros x Hx. rewrite Hcb, blocks_vars_rename.
    apply list_elem_of_fmap. exists x. split; [done | by apply Hkept].
Qed.



End renaming_facts.

(** ** The renaming claim at a concrete unroll *)

Module RenamingRun.
Import MixedContainerUnroller.

(** The body of the canonicalised loop of [sum_blocks] with its getitem turned
    into the placeholder, as [unroll_loop] hands it over. *)
Definition loop_ir : list (label * Block) :=
  [(20, mkBlock [Assign (Expr (typed_getitem "$lu" void "$phi")) "a";
                 Assign (Expr (binop "+" "acc" "a")) "acc";
                 Jump 10])].

(** Used or defined in the header, or live at it. *)
Definition dont_replace : list string :=
  ["$it"; "$n"; "$first"; "$second"; "$phi"; "$lu"; "acc"].

Definition switch_data : list (ty * list nat) :=
  SwitchTable.analyse_tuple [Scalar "int64"; Literal (py_int 7); Scalar "int64"].

Definition switch_run : result (list (label * Block)) * nat :=
  Eval vm_compute in
    gen_switch (H := Reference.collaborators) switch_data (Var "$first") 6%nat.

Definition switch_ir : list (label * Block) :=
  match switch_run.1 with Ok b => b | Raise _ => [] end.

Definition count0 : nat := switch_run.2.

Definition run : result (list (label * Block) * list branch_copy) * nat :=
  Eval vm_compute in
    inject_loop_body_copies switch_ir loop_ir 30 dont_replace switch_data count0.

Definition unrolled : list (label * Block) :=
  match run.1 with Ok r => r.1 | Raise _ => [] end.

Definition copies : list branch_copy :=
  match run.1 with Ok r => r.2 | Raise _ => [] end.

End RenamingRun.


(** * Further properties of the two passes *)

(** ** Relabelling: add_offset_to_labels_w_ignore *)

Section relabelling_facts.
Import MixedContainerUnroller.

Lemma offset_block_body ignore offset b :
  body (offset_block ignore offset b)
  = match rev (body b) with
    | [] => []
    | term :: front => (rev front ++ [offset_terminator ignore offset term])%list
    end.
Proof.
  unfold offset_block. destruct (rev (body b)) as [|term front] eqn:Hrev; [|done].
  apply (f_equal (@rev _)) in Hrev. by rewrite rev_involutive in Hrev.
Qed.

Lemma body_snoc (b : Block) term front :
  rev (body b) = term :: front -> body b = (rev front ++ [term])%list.
Proof.
  intros Hrev. apply (f_equal (@rev _)) in Hrev. by rewrite rev_involutive in Hrev.
Qed.

(** X1: on a block map (distinct labels) add_offset_to_labels_w_ignore moves
    every block to its label plus the offset, in the same order, also a block
    whose label is in the ignore list; of a block it touches the last statement
    only: the target of a closing jump and the two targets of a closing branch
    are moved by the offset unless they are in the ignore list, every other
    statement, also a jump further up, stays, and an empty block stays empty. *)
Theorem relabelling_moves_labels_and_last_statement
    (bs : list (label * Block)) (offset : Z) (ignore : list label) :
  NoDup (Dict.keys bs) ->
  let new_blocks := add_offset_to_labels_w_ignore bs offset ignore in
  Dict.keys new_blocks = map (fun l => l + offset) (Dict.keys bs)
  /\ forall l b, Dict.get bs l = Some b ->
       exists b', Dict.get new_blocks (l + offset) = Some b'
         /\ length (body b') = length (body b)
         /\ (forall i, (S i < length (body b))%nat -> body b' !! i = body b !! i)
         /\ match last (body b) with
            | None => body b' = []
            | Some (Jump t) =>
                last (body b') = Some (Jump (if decide (t ∈ ignore) then t else t + offset))
            | Some (Branch c t f) =>
                last (body b')
                = Some (Branch c (if decide (t ∈ ignore) then t else t + offset)
                                 (if decide (f ∈ ignore) then f else f + offset))
            | Some s => last (body b') = Some s
            end.
Proof.
  intros Hnd new_blocks. unfold new_blocks. rewrite add_offset_spec by done.
  split.
  - unfold Dict.keys. rewrite !map_map. done.
  - intros l b Hb. rewrite (get_shifted (offset_block ignore offset)), Hb. simpl.
    eexists. split; [done|]. rewrite offset_block_body.
    destruct (rev (body b)) as [|term front] eqn:Hrev.
    + apply (f_equal (@rev _)) in Hrev. rewrite rev_involutive in Hrev.
      simpl in Hrev. rewrite Hrev. simpl. done.
    + apply body_snoc in Hrev. rewrite Hrev.
      rewrite !length_app. simpl. split; [done|]. split.
      * intros i Hi. rewrite !lookup_app_l by lia. done.
      * rewrite !last_snoc.
        destruct term as [x t|t|c t f|v|m|v]; simpl; try done.
        by destruct (decide (t ∈ ignore)).
Qed.

Ltac no_ignore :=
  repeat match goal with
         | |- context [decide (?t ∈ [])] =>
             destruct (decide (t ∈ [])) as [Hin|_];
             [by apply elem_of_nil in Hin|]; simpl
         end.

Lemma offset_terminator_compose (o1 o2 : Z) (s : stmt) :
  offset_terminator [] o2 (offset_terminator [] o1 s) = offset_terminator [] (o1 + o2) s.
Proof.
  destruct s as [x t|t|c t f|v|m|v]; simpl; try done;
    unfold offset_target; no_ignore; f_equal; lia.
Qed.

Lemma offset_block_compose (o1 o2 : Z) (b : Block) :
  offset_block [] o2 (offset_block [] o1 b) = offset_block [] (o1 + o2) b.
Proof.
  unfold offset_block at 2 3.
  destruct (rev (body b)) as [|term front] eqn:Hrev.
  - unfold offset_block. by rewrite Hrev.
  - unfold offset_block. simpl. rewrite rev_app_distr. simpl.
    rewrite rev_involutive. by rewrite offset_terminator_compose.
Qed.

Lemma offset_terminator_zero (s : stmt) : offset_terminator [] 0 s = s.
Proof.
  destruct s as [x t|t|c t f|v|m|v]; simpl; try done;
    unfold offset_target; no_ignore; f_equal; lia.
Qed.

Lemma offset_block_zero (b : Block) : offset_block [] 0 b = b.
Proof.
  unfold offset_block. destruct (rev (body b)) as [|term front] eqn:Hrev; [done|].
  rewrite offset_terminator_zero. apply body_snoc in Hrev.
  destruct b as [bd]. simpl in *. by rewrite Hrev.
Qed.

(** X2: with no ignore list, relabelling by one offset and then by another is
    relabelling by their sum, and relabelling by an offset and then by its
    negative gives back the block map. *)
Theorem relabelling_composes_and_inverts
    (bs : list (label * Block)) (o1 o2 : Z) :
  NoDup (Dict.keys bs) ->
  add_offset_to_labels_w_ignore (add_offset_to_labels_w_ignore bs o1 []) o2 []
  = add_offset_to_labels_w_ignore bs (o1 + o2) []
  /\ add_offset_to_labels_w_ignore (add_offset_to_labels_w_ignore bs o1 []) (- o1) []
     = bs.
Proof.
  intros Hnd.
  assert (Hshift : forall o, NoDup (Dict.keys
            (map (fun lb : label * Block => (lb.1 + o, offset_block [] o lb.2)) bs))).
  { intros o. unfold Dict.keys. rewrite map_map. simpl.
    rewrite <- (map_map fst (fun l => l + o)).
    apply NoDup_fmap; [|exact Hnd]. intros x y. lia. }
  assert (Hcomp : forall o, add_offset_to_labels_w_ignore
                    (add_offset_to_labels_w_ignore bs o1 []) o []
                  = add_offset_to_labels_w_ignore bs (o1 + o) []).
  { intros o. rewrite (add_offset_spec bs o1) by done.
    rewrite add_offset_spec by apply Hshift.
    rewrite add_offset_spec by done. rewrite map_map. simpl.
    apply map_ext. intros [l b]. simpl. rewrite offset_block_compose.
    f_equal. lia. }
  split; [apply Hcomp|].
  rewrite Hcomp. replace (o1 + - o1) with 0 by lia.
  rewrite add_offset_spec by done.
  erewrite map_ext; [apply map_id|].
  intros [l b]. simpl. rewrite offset_block_zero. f_equal. lia.
Qed.

End relabelling_facts.

(** Two blocks, the second of which leaves through a branch. *)
Definition two_blocks : list (label * Block) :=
  [(0, mkBlock [Assign (Const (py_int 1)) "x"; Jump 4]);
   (4, mkBlock [Branch "c" 0 9])].

Lemma two_blocks_distinct : NoDup (Dict.keys two_blocks).
Proof. apply NoDup_ListNoDup. repeat constructor; simpl; intuition lia. Qed.

Lemma relabelling_moves_labels_and_last_statement_witness :
  NoDup (Dict.keys two_blocks)
  /\ Dict.keys (MixedContainerUnroller.add_offset_to_labels_w_ignore two_blocks 10 [9])
     = [10; 14].
Proof.
  split; [exact two_blocks_distinct|].
  exact (proj1 (relabelling_moves_labels_and_last_statement
                  two_blocks 10 [9] two_blocks_distinct)).
Defined.

Lemma relabelling_composes_and_inverts_witness :
  NoDup (Dict.keys two_blocks)
  /\ MixedContainerUnroller.add_offset_to_labels_w_ignore
       (MixedContainerUnroller.add_offset_to_labels_w_ignore two_blocks 10 []) (- 10) []
     = two_blocks.
Proof.
  split; [exact two_blocks_distinct|].
  exact (proj2 (relabelling_composes_and_inverts two_blocks 10 0 two_blocks_distinct)).
Defined.

(** ** analyse_tuple: the shape of the switch data *)

Section switch_data_extras.
Context {T : Type} `{EqDecision T}.
Implicit Types (t k : T) (tup : list T) (d : list (T * list nat)).

(** The number of slots a switch map holds in all its lists. *)
Definition slot_count d : nat := sum_list (map (fun p => length p.2) d).

Lemma slot_count_append d i t :
  slot_count (SwitchTable.append_index d i t) = S (slot_count d).
Proof.
  unfold SwitchTable.append_index, slot_count.
  induction d as [|[k v] d IH]; simpl; [done|].
  destruct (decide (k = t)) as [->|Hne]; simpl.
  - rewrite length_app. simpl. lia.
  - rewrite IH. lia.
Qed.

Lemma slot_count_analyse d i tup :
  slot_count (SwitchTable.analyse_from d i tup) = (slot_count d + length tup)%nat.
Proof.
  revert d i. induction tup as [|t rest IH]; intros d i; simpl; [lia|].
  rewrite IH, slot_count_append. lia.
Qed.

Lemma positions_sorted k i tup : StronglySorted lt (positions k i tup).
Proof.
  revert i. induction tup as [|t rest IH]; intros i; simpl; [constructor|].
  destruct (decide (t = k)); simpl; [|apply IH].
  constructor; [apply IH|]. apply Forall_forall. intros j Hj.
  apply positions_lower in Hj. lia.
Qed.

(** X3: the index lists of the map of analyse_tuple are non-empty and strictly
    increasing, hold indices below the length of the container only, and their
    lengths add up to that length; the map is empty exactly for the empty
    container. *)
Theorem switch_data_lists_partition_the_slots tup :
  let data := SwitchTable.analyse_tuple tup in
  (forall k idxs, (k, idxs) ∈ data ->
     idxs <> [] /\ StronglySorted lt idxs
     /\ Forall (fun i => (i < length tup)%nat) idxs)
  /\ sum_list (map (fun p => length p.2) data) = length tup
  /\ (data = [] <-> tup = []).
Proof.
  intros data. split; [|split].
  - intros k idxs Hin. unfold data in Hin. rewrite analyse_tuple_spec in Hin.
    apply list_elem_of_fmap in Hin as (k' & [= -> ->] & Hk).
    rewrite elem_of_first_occ in Hk. split; [|split].
    + intros Hnil. apply positions_nil_iff in Hnil. by apply Hnil.
    + apply positions_sorted.
    + apply Forall_forall. intros j Hj. apply elem_of_positions in Hj as [_ Hj].
      apply lookup_lt_Some in Hj. lia.
  - change (slot_count data = length tup). unfold data, SwitchTable.analyse_tuple.
    by rewrite slot_count_analyse.
  - unfold data. rewrite analyse_tuple_spec. destruct tup as [|t rest]; [done|].
    simpl. split; discriminate.
Qed.

Lemma positions_repeat t i n : positions t i (repeat t n) = seq i n.
Proof.
  revert i. induction n as [|n IH]; intros i; simpl; [done|].
  rewrite decide_True by done. simpl. by rewrite IH.
Qed.

Lemma first_occ_repeat t n : first_occ (repeat t (S n)) = [t].
Proof.
  induction n as [|n IH]; [done|].
  change (first_occ (repeat t (S (S n))))
    with (t :: filter (fun k => k ≠ t) (first_occ (repeat t (S n)))).
  rewrite IH. by rewrite filter_cons_False by (intros Hne; by apply Hne).
Qed.

(** X4: for a container all of whose slots have one type (a UniTuple),
    analyse_tuple gives a single entry, holding every index in order: the loop
    body is copied once. *)
Theorem homogeneous_container_has_one_branch t (n : nat) :
  SwitchTable.analyse_tuple (repeat t (S n)) = [(t, seq 0 (S n))].
Proof.
  rewrite analyse_tuple_spec, first_occ_repeat. simpl.
  rewrite decide_True by done. simpl. by rewrite positions_repeat.
Qed.

End switch_data_extras.

Lemma switch_data_lists_partition_the_slots_witness :
  let tup := [Scalar "int64"; Scalar "float64"; Scalar "int64"] in
  (Scalar "int64", [0; 2]%nat) ∈ SwitchTable.analyse_tuple tup
  /\ StronglySorted lt [0; 2]%nat.
Proof.
  intros tup.
  assert (Hin : (Scalar "int64", [0; 2]%nat) ∈ SwitchTable.analyse_tuple tup)
    by (vm_compute; left).
  split; [exact Hin|].
  exact (proj1 (proj2 (proj1 (switch_data_lists_partition_the_slots tup) _ _ Hin))).
Defined.


(** ** The typed_getitem placeholders in a copy of the loop body *)

(** A read of the unrolled container as [unroll_loop] leaves it: an assignment
    from a typed_getitem. *)
Definition is_placeholder (s : stmt) : bool :=
  match s with
  | Assign (Expr (typed_getitem _ _ _)) _ => true
  | _ => false
  end.

Definition placeholder_count (stmts : list stmt) : nat :=
  length (List.filter is_placeholder stmts).

(** The same read with the element type filled in. *)
Definition retype (branch_ty : ty) (s : stmt) : stmt :=
  match s with
  | Assign (Expr (typed_getitem v _ i)) t => Assign (Expr (typed_getitem v branch_ty i)) t
  | _ => s
  end.

(** The names [mk_unique_var("branch_const")] gives at the counter values
    [c], ..., [c + p - 1]. *)
Definition branch_consts (c p : nat) : list string :=
  map (fun n => (mk_unique_var "branch_const" n).1) (seq c p).

(** What a body looks like once its placeholders are replaced by the constant
    [v] held in the variables [consts]. *)
Definition constants_inlined (v : pyobj) (consts : list string)
    (stmts new_body : list stmt) : Prop :=
  length new_body = (length stmts + placeholder_count stmts)%nat
  /\ forall s, s ∈ new_body ->
       is_placeholder s = false
       /\ ((s ∈ stmts)
           \/ exists n, n ∈ consts
                /\ (s = Assign (Const v) n
                    \/ exists a d i t, Assign (Expr (typed_getitem a d i)) t ∈ stmts
                                       /\ s = Assign (Var n) t)).

(** A body whose placeholders are replaced by a constant: every typed_getitem
    assignment becomes the assignment of the constant [v] to the next of the
    variables [consts] followed by the assignment of that variable to the old
    target; every other statement stays, in its place. *)
Inductive inlined (v : pyobj) : list string -> list stmt -> list stmt -> Prop :=
| inlined_nil : inlined v [] [] []
| inlined_placeholder a d i t n consts stmts new_body :
    inlined v consts stmts new_body ->
    inlined v (n :: consts) (Assign (Expr (typed_getitem a d i)) t :: stmts)
            (Assign (Const v) n :: Assign (Var n) t :: new_body)
| inlined_other s consts stmts new_body :
    is_placeholder s = false ->
    inlined v consts stmts new_body ->
    inlined v consts (s :: stmts) (s :: new_body).

(** The same for a block map, the variables taken block after block. *)
Inductive blocks_inlined (v : pyobj)
  : list string -> list (label * Block) -> list (label * Block) -> Prop :=
| blocks_inlined_nil : blocks_inlined v [] [] []
| blocks_inlined_cons lbl blk new_body consts1 consts2 rest rest' :
    inlined v consts1 (body blk) new_body ->
    blocks_inlined v consts2 rest rest' ->
    blocks_inlined v (consts1 ++ consts2) ((lbl, blk) :: rest)
                   ((lbl, mkBlock new_body) :: rest').

Section placeholder_facts.
Import MixedContainerUnroller.

Lemma is_placeholder_inv (s : stmt) :
  is_placeholder s = true -> exists a d i t, s = Assign (Expr (typed_getitem a d i)) t.
Proof.
  destruct s as [x t| | | | |]; try done.
  destruct x as [| | | |e|]; try done.
  destruct e; try done. intros _. by eexists _, _, _, _.
Qed.

Lemma fix_other (s : stmt) ty D c :
  is_placeholder s = false -> fix_typed_getitem ty D s c = (Ok ([s], D), c).
Proof.
  destruct s as [x t| | | | |]; try done.
  destruct x as [| | | |e|]; try done.
  destruct e; done.
Qed.

Lemma fix_body_literal v stmts : forall D c,
  exists new_body,
    fix_body (Literal v) D stmts c
    = (Ok (new_body, (D ++ branch_consts c (placeholder_count stmts))%list),
       (c + placeholder_count stmts)%nat)
    /\ constants_inlined v (branch_consts c (placeholder_count stmts)) stmts new_body.
Proof.
  unfold placeholder_count, branch_consts.
  induction stmts as [|s rest IH]; intros D c.
  - exists []. simpl. rewrite app_nil_r, Nat.add_0_r. split; [done|].
    split; [done|]. intros s Hs. by apply elem_of_nil in Hs.
  - simpl. destruct (is_placeholder s) eqn:Hp.
    + apply is_placeholder_inv in Hp as (a & d & i & t & ->). simpl.
      destruct (IH (D ++ [(mk_unique_var "branch_const" c).1])%list (S c))
        as (nb & Hnb & Hlen & Hall).
      eexists. unfold mbind, M_bind, unique_var, draw, mret, M_ret. simpl.
      unfold mbind, M_bind in Hnb. simpl in Hnb, Hall. rewrite Hnb. simpl.
      rewrite <- app_assoc. simpl. rewrite Nat.add_succ_r. split; [done|].
      split; [simpl; unfold placeholder_count in *; simpl; lia|].
      intros s. rewrite !elem_of_cons. intros [->|[->|Hs]].
      * split; [done|]. right. eexists. split; [left|]. by left.
      * split; [done|]. right. eexists. split; [left|]. right.
        exists a, d, i, t. split; [left | done].
      * destruct (Hall s Hs) as [Hno [Hin|(n & Hn & Hs')]]; split; try done.
        -- left. by right.
        -- right. exists n. split; [by right|].
           destruct Hs' as [->|(a' & d' & i' & t' & Hin & ->)]; [by left|].
           right. exists a', d', i', t'. split; [by right | done].
    + destruct (IH D c) as (nb & Hnb & Hlen & Hall).
      exists (s :: nb). unfold mbind, M_bind. rewrite (fix_other s _ _ _ Hp).
      unfold mbind, M_bind in Hnb. rewrite Hnb. simpl. split; [done|].
      split; [simpl; unfold placeholder_count in *; simpl; rewrite Hp; simpl; lia|].
      intros s'. rewrite elem_of_cons. intros [->|Hs].
      * split; [done|]. left. left.
      * destruct (Hall s' Hs) as [Hno [Hin|(n & Hn & Hs')]]; split; try done.
        -- left. by right.
        -- right. exists n. split; [done|].
           destruct Hs' as [->|(a' & d' & i' & t' & Hin & ->)]; [by left|].
           right. exists a', d', i', t'. split; [by right | done].
Qed.

Lemma fix_body_typed ty stmts D c :
  (forall v, ty <> Literal v) ->
  fix_body ty D stmts c = (Ok (map (retype ty) stmts, D), c).
Proof.
  intros Hty. induction stmts as [|s rest IH]; [done|].
  simpl. unfold mbind, M_bind.
  assert (Hs : fix_typed_getitem ty D s c = (Ok ([retype ty s], D), c)).
  { destruct (is_placeholder s) eqn:Hp.
    - apply is_placeholder_inv in Hp as (a & d & i & t & ->). simpl.
      destruct ty; try done. by destruct (Hty literal_value).
    - rewrite (fix_other s _ _ _ Hp). destruct s as [x t| | | | |]; try done.
      destruct x as [| | | |e|]; try done. destruct e; done. }
  rewrite Hs. unfold mbind, M_bind in IH. by rewrite IH.
Qed.

Lemma fix_body_inlined v stmts : forall D c new_body D' c',
  fix_body (Literal v) D stmts c = (Ok (new_body, D'), c') ->
  inlined v (branch_consts c (placeholder_count stmts)) stmts new_body.
Proof.
  unfold placeholder_count, branch_consts.
  induction stmts as [|s rest IH]; intros D c new_body D' c'.
  - simpl. intros [= <- <- <-]. constructor.
  - simpl. unfold mbind, M_bind.
    destruct (is_placeholder s) eqn:Hp.
    + apply is_placeholder_inv in Hp as (a & d & i & t & ->).
      cbn [fix_typed_getitem]. unfold mbind, M_bind, unique_var, draw, mret, M_ret.
      simpl.
      match goal with
      | |- context [fix_body ?ty ?DD rest ?cc] =>
          destruct (fix_body ty DD rest cc) as [[[nb D1]|e] c1] eqn:Hrest; [|done]
      end.
      intros [= <- <- <-]. simpl. apply inlined_placeholder. by eapply IH.
    + rewrite (fix_other s _ _ _ Hp).
      destruct (fix_body (Literal v) D rest c) as [[[nb D1]|e] c1] eqn:Hrest; [|done].
      intros [= <- <- <-]. simpl. apply inlined_other; [done|]. by eapply IH.
Qed.

Lemma branch_consts_NoDup c p : NoDup (branch_consts c p).
Proof.
  unfold branch_consts. apply NoDup_fmap_2; [|apply NoDup_seq].
  intros m n Heq. by apply mk_unique_var_inj in Heq as [_ ->].
Qed.

(** What the fixing does to a block map, by the kind of the branch type. *)
Lemma fix_blocks_cases
    (branch_ty : ty) (D : list string) (bs : list (label * Block)) (c : nat) :
  match branch_ty with
  | Literal v =>
      let p := sum_list (map (fun lb => placeholder_count (body lb.2)) bs) in
      exists bs',
        fix_blocks branch_ty D bs c
        = (Ok (bs', (D ++ branch_consts c p)%list), (c + p)%nat)
        /\ Forall2 (fun lb lb' =>
                      lb'.1 = lb.1
                      /\ constants_inlined v (branch_consts c p)
                                           (body lb.2) (body lb'.2)) bs bs'
  | _ =>
      fix_blocks branch_ty D bs c
      = (Ok (map (fun lb => (lb.1, mkBlock (map (retype branch_ty) (body lb.2)))) bs,
             D), c)
  end.
Proof.
  assert (Htyped : (forall v, branch_ty <> Literal v) ->
            fix_blocks branch_ty D bs c
            = (Ok (map (fun lb => (lb.1, mkBlock (map (retype branch_ty) (body lb.2))))
                       bs, D), c)).
  { intros Hty. induction bs as [|[lbl blk] rest IH]; [done|].
    simpl. unfold mbind, M_bind. rewrite fix_body_typed by done.
    unfold mbind, M_bind in IH. by rewrite IH. }
  destruct branch_ty as [v| | | |]; try (apply Htyped; done).
  clear Htyped. revert D c.
  induction bs as [|[lbl blk] rest IH]; intros D c; simpl.
  - exists []. rewrite app_nil_r, Nat.add_0_r. split; [done | constructor].
  - destruct (fix_body_literal v (body blk) D c) as (nb & Hnb & Hinl).
    set (p1 := placeholder_count (body blk)) in *.
    destruct (IH (D ++ branch_consts c p1)%list (c + p1)%nat) as (rest' & Hrest & Hall).
    set (p2 := sum_list (map (fun lb => placeholder_count (body lb.2)) rest)) in *.
    assert (Hsplit : branch_consts c (p1 + p2)
                     = (branch_consts c p1 ++ branch_consts (c + p1) p2)%list).
    { unfold branch_consts. by rewrite seq_app, map_app. }
    exists ((lbl, mkBlock nb) :: rest'). unfold mbind, M_bind. rewrite Hnb.
    unfold mbind, M_bind in Hrest. rewrite Hrest. simpl.
    rewrite Hsplit, app_assoc, Nat.add_assoc. split; [done|].
    assert (Hmono : forall consts consts' stmts new_body,
              (forall n, n ∈ consts -> n ∈ consts') ->
              constants_inlined v consts stmts new_body ->
              constants_inlined v consts' stmts new_body).
    { intros consts consts' stmts new_body Hsub [Hlen Hx]. split; [done|].
      intros s Hs. destruct (Hx s Hs) as [Hno [Hin|(n & Hn & Hs')]].
      - split; [done | by left].
      - split; [done|]. right. exists n. split; [by apply Hsub | done]. }
    constructor.
    + split; [done|]. simpl. eapply Hmono; [|exact Hinl].
      intros n Hn. apply elem_of_app. by left.
    + eapply Forall2_impl; [exact Hall|]. intros lb lb' [Hl Hc]. split; [done|].
      eapply Hmono; [|exact Hc]. intros n Hn. apply elem_of_app. by right.
Qed.

Lemma fix_blocks_inlined v bs : forall D c bs' D' c',
  fix_blocks (Literal v) D bs c = (Ok (bs', D'), c') ->
  blocks_inlined v
    (branch_consts c (sum_list (map (fun lb => placeholder_count (body lb.2)) bs)))
    bs bs'.
Proof.
  induction bs as [|[lbl blk] rest IH]; intros D c bs' D' c'; simpl.
  - intros [= <- <- <-]. constructor.
  - unfold mbind, M_bind.
    destruct (fix_body_literal v (body blk) D c) as (nb & Hnb & _).
    rewrite Hnb.
    destruct (fix_blocks (Literal v) _ rest _) as [[[rest' D2]|e] c2] eqn:Hrest;
      [|done].
    intros [= <- <- <-].
    assert (Hsplit : forall p1 p2, branch_consts c (p1 + p2)
                     = (branch_consts c p1 ++ branch_consts (c + p1) p2)%list).
    { intros p1 p2. unfold branch_consts. by rewrite seq_app, map_app. }
    rewrite Hsplit. constructor; [by eapply fix_body_inlined | by eapply IH].
Qed.

(** X5: the part of inject_loop_body that "fixes the typed_getitem locations"
    never raises.  For a branch type that is not a literal it changes nothing
    but the element type of every typed_getitem, which becomes the branch
    type, and draws no name.  For a literal branch type it replaces every
    typed_getitem assignment, where it stands, by two assignments: the literal
    value to a fresh branch_const variable, then that variable to the old
    target; every other statement stays in its place.  The fresh variables are
    the names mk_unique_var gives from the counter value on, one per
    placeholder in block and statement order, all distinct: so no typed_getitem
    is left, every block grows by the number of its placeholders, the counter
    advances by their total number, and exactly the fresh names are added to
    the do-not-rename list. *)
Theorem placeholders_become_constants_or_typed_reads
    (branch_ty : ty) (D : list string) (bs : list (label * Block)) (c : nat) :
  match branch_ty with
  | Literal v =>
      let p := sum_list (map (fun lb => placeholder_count (body lb.2)) bs) in
      exists bs',
        fix_blocks branch_ty D bs c
        = (Ok (bs', (D ++ branch_consts c p)%list), (c + p)%nat)
        /\ blocks_inlined v (branch_consts c p) bs bs'
        /\ NoDup (branch_consts c p)
        /\ Forall2 (fun lb lb' =>
                      lb'.1 = lb.1
                      /\ constants_inlined v (branch_consts c p)
                                           (body lb.2) (body lb'.2)) bs bs'
  | _ =>
      fix_blocks branch_ty D bs c
      = (Ok (map (fun lb => (lb.1, mkBlock (map (retype branch_ty) (body lb.2)))) bs,
             D), c)
  end.
Proof.
  pose proof (fix_blocks_cases branch_ty D bs c) as Hcases.
  destruct branch_ty as [v| | | |]; try exact Hcases.
  destruct Hcases as (bs' & Heq & Hall). exists bs'.
  split; [exact Heq|]. split; [by eapply fix_blocks_inlined|].
  split; [apply branch_consts_NoDup | exact Hall].
Qed.

End placeholder_facts.


(** ** The validation in inject_loop_body and unroll_loop *)

Section unroll_checks.
Context `{Collaborators}.
Import MixedContainerUnroller.

Lemma find_sentinels_none (bs : list (label * Block)) (sb se : list label) :
  (forall lbl blk s, (lbl, blk) ∈ bs -> s ∈ body blk -> is_sentinel s = false) ->
  find_sentinels bs sb se = Ok (sb, se).
Proof.
  revert sb se. induction bs as [|[lbl blk] rest IH]; intros sb se Hno; [done|].
  simpl.
  assert (Hex : existsb is_sentinel (body blk) = false).
  { apply not_true_is_false. intros Hex. apply existsb_exists in Hex as (s & Hs & Hsen).
    rewrite (Hno lbl blk s) in Hsen; [done | left | by apply list_elem_of_In]. }
  rewrite Hex. apply IH. intros l b s Hin. apply (Hno l). by right.
Qed.

(** X6: inject_loop_body validates the switch table before it copies
    anything or draws a name.  A table without a SENTINEL assignment, or one
    whose SENTINEL blocks do not all jump to one exit, fails the first
    assertion; a table whose exit label is no block of it raises KeyError at
    the pop; a table whose number of SENTINEL blocks differs from the number of
    entries of the switch data fails the second assertion. *)
Theorem switch_table_is_validated_before_any_copy
    (switch_ir loop_ir : list (label * Block)) (caller_max_label : label)
    (dont_replace : list string) (switch_data : list (ty * list nat)) (c : nat) :
  ((forall lbl blk s, (lbl, blk) ∈ switch_ir -> s ∈ body blk -> is_sentinel s = false) ->
   inject_loop_body switch_ir loop_ir caller_max_label dont_replace switch_data c
   = (Raise AssertionError, c))
  /\ (forall sentinel_blocks sentinel_exits,
        find_sentinels switch_ir [] [] = Ok (sentinel_blocks, sentinel_exits) ->
        length sentinel_exits <> 1%nat ->
        inject_loop_body switch_ir loop_ir caller_max_label dont_replace switch_data c
        = (Raise AssertionError, c))
  /\ (forall sentinel_blocks exit_lbl,
        find_sentinels switch_ir [] [] = Ok (sentinel_blocks, [exit_lbl]) ->
        (exit_lbl ∉ Dict.keys switch_ir ->
         inject_loop_body switch_ir loop_ir caller_max_label dont_replace switch_data c
         = (Raise KeyError, c))
        /\ (exit_lbl ∈ Dict.keys switch_ir ->
            length sentinel_blocks <> length switch_data ->
            inject_loop_body switch_ir loop_ir caller_max_label dont_replace
                             switch_data c
            = (Raise AssertionError, c))).
Proof.
  assert (Hexits : forall sb se,
            find_sentinels switch_ir [] [] = Ok (sb, se) -> length se <> 1%nat ->
            inject_loop_body switch_ir loop_ir caller_max_label dont_replace
                             switch_data c = (Raise AssertionError, c)).
  { intros sb se Hfind Hlen.
    unfold inject_loop_body, inject_loop_body_copies, mbind, M_bind, lift.
    rewrite Hfind. simpl. by rewrite bool_decide_eq_false_2. }
  split; [|split].
  - intros Hno. apply (Hexits [] []); [by apply find_sentinels_none | done].
  - apply Hexits.
  - intros sb e Hfind. split.
    + intros Hout. apply get_None in Hout.
      unfold inject_loop_body, inject_loop_body_copies, mbind, M_bind, lift.
      rewrite Hfind. simpl. unfold Dict.mem. by rewrite Hout.
    + intros Hin Hlen.
      unfold inject_loop_body, inject_loop_body_copies, mbind, M_bind, lift.
      rewrite Hfind. simpl. unfold Dict.mem.
      destruct (Dict.get switch_ir e) eqn:Hget.
      * simpl. by rewrite bool_decide_eq_false_2.
      * apply get_None in Hget. done.
Qed.

End unroll_checks.

(** ** The search for getitems in apply_transform and unroll_loop *)

Section getitem_search.
Context `{Collaborators}.
Import MixedContainerUnroller.

Lemma is_Global_of_inv (o : pyobj) (x : value) :
  is_Global_of o x = true -> exists name, x = Global name o.
Proof.
  destruct x as [| |name o'| | |]; simpl; try discriminate.
  intros Hb. apply bool_decide_eq_true in Hb. subst. by exists name.
Qed.

Lemma call_inv (x : value) :
  is_Expr_op "call" x = true -> exists fn args, x = Expr (ir.call fn args).
Proof.
  intros Hx. apply is_Expr_op_inv in Hx as (e & -> & He).
  apply op_call_inv in He as (fn & args & ->). by exists fn, args.
Qed.

(** What a stored record says about the loop it was stored for. *)
Lemma check_loop_store_inv
    (f : FunctionIR) (tm : option (list (string * ty))) (l : Loop)
    (key : label) (ui : unroll_info) :
  check_loop f tm l = Ok (Store key ui) ->
  exists hdr v phi pv rf ra rargs rname lf la largs lname uf arg d t s,
    Dict.get (blocks f) (header l) = Some hdr
    /\ find_exprs "iternext" hdr = [iternext v]
    /\ get_definition f (Var v) = Ok phi
    /\ attr_value phi = Ok pv
    /\ get_definition f pv = Ok (Expr (ir.call rf (ra :: rargs)))
    /\ get_definition f (Var rf) = Ok (Global rname py_range)
    /\ get_definition f (Var ra) = Ok (Expr (ir.call lf (la :: largs)))
    /\ get_definition f (Var lf) = Ok (Global lname py_len)
    /\ get_definition f (Var la) = Ok (Expr (ir.call uf [arg]))
    /\ get_definition f (Var uf) = Ok d
    /\ attr_value d = Ok (Obj py_literal_unroll)
    /\ typemap_lookup tm arg = Ok t
    /\ accepted_type t = true
    /\ find_getitem f tm arg (loop_body l) = Ok (Some (key, s))
    /\ ui = mk_unroll_info l (Expr (ir.call uf [arg])) arg s.
Proof.
  unfold check_loop, block_at.
  destruct (Dict.get (blocks f) (header l)) as [hdr|] eqn:Hh; [|done]. simpl.
  destruct (find_exprs "iternext" hdr) as [|e [|e' es]] eqn:Hf; [done| |done].
  assert (He : exists v, e = iternext v).
  { apply op_iternext_inv, (find_exprs_op _ hdr). rewrite Hf. left. }
  destruct He as [v ->]. simpl.
  destruct (get_definition f (Var v)) as [phi|err] eqn:Hphi; [|done].
  destruct (attr_value phi) as [pv|err] eqn:Hpv; [|done]. simpl.
  destruct (get_definition f pv) as [rc|err] eqn:Hrc; [|done]. simpl.
  destruct (is_Expr_op "call" rc) eqn:Hrcall; [|done]. simpl.
  apply call_inv in Hrcall as (rf & rargs0 & ->). simpl.
  destruct (get_definition f (Var rf)) as [rg|err] eqn:Hrg; [|done]. simpl.
  destruct (is_Global_of py_range rg) eqn:Hrange; [|done]. simpl.
  apply is_Global_of_inv in Hrange as [rname ->].
  try (unfold first_arg at 1). simpl.
  destruct rargs0 as [|ra rargs]; [done|]. simpl.
  destruct (get_definition f (Var ra)) as [lc|err] eqn:Hlc; [|done]. simpl.
  destruct (is_Expr_op "call" lc) eqn:Hlcall; [|done]. simpl.
  apply call_inv in Hlcall as (lf & largs0 & ->). simpl.
  destruct (get_definition f (Var lf)) as [lg|err] eqn:Hlg; [|done]. simpl.
  destruct (is_Global_of py_len lg) eqn:Hlen; [|done]. simpl.
  apply is_Global_of_inv in Hlen as [lname ->].
  try (unfold first_arg at 1). simpl.
  destruct largs0 as [|la largs]; [done|]. simpl.
  destruct (get_definition f (Var la)) as [uc|err] eqn:Huc; [|done]. simpl.
  destruct uc as [| | | |ue|]; simpl; try done.
  destruct ue as [uf uargs| | | | | | | | |]; simpl; try done.
  destruct (get_definition f (Var uf)) as [d|err] eqn:Hd; [|done]. simpl.
  destruct (attr_value d) as [cf|err] eqn:Hcf; [|done]. simpl.
  destruct (decide (cf = Obj py_literal_unroll)) as [->|_]; [|done]. simpl.
  destruct uargs as [|arg [|arg' uargs]]; [done| |done]. simpl.
  destruct (typemap_lookup tm arg) as [t|err] eqn:Ht; [|done]. simpl.
  destruct (accepted_type t) eqn:Hat; [|done]. simpl.
  destruct (find_getitem f tm arg (loop_body l)) as [[[lbl s]|]|err] eqn:Hg;
    [|done|done].
  simpl. intros [= <- <-].
  exists hdr, v, phi, pv, rf, ra, rargs, rname, lf, la, largs, lname, uf, arg, d, t, s.
  by repeat split.
Qed.

(** X7: the scan of apply_transform stores a record for a loop exactly when
    the one iternext of the loop header is fed through definitions that read
    range(len(literal_unroll(arg))): a call of the global [range] on a call of
    the global [len] on a one-argument call of a function whose definition
    holds the marker object, with [arg] typed Tuple or UniTuple, and some block
    of the loop body holds a conforming getitem; the record is stored under the
    label of that block and holds the loop, the marker call, [arg] and the
    getitem. *)
Theorem unroller_records_range_len_literal_unroll_loops
    (f : FunctionIR) (tm : option (list (string * ty))) (l : Loop)
    (key : label) (ui : unroll_info) :
  check_loop f tm l = Ok (Store key ui) <->
  exists hdr v phi pv rf ra rargs rname lf la largs lname uf arg d t s,
    Dict.get (blocks f) (header l) = Some hdr
    /\ find_exprs "iternext" hdr = [iternext v]
    /\ get_definition f (Var v) = Ok phi
    /\ attr_value phi = Ok pv
    /\ get_definition f pv = Ok (Expr (ir.call rf (ra :: rargs)))
    /\ get_definition f (Var rf) = Ok (Global rname py_range)
    /\ get_definition f (Var ra) = Ok (Expr (ir.call lf (la :: largs)))
    /\ get_definition f (Var lf) = Ok (Global lname py_len)
    /\ get_definition f (Var la) = Ok (Expr (ir.call uf [arg]))
    /\ get_definition f (Var uf) = Ok d
    /\ attr_value d = Ok (Obj py_literal_unroll)
    /\ typemap_lookup tm arg = Ok t
    /\ accepted_type t = true
    /\ find_getitem f tm arg (loop_body l) = Ok (Some (key, s))
    /\ ui = mk_unroll_info l (Expr (ir.call uf [arg])) arg s.
Proof.
  split; [apply check_loop_store_inv|].
  intros (hdr & v & phi & pv & rf & ra & rargs & rname & lf & la & largs & lname
          & uf & arg & d & t & s & Hh & Hf & Hphi & Hpv & Hrc & Hrg & Hlc & Hlg
          & Huc & Hd & Hcf & Ht & Hat & Hg & ->).
  unfold check_loop, block_at. rewrite Hh. simpl. rewrite Hf. simpl.
  rewrite Hphi, Hpv. simpl. rewrite Hrc. simpl. rewrite Hrg. simpl.
  rewrite Hlc. simpl. rewrite Hlg. simpl. rewrite Huc. simpl.
  rewrite Hd. simpl. rewrite Hcf. simpl. rewrite Ht. simpl. rewrite Hat. simpl.
  by rewrite Hg.
Qed.

Lemma first_conforming_collected (f : FunctionIR) (tm : option (list (string * ty)))
    (arg : string) (lbl : label) (stmts : list stmt) (s : stmt) :
  first_conforming f tm arg stmts = Ok (Some s) ->
  forall i items, collect_in_body f tm arg lbl i stmts = Ok items ->
    exists j, (lbl, j, s) ∈ items.
Proof.
  induction stmts as [|s0 rest IH]; simpl; [done|].
  destruct (conforming_getitem f tm arg s0) as [[|]|err]; simpl; [| |done].
  - intros [= ->] i items.
    destruct (collect_in_body f tm arg lbl (S i) rest) as [more|err]; [|done].
    simpl. intros [= <-]. exists i. left.
  - intros Hfirst i items.
    destruct (collect_in_body f tm arg lbl (S i) rest) as [more|err] eqn:Hmore;
      [|done].
    simpl. intros [= <-]. by eapply IH.
Qed.

Lemma find_getitem_collected (f : FunctionIR) (tm : option (list (string * ty)))
    (arg : string) (labels : list label) (key : label) (s : stmt) :
  find_getitem f tm arg labels = Ok (Some (key, s)) ->
  forall items, collect_getitems f tm arg labels = Ok items ->
    exists j, (key, j, s) ∈ items.
Proof.
  induction labels as [|lbl rest IH]; simpl; [done|].
  destruct (block_at (blocks f) lbl) as [blk|err]; [|done]. simpl.
  destruct (first_conforming f tm arg (body blk)) as [[s0|]|err] eqn:Hfirst;
    simpl; [| |done].
  - intros [= -> ->] items.
    destruct (collect_in_body f tm arg key 0 (body blk)) as [here|err] eqn:Hhere;
      [|done].
    simpl. destruct (collect_getitems f tm arg rest) as [more|err]; [|done].
    simpl. intros [= <-].
    destruct (first_conforming_collected _ _ _ _ _ _ Hfirst _ _ Hhere) as [j Hj].
    exists j. apply elem_of_app. by left.
  - intros Hfind items.
    destruct (collect_in_body f tm arg lbl 0 (body blk)) as [here|err]; [|done].
    simpl. destruct (collect_getitems f tm arg rest) as [more|err] eqn:Hmore;
      [|done].
    simpl. intros [= <-]. destruct (IH Hfind _ eq_refl) as [j Hj].
    exists j. apply elem_of_app. by right.
Qed.

(** X8: a record that the scan of apply_transform stored is keyed by a label
    of the loop body, and the search for getitems with which unroll_loop
    starts, run on the same function, finds the recorded getitem again in the
    block of that label: whenever this search returns, its list is not empty,
    so the error for a loop body without a conforming getitem is not raised
    for a recorded loop. *)
Theorem recorded_getitem_is_found_again_by_unroll_loop
    (f : FunctionIR) (tm : option (list (string * ty))) (l : Loop)
    (key : label) (ui : unroll_info) :
  check_loop f tm l = Ok (Store key ui) ->
  loop ui = l
  /\ key ∈ loop_body l
  /\ forall items,
       collect_getitems f tm (arg ui) (loop_body (loop ui)) = Ok items ->
       items <> [] /\ exists j, (key, j, getitem ui) ∈ items.
Proof.
  intros Hc. apply check_loop_store_inv in Hc
    as (hdr & v & phi & pv & rf & ra & rargs & rname & lf & la & largs & lname
        & uf & arg & d & t & s & _ & _ & _ & _ & _ & _ & _ & _ & _ & _ & _ & _ & _
        & Hg & ->).
  simpl. split; [done|]. split.
  - clear -Hg. induction (loop_body l) as [|lbl rest IH]; simpl in Hg; [done|].
    destruct (block_at (blocks f) lbl) as [blk|err]; [|done]. simpl in Hg.
    destruct (first_conforming f tm arg (body blk)) as [[s0|]|err]; simpl in Hg;
      [| |done].
    + injection Hg as -> ->. left.
    + right. auto.
  - intros items Hitems.
    destruct (find_getitem_collected _ _ _ _ _ _ Hg _ Hitems) as [j Hj].
    split; [|by exists j]. intros ->. by apply elem_of_nil in Hj.
Qed.

(** X9: called for a loop whose body blocks hold no getitem at all (and whose
    container is typed Tuple or UniTuple), unroll_loop raises CompilerError with
    the message that no getitem conforms, and has changed neither the function
    nor the counter of mk_unique_var. *)
Theorem unroll_loop_without_getitem_changes_nothing (w : World) (info : unroll_info)
    (t : ty) :
  typemap_lookup (typemap (state w)) (arg info) = Ok t ->
  accepted_type t = true ->
  (forall lbl, lbl ∈ loop_body (loop info) ->
     exists blk, Dict.get (blocks (func_ir (state w))) lbl = Some blk
       /\ forall s v i tg, s ∈ body blk -> s <> Assign (Expr (ir.getitem v i)) tg) ->
  unroll_loop w info = (Raise (CompilerError no_getitem_msg), w).
Proof.
  intros Ht Hat Hbody.
  assert (Hconf : forall s, (forall v i tg, s <> Assign (Expr (ir.getitem v i)) tg) ->
            conforming_getitem (func_ir (state w)) (typemap (state w)) (arg info) s
            = Ok false).
  { intros s Hs. destruct s as [x tg| | | | |]; try done.
    destruct x as [| | | |e|]; try done.
    destruct e as [| | | | |v i| | | |]; try done. by destruct (Hs v i tg). }
  assert (Hin_body : forall lbl i stmts,
            (forall s v i tg, s ∈ stmts -> s <> Assign (Expr (ir.getitem v i)) tg) ->
            collect_in_body (func_ir (state w)) (typemap (state w)) (arg info)
                            lbl i stmts = Ok []).
  { intros lbl i stmts. revert i. induction stmts as [|s rest IH]; intros i Hs; [done|].
    simpl. rewrite Hconf by (intros v j tg; apply Hs; left). simpl.
    rewrite IH by (intros s' v j tg Hs'; apply Hs; by right). done. }
  assert (Hcollect : collect_getitems (func_ir (state w)) (typemap (state w))
                       (arg info) (loop_body (loop info)) = Ok []).
  { induction (loop_body (loop info)) as [|lbl rest IH]; [done|].
    simpl. destruct (Hbody lbl) as (blk & Hblk & Hs); [left|].
    unfold block_at. rewrite Hblk. simpl. rewrite Hin_body by done. simpl.
    rewrite IH by (intros l' Hl'; apply Hbody; by right). done. }
  unfold unroll_loop, mbind, M_bind, lift. rewrite Ht. simpl. rewrite Hat. simpl.
  rewrite Hcollect. simpl. by destruct w.
Qed.

End getitem_search.

(** The checks above at concrete functions. *)

Module UnrollRuns.
Import MixedContainerUnroller.

(** The loop of [Runs.sum_canonical], and what the scan makes of it. *)
Definition sum_loop : Loop :=
  Eval vm_compute in
    match Reference.loops (blocks (func_ir (state Runs.sum_canonical))) with
    | (_, l) :: _ => l
    | [] => mkLoop 0 [] [] []
    end.

Definition sum_verdict : result verdict :=
  Eval vm_compute in
    check_loop (H := Reference.collaborators) (func_ir (state Runs.sum_canonical))
               (typemap (state Runs.sum_canonical)) sum_loop.

Definition sum_key : label :=
  Eval vm_compute in match sum_verdict with Ok (Store key _) => key | _ => 0 end.

Definition sum_record : unroll_info :=
  Eval vm_compute in
    match sum_verdict with
    | Ok (Store _ ui) => ui
    | _ => mk_unroll_info sum_loop (Obj py_none) "" (Jump 0)
    end.

(** A record for the loop of [Examples.sum_blocks] before canonicalisation,
    where the loop body indexes nothing. *)
Definition early_record : unroll_info :=
  mk_unroll_info CanonicaliserRuns.the_loop (Expr (ir.call "$lu_g" ["t"])) "t" (Jump 10).

End UnrollRuns.

Lemma switch_table_is_validated_before_any_copy_witness :
  MixedContainerUnroller.inject_loop_body two_blocks [] 0 [] [] 0%nat
  = (Raise AssertionError, 0%nat).
Proof.
  apply (proj1 (switch_table_is_validated_before_any_copy two_blocks [] 0 [] [] 0%nat)).
  intros lbl blk s Hin Hs.
  apply elem_of_cons in Hin as [Hin|Hin];
    [|apply elem_of_cons in Hin as [Hin|Hin]; [|by apply elem_of_nil in Hin]];
    injection Hin as -> ->; simpl in Hs;
    repeat (apply elem_of_cons in Hs as [->|Hs]; [reflexivity|]);
    by apply elem_of_nil in Hs.
Defined.

Lemma recorded_getitem_is_found_again_by_unroll_loop_witness :
  MixedContainerUnroller.check_loop (H := Reference.collaborators)
    (func_ir (state Runs.sum_canonical)) (typemap (state Runs.sum_canonical))
    UnrollRuns.sum_loop
  = Ok (MixedContainerUnroller.Store UnrollRuns.sum_key UnrollRuns.sum_record)
  /\ UnrollRuns.sum_key ∈ loop_body UnrollRuns.sum_loop.
Proof.
  assert (Hc : MixedContainerUnroller.check_loop (H := Reference.collaborators)
                 (func_ir (state Runs.sum_canonical))
                 (typemap (state Runs.sum_canonical)) UnrollRuns.sum_loop
               = Ok (MixedContainerUnroller.Store UnrollRuns.sum_key
                                                  UnrollRuns.sum_record))
    by (vm_compute; reflexivity).
  split; [exact Hc|].
  exact (proj1 (proj2 (recorded_getitem_is_found_again_by_unroll_loop
                         _ _ _ _ _ Hc))).
Defined.

Lemma unroll_loop_without_getitem_changes_nothing_witness :
  MixedContainerUnroller.unroll_loop (H := Reference.collaborators)
    Examples.sum_typed UnrollRuns.early_record
  = (Raise (CompilerError MixedContainerUnroller.no_getitem_msg), Examples.sum_typed).
Proof.
  apply (unroll_loop_without_getitem_changes_nothing
           (H := Reference.collaborators) Examples.sum_typed UnrollRuns.early_record
           Examples.mixed).
  - reflexivity.
  - reflexivity.
  - intros lbl Hin. simpl in Hin.
    apply elem_of_cons in Hin as [->|Hin];
      [|apply elem_of_cons in Hin as [->|Hin]; [|by apply elem_of_nil in Hin]].
    + eexists. split; [vm_compute; reflexivity|].
      intros s v i tg Hs.
      repeat (apply elem_of_cons in Hs as [->|Hs]; [discriminate|]).
      by apply elem_of_nil in Hs.
    + eexists. split; [vm_compute; reflexivity|].
      intros s v i tg Hs.
      repeat (apply elem_of_cons in Hs as [->|Hs]; [discriminate|]).
      by apply elem_of_nil in Hs.
Defined.


(** ** numba/targets/linalg.py: errors, types and BLAS kinds *)

Module errors.

(** The exceptions of linalg.py that [exn] does not list, beside those it
    does. *)
Inductive error :=
| TypingError (msg : string)
| TypeError (msg : string)
| ImportError (msg : string)
| OverflowError (msg : string)
| Builtin (e : exn).

(** What running a piece of code ends in: a value, an exception, or the end of
    the process (the C helper numba_fatal_error, Py_FatalError). *)
Inductive run (A : Type) :=
| Done (a : A)
| Throw (e : error)
| Aborted.
Arguments Done {A} a.
Arguments Throw {A} e.
Arguments Aborted {A}.

#[global] Instance run_ret : MRet run := @Done.
#[global] Instance run_bind : MBind run := fun A B k m =>
  match m with
  | Done a => k a
  | Throw e => Throw e
  | Aborted => Aborted
  end.

End errors.

Module types.

(** The scalar types of numba/types that linalg.py tells apart, each an
    instance of its class. *)
Inductive scalar :=
| Float (name : string)
| Complex (name : string)
| Integer (name : string)
| Boolean.

Definition float32 : scalar := Float "float32".
Definition float64 : scalar := Float "float64".
Definition complex64 : scalar := Complex "complex64".
Definition complex128 : scalar := Complex "complex128".

(** A type as the typing of a call sees it: an instance of [types.Array], or
    something else. *)
Inductive type :=
| Array (dtype : scalar) (ndim : nat) (layout : string)
| NonArray (name : string).

#[global] Instance scalar_eq_dec : EqDecision scalar.
Proof. solve_decision. Defined.
#[global] Instance type_eq_dec : EqDecision type.
Proof. solve_decision. Defined.

(** [isinstance(d, (types.Float, types.Complex))] *)
Definition is_float_or_complex (d : scalar) : bool :=
  match d with
  | Float _ | Complex _ => true
  | _ => false
  end.

End types.

Module blas.
Import errors.

Definition _blas_kinds : list (types.scalar * ascii) :=
  [(types.float32, "s"%char); (types.float64, "d"%char);
   (types.complex64, "c"%char); (types.complex128, "z"%char)].

Definition get_blas_kind (dtype : types.scalar) (func_name : string) : run ascii :=
  match Dict.get _blas_kinds dtype with
  | None => Throw (TypeError ("unsupported dtype for " ++ func_name ++ "()"))
  | Some kind => Done kind
  end.

End blas.

(** ** Facts about the BLAS kinds *)

(** X10: get_blas_kind returns a kind letter exactly for float32, float64,
    complex64 and complex128 (s, d, c, z), raises TypeError naming the calling
    function for every other dtype, and gives different dtypes different
    letters. *)
Theorem blas_kind_table (dtype : types.scalar) (func_name : string) :
  (forall kind, blas.get_blas_kind dtype func_name = errors.Done kind <->
     (dtype, kind) ∈ [(types.float32, "s"%char); (types.float64, "d"%char);
                      (types.complex64, "c"%char); (types.complex128, "z"%char)])
  /\ (dtype ∉ [types.float32; types.float64; types.complex64; types.complex128] ->
      blas.get_blas_kind dtype func_name
      = errors.Throw (errors.TypeError ("unsupported dtype for " ++ func_name ++ "()")))
  /\ (forall dtype' name' kind,
        blas.get_blas_kind dtype func_name = errors.Done kind ->
        blas.get_blas_kind dtype' name' = errors.Done kind -> dtype' = dtype).
Proof.
  unfold blas.get_blas_kind. split; [|split].
  - intros kind. split.
    + destruct (Dict.get blas._blas_kinds dtype) as [k|] eqn:Hget; [|done].
      intros [= ->]. by apply get_Some_elem in Hget.
    + intros Hin. rewrite (get_elem_NoDup blas._blas_kinds dtype kind); [done| |done].
      apply NoDup_ListNoDup. vm_compute.
      repeat constructor; simpl; intuition discriminate.
  - intros Hout. destruct (Dict.get blas._blas_kinds dtype) as [k|] eqn:Hget; [|done].
    apply get_Some_elem in Hget. exfalso. apply Hout.
    apply (list_elem_of_fmap_2 fst) in Hget. exact Hget.
  - intros dtype' name' kind.
    destruct (Dict.get blas._blas_kinds dtype) as [k|] eqn:Hget; [|done].
    destruct (Dict.get blas._blas_kinds dtype') as [k'|] eqn:Hget'; [|done].
    intros [= ->] [= ->].
    apply get_Some_elem in Hget, Hget'.
    repeat (apply elem_of_cons in Hget as [Hget|Hget]);
      repeat (apply elem_of_cons in Hget' as [Hget'|Hget']);
      try (by apply elem_of_nil in Hget); try (by apply elem_of_nil in Hget');
      congruence.
Qed.


(** ** numba/targets/linalg.py: the LAPACK-backed functions of np.linalg *)

Module lapack.
Import errors linalg.

(** What linalg.py takes from outside: whether scipy's LAPACK bindings can be
    imported, the element type of the arrays with its finiteness test and its
    zero, and the LAPACK wrappers of _lapack.c.  A wrapper gets the contents of
    the arrays it is passed and returns its integer code and the contents it
    leaves in the arrays it writes. *)
Class Externals := {
  scipy_lapack : bool;
  F : Type;
  isfinite : F -> bool;
  zero : F;
  (** [numba_xxgetrf(kind, m, n, a, lda, ipiv)]: code, [a], [ipiv] *)
  numba_xxgetrf :
    Z -> nat -> nat -> (nat -> nat -> F) -> nat -> Z * (nat -> nat -> F) * (nat -> Z);
  (** [numba_ez_xxgetri(kind, n, a, lda, ipiv)]: code, [a] *)
  numba_ez_xxgetri :
    Z -> nat -> (nat -> nat -> F) -> nat -> (nat -> Z) -> Z * (nat -> nat -> F);
  (** [numba_xxpotrf(kind, uplo, n, a, lda)]: code, [a] *)
  numba_xxpotrf : Z -> Z -> nat -> (nat -> nat -> F) -> nat -> Z * (nat -> nat -> F);
  (** [numba_ez_geqrf(kind, m, n, a, lda, tau)]: code, [a], [tau] *)
  numba_ez_geqrf :
    Z -> nat -> nat -> (nat -> nat -> F) -> nat -> Z * (nat -> nat -> F) * (nat -> F);
  (** [numba_ez_xxgqr(kind, m, n, k, a, lda, tau)]: code, [a] *)
  numba_ez_xxgqr :
    Z -> nat -> nat -> nat -> (nat -> nat -> F) -> nat -> (nat -> F)
    -> Z * (nat -> nat -> F);
  (** the type of singular values, and
      [numba_ez_gesdd(kind, jobz, m, n, a, lda, s, u, ldu, vt, ldvt)]: code,
      [s], [u], [vt] *)
  R : Type;
  numba_ez_gesdd :
    Z -> Z -> nat -> nat -> (nat -> nat -> F) -> nat -> nat -> nat
    -> Z * (nat -> R) * (nat -> nat -> F) * (nat -> nat -> F);
  (** the truth value of an element, and
      [numba_ez_rgeev(kind, jobvl, jobvr, n, a, lda, wr, wi, vl, ldvl, vr, ldvr)]:
      code, [wr], [wi], [vr] *)
  truth : F -> bool;
  numba_ez_rgeev :
    Z -> Z -> Z -> nat -> (nat -> nat -> F) -> nat -> nat -> nat
    -> Z * (nat -> F) * (nat -> F) * (nat -> nat -> F) }.

(** [ord(c)] *)
Definition ord (c : ascii) : Z := Z.of_nat (nat_of_ascii c).

Definition _check_linalg_matrix (a : types.type) (func_name : string) : run unit :=
  match a with
  | types.Array dtype ndim _ =>
      if negb (ndim =? 2)%nat
      then Throw (TypingError
                    ("np.linalg." ++ func_name ++ "() only supported on 2-D arrays."))
      else if negb (types.is_float_or_complex dtype)
      then Throw (TypingError
                    ("np.linalg." ++ func_name
                     ++ "() only supported on float and complex arrays."))
      else Done tt
  | _ => Throw (TypingError
                  ("np.linalg." ++ func_name ++ "() only supported for array types"))
  end.

Definition _check_linalg_1_or_2d_matrix (a : types.type) (func_name : string)
  : run unit :=
  match a with
  | types.Array dtype ndim _ =>
      if negb (ndim <=? 2)%nat
      then Throw (TypingError
                    ("np.linalg." ++ func_name
                     ++ "() only supported on 1 and 2-D arrays "))
      else if negb (types.is_float_or_complex dtype)
      then Throw (TypingError
                    ("np.linalg." ++ func_name
                     ++ "() only supported on float and complex arrays."))
      else Done tt
  | _ => Throw (TypingError
                  ("np.linalg." ++ func_name ++ "() only supported for array types "))
  end.

Definition _handle_err_maybe_convergence_problem (r : Z) : outcome unit :=
  if negb (r =? 0) then
    (if r <? 0 then fatal_error_func ;; assert_0 else Returns tt) ;;
    (if 0 <? r
     then Raises (ValueError "Internal algorithm failed to converge.")
     else Returns tt)
  else Returns tt.

(** A one-dimensional array. *)
Record vector (A : Type) := mk_vector {
  len : nat;
  item : nat -> A }.
Arguments mk_vector {A} len item.
Arguments len {A} v.
Arguments item {A} v i.

Section drivers.
Context `{Externals}.

Definition ensure_lapack : run unit :=
  if scipy_lapack then Done tt
  else Throw (ImportError "scipy 0.16+ is required for linear algebra").

(** A two-dimensional array: its shape and the element at each index. *)
Record matrix := mk_matrix {
  dim0 : nat;
  dim1 : nat;
  elt : nat -> nat -> F }.

(** [a.T] *)
Definition transpose (a : matrix) : matrix :=
  mk_matrix (dim1 a) (dim0 a) (fun i j => elt a j i).

(** [a[i, j]] and [a[i, j] = v] *)
Definition get (a : matrix) (i j : nat) : outcome F :=
  if (i <? dim0 a)%nat && (j <? dim1 a)%nat then Returns (elt a i j)
  else Raises IndexError.

Definition set (a : matrix) (i j : nat) (v : F) : outcome matrix :=
  if (i <? dim0 a)%nat && (j <? dim1 a)%nat
  then Returns (mk_matrix (dim0 a) (dim1 a)
                  (fun i' j' => if (i' =? i)%nat && (j' =? j)%nat then v
                                else elt a i' j'))
  else Raises IndexError.

(** [a[:stop, col] = v] *)
Definition set_column_prefix (a : matrix) (stop col : nat) (v : F) : outcome matrix :=
  if (col <? dim1 a)%nat
  then Returns (mk_matrix (dim0 a) (dim1 a)
                  (fun i j => if (j =? col)%nat && (i <? stop)%nat && (i <? dim0 a)%nat
                              then v else elt a i j))
  else Raises IndexError.

(** [for i in l: s = body(i, s)] *)
Fixpoint for_each {S : Type} (l : list nat) (body : nat -> S -> outcome S) (s : S)
  : outcome S :=
  match l with
  | [] => Returns s
  | i :: rest => s' ← body i s; for_each rest body s'
  end.

(** [range(lo, hi)] *)
Definition range (lo hi : nat) : list nat := seq lo (hi - lo).

Definition _check_finite_matrix (a : matrix) : outcome unit :=
  if forallb (fun i => forallb (fun j => isfinite (elt a i j)) (seq 0 (dim1 a)))
             (seq 0 (dim0 a))
  then Returns tt
  else Raises (LinAlgError "Array must not contain infs or NaNs.").

Definition square_msg : string := "Last 2 dimensions of the array must be square.".

(** The function that the overload of np.linalg.inv returns.  [np.copy(a)] and
    [np.asfortranarray(a)] hold the elements of [a]; which of the two is taken
    (F_layout) does not show at the indices. *)
Definition inv_impl_inner (kind : Z) (a : matrix) : outcome matrix :=
  let n := dim1 a in
  (if negb (dim0 a =? n)%nat then Raises (LinAlgError square_msg) else Returns tt);;
  _check_finite_matrix a;;
  let acpy := elt a in
  let '(r, acpy, ipiv) := numba_xxgetrf kind n n acpy n in
  _inv_err_handler r;;
  let '(r, acpy) := numba_ez_xxgetri kind n acpy n ipiv in
  _inv_err_handler r;;
  Returns (mk_matrix (dim0 a) (dim1 a) acpy).

(** The overload of np.linalg.inv, run on the type of the argument. *)
Definition inv_impl (a : types.type) : run (matrix -> outcome matrix) :=
  ensure_lapack;;
  _check_linalg_matrix a "inv";;
  match a with
  | types.Array dtype _ _ =>
      kind ← blas.get_blas_kind dtype "inv";
      Done (inv_impl_inner (ord kind))
  | _ => Throw (Builtin AttributeError)
  end.

(** The function that the overload of np.linalg.cholesky returns. *)
Definition cho_impl_inner (kind : Z) (a : matrix) : outcome matrix :=
  let UP := ord "U" in
  let n := dim1 a in
  (if negb (dim0 a =? n)%nat then Raises (LinAlgError square_msg) else Returns tt);;
  let '(r, out) := numba_xxpotrf kind UP n (elt a) n in
  let out := mk_matrix (dim0 a) (dim1 a) out in
  (if negb (r =? 0) then
     (if r <? 0 then fatal_error_func ;; assert_0 else Returns tt) ;;
     (if 0 <? r then Raises (LinAlgError "Matrix is not positive definite.")
      else Returns tt)
   else Returns tt);;
  for_each (range 0 n) (fun col out => set_column_prefix out col col zero) out.

Definition cho_impl (a : types.type) : run (matrix -> outcome matrix) :=
  ensure_lapack;;
  _check_linalg_matrix a "cholesky";;
  match a with
  | types.Array dtype _ _ =>
      kind ← blas.get_blas_kind dtype "cholesky";
      Done (cho_impl_inner (ord kind))
  | _ => Throw (Builtin AttributeError)
  end.

(** The function that the overload of np.linalg.qr returns. *)
Definition qr_impl_inner (kind : Z) (a : matrix) : outcome (matrix * matrix) :=
  let n := dim1 a in
  let m := dim0 a in
  _check_finite_matrix a;;
  let minmn := Nat.min m n in
  let '(ret, q, tau) := numba_ez_geqrf kind m n (elt a) m in
  let q := mk_matrix m n q in
  (if ret <? 0 then fatal_error_func ;; assert_0 else Returns tt);;
  let r := mk_matrix minmn n (fun _ _ => zero) in
  r ← for_each (range 0 minmn)
        (fun i r => for_each (range 0 (i + 1))
                      (fun j r => v ← get q j i; set r j i v) r) r;
  r ← for_each (range minmn n)
        (fun i r => for_each (range 0 minmn)
                      (fun j r => v ← get q j i; set r j i v) r) r;
  let '(ret, q') := numba_ez_xxgqr kind m minmn minmn (elt q) m tau in
  _handle_err_maybe_convergence_problem ret;;
  Returns (mk_matrix m minmn q', r).

Definition qr_impl (a : types.type) : run (matrix -> outcome (matrix * matrix)) :=
  ensure_lapack;;
  _check_linalg_matrix a "qr";;
  match a with
  | types.Array dtype _ _ =>
      kind ← blas.get_blas_kind dtype "qr";
      Done (qr_impl_inner (ord kind))
  | _ => Throw (Builtin AttributeError)
  end.

(** The function that the overload of np.linalg.svd returns. *)
Definition svd_impl_inner (kind : Z) (a : matrix) (full_matrices : Z)
  : outcome (matrix * vector R * matrix) :=
  let JOBZ_A := ord "A" in
  let JOBZ_S := ord "S" in
  let n := dim1 a in
  let m := dim0 a in
  _check_finite_matrix a;;
  let ldu := m in
  let minmn := Nat.min m n in
  let '(JOBZ, ucol, ldvt) :=
    if negb (full_matrices =? 0) then (JOBZ_A, m, n) else (JOBZ_S, minmn, minmn) in
  let '(r, s, u, vt) := numba_ez_gesdd kind JOBZ m n (elt a) m ldu ldvt in
  let u := mk_matrix ucol ldu u in
  let s := mk_vector minmn s in
  let vt := mk_matrix n ldvt vt in
  _handle_err_maybe_convergence_problem r;;
  Returns (transpose u, s, transpose vt).

(** [np.any(v)] *)
Definition any (v : vector F) : bool :=
  existsb (fun i => truth (item v i)) (seq 0 (len v)).

(** The function that the overload of np.linalg.eig returns for a real
    array. *)
Definition real_eig_impl (kind : Z) (a : matrix) : outcome (vector F * matrix) :=
  let JOBVL := ord "N" in
  let JOBVR := ord "V" in
  let n := dim1 a in
  (if negb (dim0 a =? n)%nat then Raises (LinAlgError square_msg) else Returns tt);;
  _check_finite_matrix a;;
  let ldvl := 1%nat in
  let ldvr := n in
  let '(r, wr, wi, vr) := numba_ez_rgeev kind JOBVL JOBVR n (elt a) n ldvl ldvr in
  let wr := mk_vector n wr in
  let wi := mk_vector n wi in
  let vr := mk_matrix n ldvr vr in
  _handle_err_maybe_convergence_problem r;;
  (if any wi
   then Raises (ValueError "eig() argument must not cause a domain change.")
   else Returns tt);;
  Returns (wr, transpose vr).

End drivers.
End lapack.


(** ** Facts about the LAPACK-backed functions *)

Lemma convergence_handler_cases (r : Z) :
  lapack._handle_err_maybe_convergence_problem r
  = (if r <? 0 then linalg.Aborts
     else if 0 <? r
          then linalg.Raises (ValueError "Internal algorithm failed to converge.")
          else linalg.Returns tt).
Proof.
  unfold lapack._handle_err_maybe_convergence_problem.
  destruct (Z.eqb_spec r 0) as [->|Hne]; simpl; [done|].
  destruct (Z.ltb_spec r 0); simpl; [done|].
  destruct (Z.ltb_spec 0 r); simpl; [done | lia].
Qed.

(** X11: _handle_err_maybe_convergence_problem classifies the return code like
    _inv_err_handler: a negative code ends the process, zero returns, a
    positive code raises, here ValueError "Internal algorithm failed to
    converge."; the two handlers do the same exactly on the codes that are not
    positive. *)
Theorem convergence_handler_three_way (r : Z) :
  lapack._handle_err_maybe_convergence_problem r
  = (if r <? 0 then linalg.Aborts
     else if 0 <? r
          then linalg.Raises (ValueError "Internal algorithm failed to converge.")
          else linalg.Returns tt)
  /\ (lapack._handle_err_maybe_convergence_problem r = linalg._inv_err_handler r
      <-> r <= 0).
Proof.
  split; [apply convergence_handler_cases|].
  rewrite convergence_handler_cases. unfold linalg._inv_err_handler.
  destruct (Z.eqb_spec r 0) as [->|Hne]; simpl; [split; [lia | done]|].
  destruct (Z.ltb_spec r 0); simpl; [split; [lia | done]|].
  destruct (Z.ltb_spec 0 r); simpl; [|lia].
  split; [discriminate | lia].
Qed.

(** X12: _check_linalg_matrix passes exactly the two-dimensional arrays of a
    float or complex dtype, and reports a value that is no array before a
    wrong dimension before a wrong dtype; _check_linalg_1_or_2d_matrix passes
    exactly the float or complex arrays of at most two dimensions, so it passes
    whatever _check_linalg_matrix passes and also arrays of dimension zero. *)
Theorem linalg_argument_checks (a : types.type) (func_name : string) :
  (lapack._check_linalg_matrix a func_name = errors.Done tt
   <-> exists dtype layout,
         a = types.Array dtype 2 layout /\ types.is_float_or_complex dtype = true)
  /\ (lapack._check_linalg_1_or_2d_matrix a func_name = errors.Done tt
      <-> exists dtype ndim layout,
            a = types.Array dtype ndim layout /\ (ndim <= 2)%nat
            /\ types.is_float_or_complex dtype = true)
  /\ (lapack._check_linalg_matrix a func_name = errors.Done tt ->
      lapack._check_linalg_1_or_2d_matrix a func_name = errors.Done tt)
  /\ (forall name, a = types.NonArray name ->
        lapack._check_linalg_matrix a func_name
        = errors.Throw (errors.TypingError
            ("np.linalg." ++ func_name ++ "() only supported for array types")))
  /\ (forall dtype ndim layout, a = types.Array dtype ndim layout -> ndim <> 2%nat ->
        lapack._check_linalg_matrix a func_name
        = errors.Throw (errors.TypingError
            ("np.linalg." ++ func_name ++ "() only supported on 2-D arrays."))).
Proof.
  split; [|split; [|split; [|split]]].
  3:{ destruct a as [dtype ndim layout|name]; simpl; [|done].
      destruct (Nat.eqb_spec ndim 2) as [->|Hne]; simpl; [|done].
      by destruct (types.is_float_or_complex dtype). }
  - split.
    + destruct a as [dtype ndim layout|name]; simpl; [|done].
      destruct (Nat.eqb_spec ndim 2) as [->|Hne]; simpl; [|done].
      destruct (types.is_float_or_complex dtype) eqn:Hd; simpl; [|done].
      intros _. by exists dtype, layout.
    + intros (dtype & layout & -> & Hd). simpl. by rewrite Hd.
  - split.
    + destruct a as [dtype ndim layout|name]; simpl; [|done].
      destruct (Nat.leb_spec ndim 2) as [Hle|Hgt]; simpl; [|done].
      destruct (types.is_float_or_complex dtype) eqn:Hd; simpl; [|done].
      intros _. by exists dtype, ndim, layout.
    + intros (dtype & ndim & layout & -> & Hle & Hd). simpl.
      destruct (Nat.leb_spec ndim 2) as [_|Hgt]; [|lia]. simpl. by rewrite Hd.
  - by intros name ->.
  - intros dtype ndim layout -> Hne. simpl.
    by destruct (Nat.eqb_spec ndim 2) as [->|_].
Qed.

Section lapack_facts.
Context `{lapack.Externals}.
Import lapack.

(** All elements of [a] are finite. *)
Definition all_finite (a : matrix) : Prop :=
  forall i j, (i < dim0 a)%nat -> (j < dim1 a)%nat -> isfinite (elt a i j) = true.

Lemma finite_cases (a : matrix) :
  (all_finite a /\ _check_finite_matrix a = linalg.Returns tt)
  \/ (~ all_finite a
      /\ _check_finite_matrix a
         = linalg.Raises (LinAlgError "Array must not contain infs or NaNs.")).
Proof.
  unfold _check_finite_matrix, all_finite.
  destruct (forallb _ _) eqn:Hall.
  - left. split; [|done]. intros i j Hi Hj.
    rewrite forallb_forall in Hall. specialize (Hall i).
    rewrite forallb_forall in Hall. apply Hall; apply in_seq; lia.
  - right. split; [|done]. intros Hfin.
    apply not_true_iff_false in Hall. apply Hall.
    apply forallb_forall. intros i Hi. apply forallb_forall. intros j Hj.
    apply in_seq in Hi, Hj. apply Hfin; lia.
Qed.

(** X13: the overload of np.linalg.inv checks in this order: without scipy's
    LAPACK bindings it raises ImportError whatever the argument; then the
    TypingError of _check_linalg_matrix; then, for a two-dimensional float or
    complex array, the TypeError of get_blas_kind when the dtype has no BLAS
    kind; otherwise it returns the implementation for the kind letter of the
    dtype. *)
Theorem inv_overload_checks_scipy_then_type_then_kind (a : types.type) :
  (scipy_lapack = false ->
   inv_impl a
   = errors.Throw (errors.ImportError "scipy 0.16+ is required for linear algebra"))
  /\ (scipy_lapack = true ->
      (forall e, _check_linalg_matrix a "inv" = errors.Throw e ->
                 inv_impl a = errors.Throw e)
      /\ (forall dtype layout,
            a = types.Array dtype 2 layout -> types.is_float_or_complex dtype = true ->
            (forall kind, (dtype, kind) ∈ blas._blas_kinds ->
               inv_impl a = errors.Done (inv_impl_inner (ord kind)))
            /\ (dtype ∉ Dict.keys blas._blas_kinds ->
                inv_impl a
                = errors.Throw (errors.TypeError "unsupported dtype for inv()")))).
Proof.
  unfold inv_impl, ensure_lapack. split; [by intros ->|].
  intros ->. split.
  - intros e He. simpl. by rewrite He.
  - intros dtype layout -> Hd. simpl. rewrite Hd. simpl.
    unfold blas.get_blas_kind. split.
    + intros kind Hin.
      rewrite (get_elem_NoDup blas._blas_kinds dtype kind); [done| |done].
      apply NoDup_ListNoDup. vm_compute.
      repeat constructor; simpl; intuition discriminate.
    + intros Hout. apply (proj2 (get_None blas._blas_kinds dtype)) in Hout.
      by rewrite Hout.
Qed.

(** X14: the implementation of np.linalg.inv returns exactly when the array
    is square, all its elements are finite and both LAPACK routines, xxgetrf
    and then xxgetri on the result of xxgetrf, return zero; it then returns an
    array of the shape of the argument holding what xxgetri left.  It ends the
    process exactly when, for a square finite array, xxgetrf returns a negative
    code or xxgetrf returns zero and xxgetri a negative code.  A non-square
    array is refused before its elements are looked at, and whatever is raised
    is a LinAlgError: the assertion after the fatal error is not reached. *)
Theorem inv_returns_only_for_square_finite_nonsingular (kind : Z) (a : matrix) :
  let n := dim1 a in
  let getrf := numba_xxgetrf kind n n (elt a) n in
  let getri := numba_ez_xxgetri kind n getrf.1.2 n getrf.2 in
  (inv_impl_inner kind a
   = linalg.Returns (mk_matrix (dim0 a) (dim1 a) getri.2)
   <-> dim0 a = dim1 a /\ all_finite a /\ getrf.1.1 = 0 /\ getri.1 = 0)
  /\ ((exists out, inv_impl_inner kind a = linalg.Returns out)
      -> inv_impl_inner kind a
         = linalg.Returns (mk_matrix (dim0 a) (dim1 a) getri.2))
  /\ (inv_impl_inner kind a = linalg.Aborts
      <-> dim0 a = dim1 a /\ all_finite a
          /\ (getrf.1.1 < 0 \/ (getrf.1.1 = 0 /\ getri.1 < 0)))
  /\ (dim0 a <> dim1 a ->
      inv_impl_inner kind a = linalg.Raises (LinAlgError square_msg))
  /\ (forall e, inv_impl_inner kind a = linalg.Raises e -> exists msg, e = LinAlgError msg).
Proof.
  intros n getrf getri.
  assert (Hform : inv_impl_inner kind a
    = if negb (dim0 a =? dim1 a)%nat then linalg.Raises (LinAlgError square_msg)
      else match _check_finite_matrix a with
           | linalg.Returns _ =>
               match linalg._inv_err_handler getrf.1.1 with
               | linalg.Returns _ =>
                   match linalg._inv_err_handler getri.1 with
                   | linalg.Returns _ =>
                       linalg.Returns (mk_matrix (dim0 a) (dim1 a) getri.2)
                   | linalg.Raises e => linalg.Raises e
                   | linalg.Aborts => linalg.Aborts
                   end
               | linalg.Raises e => linalg.Raises e
               | linalg.Aborts => linalg.Aborts
               end
           | linalg.Raises e => linalg.Raises e
           | linalg.Aborts => linalg.Aborts
           end).
  { unfold inv_impl_inner, getri, getrf, n.
    destruct (negb (dim0 a =? dim1 a)%nat); [done|]. simpl.
    destruct (_check_finite_matrix a); [|done|done]. simpl.
    destruct (numba_xxgetrf kind (dim1 a) (dim1 a) (elt a) (dim1 a)) as [[r1 lu] ipiv].
    simpl. destruct (linalg._inv_err_handler r1); [|done|done]. simpl.
    destruct (numba_ez_xxgetri kind (dim1 a) lu (dim1 a) ipiv) as [r2 ainv].
    simpl. by destruct (linalg._inv_err_handler r2). }
  assert (Hh : forall r,
            linalg._inv_err_handler r
            = if r <? 0 then linalg.Aborts
              else if 0 <? r
                   then linalg.Raises
                          (LinAlgError "Matrix is singular and cannot be inverted.")
                   else linalg.Returns tt).
  { intros r. unfold linalg._inv_err_handler.
    destruct (Z.eqb_spec r 0) as [->|Hne]; simpl; [done|].
    destruct (Z.ltb_spec r 0); simpl; [done|].
    destruct (Z.ltb_spec 0 r); simpl; [done | lia]. }
  rewrite Hform, !Hh. clear Hform Hh.
  destruct (Nat.eqb_spec (dim0 a) (dim1 a)) as [Hsq|Hnsq]; simpl.
  2:{ split; [split; [done | by intros [? _]]|].
      split; [by intros [out [=]]|].
      split; [split; [done | by intros [? _]]|].
      split; [done|]. intros e [= <-]. by eexists. }
  destruct (finite_cases a) as [[Hf ->]|[Hf ->]].
  2:{ split; [split; [done | by intros (_ & ? & _)]|].
      split; [by intros [out [=]]|].
      split; [split; [done | by intros (_ & ? & _)]|].
      split; [done|]. intros e [= <-]. by eexists. }
  destruct (Z.ltb_spec getrf.1.1 0) as [H1|H1].
  { split; [split; [done | intros (_ & _ & ? & _); lia]|].
    split; [by intros [out [=]]|].
    split; [split; [intros _; repeat split; auto | done]|].
    split; [done|]. by intros e [=]. }
  destruct (Z.ltb_spec 0 getrf.1.1) as [H1'|H1'].
  { split; [split; [done | intros (_ & _ & ? & _); lia]|].
    split; [by intros [out [=]]|].
    split; [split; [done | intros (_ & _ & [?|[? _]]); lia]|].
    split; [done|]. intros e [= <-]. by eexists. }
  destruct (Z.ltb_spec getri.1 0) as [H2|H2].
  { split; [split; [done | intros (_ & _ & _ & ?); lia]|].
    split; [by intros [out [=]]|].
    split; [split; [intros _; repeat split; auto; right; lia | done]|].
    split; [done|]. by intros e [=]. }
  destruct (Z.ltb_spec 0 getri.1) as [H2'|H2'].
  { split; [split; [done | intros (_ & _ & _ & ?); lia]|].
    split; [by intros [out [=]]|].
    split; [split; [done | intros (_ & _ & [?|[_ ?]]); lia]|].
    split; [done|]. intros e [= <-]. by eexists. }
  split; [split; [intros _; repeat split; auto; lia | done]|].
  split; [done|].
  split; [split; [done | intros (_ & _ & [?|[_ ?]]); lia]|].
  split; [done|]. by intros e [=].
Qed.

(** A loop over [seq lo n] that keeps an invariant indexed by the next value
    of the loop variable runs to its end. *)
Lemma for_each_invariant {S : Type} (I : nat -> S -> Prop)
    (body : nat -> S -> linalg.outcome S) (n : nat) : forall (lo : nat) (s : S),
  I lo s ->
  (forall i s, (lo <= i < lo + n)%nat -> I i s ->
     exists s', body i s = linalg.Returns s' /\ I (Datatypes.S i) s') ->
  exists s', for_each (seq lo n) body s = linalg.Returns s' /\ I (lo + n)%nat s'.
Proof.
  induction n as [|n IH]; intros lo s Hs Hstep; simpl.
  - exists s. by rewrite Nat.add_0_r.
  - destruct (Hstep lo s) as (s1 & Hb & Hs1); [lia | done |].
    rewrite Hb. simpl.
    destruct (IH (Datatypes.S lo) s1 Hs1) as (s' & Hrun & Hs').
    { intros i s2 Hi. apply Hstep. lia. }
    exists s'. split; [done|]. by replace (lo + Datatypes.S n)%nat
                                 with (Datatypes.S lo + n)%nat by lia.
Qed.

Ltac nat_cases :=
  repeat match goal with
         | |- context [(?a <? ?b)%nat] => destruct (Nat.ltb_spec a b)
         | |- context [(?a <=? ?b)%nat] => destruct (Nat.leb_spec a b)
         | |- context [(?a =? ?b)%nat] => destruct (Nat.eqb_spec a b)
         end; simpl; try done; try lia.

(** X15: the implementation of np.linalg.cholesky refuses a non-square array,
    ends the process on a negative code of xxpotrf, raises LinAlgError "Matrix
    is not positive definite." on a positive one, and on zero returns an array
    of the shape of the argument that is zero above the diagonal and holds
    what xxpotrf left on and below it; its column assignments stay within the
    array. *)
Theorem cholesky_returns_a_lower_triangle (kind : Z) (a : matrix) :
  let potrf := numba_xxpotrf kind (ord "U") (dim1 a) (elt a) (dim1 a) in
  (dim0 a <> dim1 a ->
   cho_impl_inner kind a = linalg.Raises (LinAlgError square_msg))
  /\ (dim0 a = dim1 a -> potrf.1 < 0 -> cho_impl_inner kind a = linalg.Aborts)
  /\ (dim0 a = dim1 a -> 0 < potrf.1 ->
      cho_impl_inner kind a
      = linalg.Raises (LinAlgError "Matrix is not positive definite."))
  /\ (dim0 a = dim1 a -> potrf.1 = 0 ->
      exists out,
        cho_impl_inner kind a = linalg.Returns out
        /\ dim0 out = dim0 a /\ dim1 out = dim1 a
        /\ forall i j, (i < dim0 a)%nat -> (j < dim1 a)%nat ->
             elt out i j = if (i <? j)%nat then zero else potrf.2 i j).
Proof.
  intros potrf. unfold cho_impl_inner. fold potrf.
  destruct potrf as [r L] eqn:Hp. simpl.
  split; [|split; [|split]].
  - intros Hne. by destruct (Nat.eqb_spec (dim0 a) (dim1 a)).
  - intros Hsq Hr. destruct (Nat.eqb_spec (dim0 a) (dim1 a)); [|done]. simpl.
    destruct (Z.eqb_spec r 0); [lia|]. simpl. by destruct (Z.ltb_spec r 0); [|lia].
  - intros Hsq Hr. destruct (Nat.eqb_spec (dim0 a) (dim1 a)); [|done]. simpl.
    destruct (Z.eqb_spec r 0); [lia|]. simpl. destruct (Z.ltb_spec r 0); [lia|].
    simpl. by destruct (Z.ltb_spec 0 r); [|lia].
  - intros Hsq ->. destruct (Nat.eqb_spec (dim0 a) (dim1 a)); [|done]. simpl.
    unfold range. rewrite Nat.sub_0_r.
    destruct (for_each_invariant
                (fun col out =>
                   dim0 out = dim0 a /\ dim1 out = dim1 a
                   /\ forall i j, elt out i j
                        = if (j <? col)%nat && (i <? j)%nat && (i <? dim0 a)%nat
                          then zero else L i j)
                (fun col out => set_column_prefix out col col zero)
                (dim1 a) 0%nat (mk_matrix (dim0 a) (dim1 a) L))
      as (out & Hrun & Hd0 & Hd1 & Helt).
    + simpl. repeat split. 
    + intros col s [_ Hcol] (Hd0 & Hd1 & Helt). unfold set_column_prefix.
      rewrite Hd1. destruct (Nat.ltb_spec col (dim1 a)); [|lia].
      eexists. split; [done|]. simpl. split; [done|]. split; [done|].
      intros i j. rewrite Helt, Hd0. nat_cases.
    + exists out. split; [done|]. split; [done|]. split; [done|].
      intros i j Hi Hj. rewrite Helt. simpl. nat_cases.
Qed.

(** X16: the implementation of np.linalg.qr refuses an array with an element
    that is not finite, ends the process on a negative code of either LAPACK
    routine, ignores a positive code of geqrf, raises ValueError on a positive
    code of xxgqr, and otherwise returns q of shape (m, min(m, n)) holding what
    xxgqr left and r of shape (min(m, n), n) that holds what geqrf left on and
    above the diagonal and zero below it; the two loop nests that fill r index
    within both arrays. *)
Theorem qr_copies_the_upper_trapezoid (kind : Z) (a : matrix) :
  let m := dim0 a in
  let n := dim1 a in
  let k := Nat.min m n in
  let geqrf := numba_ez_geqrf kind m n (elt a) m in
  let gqr := numba_ez_xxgqr kind m k k geqrf.1.2 m geqrf.2 in
  (~ all_finite a ->
   qr_impl_inner kind a
   = linalg.Raises (LinAlgError "Array must not contain infs or NaNs."))
  /\ (all_finite a -> geqrf.1.1 < 0 -> qr_impl_inner kind a = linalg.Aborts)
  /\ (all_finite a -> 0 <= geqrf.1.1 -> gqr.1 < 0 ->
      qr_impl_inner kind a = linalg.Aborts)
  /\ (all_finite a -> 0 <= geqrf.1.1 -> 0 < gqr.1 ->
      qr_impl_inner kind a
      = linalg.Raises (ValueError "Internal algorithm failed to converge."))
  /\ (all_finite a -> 0 <= geqrf.1.1 -> gqr.1 = 0 ->
      exists q r,
        qr_impl_inner kind a = linalg.Returns (q, r)
        /\ dim0 q = m /\ dim1 q = k /\ elt q = gqr.2
        /\ dim0 r = k /\ dim1 r = n
        /\ forall j i, (j < k)%nat -> (i < n)%nat ->
             elt r j i = if (j <=? i)%nat then geqrf.1.2 j i else zero).
Proof.
  intros m n k geqrf gqr.
  assert (Hloops : exists r1 r,
    for_each (range 0 k)
      (fun i r => for_each (range 0 (i + 1))
                    (fun j r => v ← get (mk_matrix m n geqrf.1.2) j i; set r j i v)
                    r)
      (mk_matrix k n (fun _ _ => zero)) = linalg.Returns r1
    /\ for_each (range k n)
         (fun i r => for_each (range 0 k)
                       (fun j r => v ← get (mk_matrix m n geqrf.1.2) j i; set r j i v) r)
         r1 = linalg.Returns r
    /\ dim0 r = k /\ dim1 r = n
    /\ forall j i, (j < k)%nat -> (i < n)%nat ->
         elt r j i = if (j <=? i)%nat then geqrf.1.2 j i else zero).
  { set (Q := geqrf.1.2). set (q := mk_matrix m n Q).
    assert (Hk : (k <= m)%nat /\ (k <= n)%nat) by (unfold k; lia).
    unfold range. rewrite !Nat.sub_0_r.
    destruct (for_each_invariant
                (fun i r =>
                   dim0 r = k /\ dim1 r = n
                   /\ forall j' i', elt r j' i'
                        = if (i' <? i)%nat && (j' <=? i')%nat then Q j' i' else zero)
                (fun i r => for_each (seq 0 (i + 1 - 0))
                              (fun j r => v ← get q j i; set r j i v) r)
                k 0%nat (mk_matrix k n (fun _ _ => zero)))
      as (r1 & Hrun1 & Hd0 & Hd1 & Helt1).
    { simpl. repeat split. }
    { intros i s [_ Hi] (Hd0 & Hd1 & Helt). rewrite Nat.sub_0_r.
      destruct (for_each_invariant
                  (fun j r =>
                     dim0 r = k /\ dim1 r = n
                     /\ forall j' i', elt r j' i'
                          = if ((i' <? i)%nat && (j' <=? i')%nat)
                               || ((i' =? i)%nat && (j' <? j)%nat)
                            then Q j' i' else zero)
                  (fun j r => v ← get q j i; set r j i v)
                  (i + 1) 0%nat s)
        as (s' & Hrun & Hd0' & Hd1' & Helt').
      - split; [done|]. split; [done|]. intros j' i'. rewrite Helt. nat_cases.
      - intros j r [_ Hj] (Hr0 & Hr1 & Hr). unfold get, set. simpl.
        destruct (Nat.ltb_spec j m); [|lia]. destruct (Nat.ltb_spec i n); [|lia].
        simpl. rewrite Hr0, Hr1.
        destruct (Nat.ltb_spec j k); [|lia]. destruct (Nat.ltb_spec i n); [|lia].
        simpl. eexists. split; [done|]. simpl. split; [done|]. split; [done|].
        intros j' i'. rewrite Hr. nat_cases; by subst.
      - exists s'. split; [done|]. split; [done|]. split; [done|].
        intros j' i'. rewrite Helt'. nat_cases. }
    destruct (for_each_invariant
                (fun i r =>
                   dim0 r = k /\ dim1 r = n
                   /\ forall j' i', elt r j' i'
                        = if ((i' <? k)%nat && (j' <=? i')%nat)
                             || ((k <=? i')%nat && (i' <? i)%nat && (j' <? k)%nat)
                          then Q j' i' else zero)
                (fun i r => for_each (seq 0 k)
                              (fun j r => v ← get q j i; set r j i v) r)
                (n - k) k r1)
      as (r2 & Hrun2 & Hd0' & Hd1' & Helt2).
    { split; [done|]. split; [done|]. intros j' i'. rewrite Helt1. nat_cases. }
    { intros i s Hi (Hs0 & Hs1 & Helt).
      destruct (for_each_invariant
                  (fun j r =>
                     dim0 r = k /\ dim1 r = n
                     /\ forall j' i', elt r j' i'
                          = if ((i' <? k)%nat && (j' <=? i')%nat)
                               || ((k <=? i')%nat && (i' <? i)%nat && (j' <? k)%nat)
                               || ((i' =? i)%nat && (j' <? j)%nat)
                            then Q j' i' else zero)
                  (fun j r => v ← get q j i; set r j i v)
                  k 0%nat s)
        as (s' & Hrun & Hd0'' & Hd1'' & Helt').
      - split; [done|]. split; [done|]. intros j' i'. rewrite Helt. nat_cases.
      - intros j r [_ Hj] (Hr0 & Hr1 & Hr). unfold get, set. simpl.
        destruct (Nat.ltb_spec j m); [|lia]. destruct (Nat.ltb_spec i n); [|lia].
        simpl. rewrite Hr0, Hr1.
        destruct (Nat.ltb_spec j k); [|lia]. destruct (Nat.ltb_spec i n); [|lia].
        simpl. eexists. split; [done|]. simpl. split; [done|]. split; [done|].
        intros j' i'. rewrite Hr. nat_cases; by subst.
      - exists s'. split; [done|]. split; [done|]. split; [done|].
        intros j' i'. rewrite Helt'. nat_cases. }
    exists r1, r2. split; [done|].
    split; [by replace (k + (n - k))%nat with n in Hrun2 by lia|].
    split; [done|]. split; [done|].
    intros j i Hj Hi. rewrite Helt2. nat_cases. }
  destruct Hloops as (r1 & r & Hrun1 & Hrun & Hr0 & Hr1 & Hr).
  unfold qr_impl_inner. fold m n k geqrf.
  destruct geqrf as [[ret Q] tau] eqn:Hg. simpl in *. fold gqr.
  destruct gqr as [ret2 Q'] eqn:Hg2. simpl in *.
  destruct (finite_cases a) as [[Hf ->]|[Hf ->]]; simpl.
  2:{ repeat split; try done; intros Hf'; by destruct (Hf Hf'). }
  split; [by intros Hf'; destruct (Hf' Hf)|].
  split.
  { intros _ Hret. by destruct (Z.ltb_spec ret 0); [|lia]. }
  assert (Hh : forall x,
            lapack._handle_err_maybe_convergence_problem x
            = if x <? 0 then linalg.Aborts
              else if 0 <? x
                   then linalg.Raises (ValueError "Internal algorithm failed to converge.")
                   else linalg.Returns tt)
    by apply convergence_handler_cases.
  split; [|split].
  - intros _ Hret Hret2. destruct (Z.ltb_spec ret 0); [lia|]. simpl.
    rewrite Hrun1. simpl. rewrite Hrun. simpl.
    rewrite Hh. by destruct (Z.ltb_spec ret2 0); [|lia].
  - intros _ Hret Hret2. destruct (Z.ltb_spec ret 0); [lia|]. simpl.
    rewrite Hrun1. simpl. rewrite Hrun. simpl.
    rewrite Hh. destruct (Z.ltb_spec ret2 0); [lia|].
    by destruct (Z.ltb_spec 0 ret2); [|lia].
  - intros _ Hret ->. destruct (Z.ltb_spec ret 0); [lia|]. simpl.
    rewrite Hrun1. simpl. rewrite Hrun. simpl.
    exists (mk_matrix m k Q'), r. by repeat split.
Qed.

(** X20: the implementation of np.linalg.svd refuses an array with an element
    that is not finite, ends the process on a negative code of gesdd, raises
    ValueError on a positive one, and on zero returns u, s and vt of the shapes
    (m, m), (min(m, n)), (n, n) when full_matrices is not zero and (m, k), (k),
    (k, n) with k = min(m, n) when it is zero, u and vt being the transposes of
    what gesdd left. *)
Theorem svd_returns_arrays_of_the_numpy_shapes (kind : Z) (a : matrix)
    (full_matrices : Z) :
  let m := dim0 a in
  let n := dim1 a in
  let k := Nat.min m n in
  let full := negb (full_matrices =? 0) in
  let gesdd := numba_ez_gesdd kind (ord (if full then "A" else "S")%char) m n (elt a)
                              m m (if full then n else k) in
  (~ all_finite a ->
   svd_impl_inner kind a full_matrices
   = linalg.Raises (LinAlgError "Array must not contain infs or NaNs."))
  /\ (all_finite a -> gesdd.1.1.1 < 0 ->
      svd_impl_inner kind a full_matrices = linalg.Aborts)
  /\ (all_finite a -> 0 < gesdd.1.1.1 ->
      svd_impl_inner kind a full_matrices
      = linalg.Raises (ValueError "Internal algorithm failed to converge."))
  /\ (all_finite a -> gesdd.1.1.1 = 0 ->
      exists u s vt,
        svd_impl_inner kind a full_matrices = linalg.Returns (u, s, vt)
        /\ dim0 u = m /\ dim1 u = (if full then m else k)
        /\ len s = k
        /\ dim0 vt = (if full then n else k) /\ dim1 vt = n
        /\ (forall i j, elt u i j = gesdd.1.2 j i)
        /\ item s = gesdd.1.1.2
        /\ (forall i j, elt vt i j = gesdd.2 j i)).
Proof.
  intros m n k full gesdd.
  assert (Hh : forall x,
            lapack._handle_err_maybe_convergence_problem x
            = if x <? 0 then linalg.Aborts
              else if 0 <? x
                   then linalg.Raises (ValueError "Internal algorithm failed to converge.")
                   else linalg.Returns tt)
    by apply convergence_handler_cases.
  subst gesdd full. unfold svd_impl_inner. fold m n k.
  destruct (finite_cases a) as [[Hf ->]|[Hf ->]]; simpl.
  2:{ split_and!; try done; intros Hf'; by destruct (Hf Hf'). }
  split; [by intros Hf'; destruct (Hf' Hf)|].
  destruct (negb (full_matrices =? 0)); simpl;
    match goal with
    | |- context [numba_ez_gesdd ?a ?b ?c ?d ?e ?f ?g ?h] =>
        destruct (numba_ez_gesdd a b c d e f g h) as [[[r s] u] vt]
    end; simpl; rewrite Hh;
    (split_and!; intros _ Hr;
     [ by destruct (Z.ltb_spec r 0); [|lia]
     | destruct (Z.ltb_spec r 0); [lia|]; by destruct (Z.ltb_spec 0 r); [|lia]
     | subst r; simpl; eexists _, _, _; split; [done|]; by split_and! ]).
Qed.

(** X21: the implementation of np.linalg.eig for a real array refuses a
    non-square array, then an element that is not finite, ends the process on
    a negative code of rgeev and raises ValueError on a positive one; on zero
    it raises ValueError "eig() argument must not cause a domain change."
    exactly when some imaginary part that rgeev reports is non-zero, and
    otherwise returns the real parts and the transpose of the right
    eigenvectors. *)
Theorem real_eig_refuses_complex_eigenvalues (kind : Z) (a : matrix) :
  let n := dim1 a in
  let geev := numba_ez_rgeev kind (ord "N") (ord "V") n (elt a) n 1 n in
  (dim0 a <> dim1 a -> real_eig_impl kind a = linalg.Raises (LinAlgError square_msg))
  /\ (dim0 a = dim1 a -> ~ all_finite a ->
      real_eig_impl kind a
      = linalg.Raises (LinAlgError "Array must not contain infs or NaNs."))
  /\ (dim0 a = dim1 a -> all_finite a -> geev.1.1.1 < 0 ->
      real_eig_impl kind a = linalg.Aborts)
  /\ (dim0 a = dim1 a -> all_finite a -> 0 < geev.1.1.1 ->
      real_eig_impl kind a
      = linalg.Raises (ValueError "Internal algorithm failed to converge."))
  /\ (dim0 a = dim1 a -> all_finite a -> geev.1.1.1 = 0 ->
      ((exists i, (i < n)%nat /\ truth (geev.1.2 i) = true) ->
       real_eig_impl kind a
       = linalg.Raises (ValueError "eig() argument must not cause a domain change."))
      /\ ((forall i, (i < n)%nat -> truth (geev.1.2 i) = false) ->
          real_eig_impl kind a
          = linalg.Returns (mk_vector n geev.1.1.2,
                            transpose (mk_matrix n n geev.2)))).
Proof.
  intros n geev. unfold real_eig_impl. fold n geev.
  assert (Hh : forall x,
            lapack._handle_err_maybe_convergence_problem x
            = if x <? 0 then linalg.Aborts
              else if 0 <? x
                   then linalg.Raises (ValueError "Internal algorithm failed to converge.")
                   else linalg.Returns tt)
    by apply convergence_handler_cases.
  split; [intros Hne; by destruct (Nat.eqb_spec (dim0 a) n)|].
  destruct (Nat.eqb_spec (dim0 a) n) as [Hsq|Hnsq]; simpl.
  2:{ split_and!; intros Hsq; by destruct Hnsq. }
  destruct (finite_cases a) as [[Hf ->]|[Hf ->]]; simpl.
  2:{ split_and!; try done; intros _ Hf'; by destruct (Hf Hf'). }
  split; [by intros _ Hf'; destruct (Hf' Hf)|].
  destruct geev as [[[r wr] wi] vr]; simpl; rewrite Hh.
  split_and!; intros _ _ Hr.
  - by destruct (Z.ltb_spec r 0); [|lia].
  - destruct (Z.ltb_spec r 0); [lia|]; by destruct (Z.ltb_spec 0 r); [|lia].
  - subst r. simpl. unfold any. simpl. split.
    + intros (i & Hi & Hti).
      assert (Hex : existsb (fun i => truth (wi i)) (seq 0 n) = true).
      { apply existsb_exists. exists i. split; [apply in_seq; lia | done]. }
      by rewrite Hex.
    + intros Hall.
      assert (Hex : existsb (fun i => truth (wi i)) (seq 0 n) = false).
      { apply not_true_iff_false. intros Hex.
        apply existsb_exists in Hex as (i & Hi & Hti). apply in_seq in Hi.
        rewrite Hall in Hti; [done | lia]. }
      by rewrite Hex.
Qed.

End lapack_facts.

(** The facts above at a concrete array. *)

Module LapackRuns.

(** Stand-ins for what linalg.py takes from outside: integer elements, all of
    them finite, and wrappers that return zero and leave their arrays as they
    got them. *)
Definition stand_ins : lapack.Externals := {|
  lapack.scipy_lapack := true;
  lapack.F := Z;
  lapack.isfinite := fun _ => true;
  lapack.zero := 0;
  lapack.numba_xxgetrf := fun _ _ _ a _ => (0, a, fun _ => 0);
  lapack.numba_ez_xxgetri := fun _ _ a _ _ => (0, a);
  lapack.numba_xxpotrf := fun _ _ _ a _ => (0, a);
  lapack.numba_ez_geqrf := fun _ _ _ a _ => (0, a, fun _ => 0);
  lapack.numba_ez_xxgqr := fun _ _ _ _ a _ _ => (0, a);
  lapack.R := Z;
  lapack.numba_ez_gesdd := fun _ _ _ _ a _ _ _ => (0, fun _ => 1, a, a);
  lapack.truth := fun x => negb (x =? 0);
  lapack.numba_ez_rgeev := fun _ _ _ _ a _ _ _ => (0, fun _ => 1, fun _ => 0, a) |}.

(** The array [[1, 2], [3, 4]]. *)
Definition A : lapack.matrix (H := stand_ins) :=
  lapack.mk_matrix (H := stand_ins) 2 2 (fun i j => Z.of_nat (2 * i + j) + 1).

Lemma A_finite : all_finite (H := stand_ins) A.
Proof. intros i j _ _. reflexivity. Qed.

End LapackRuns.

Lemma blas_kind_table_witness :
  blas.get_blas_kind types.float64 "inv" = errors.Done "d"%char.
Proof.
  apply (proj1 (blas_kind_table types.float64 "inv")).
  right. left.
Defined.

Lemma linalg_argument_checks_witness :
  lapack._check_linalg_1_or_2d_matrix (types.Array types.float64 2 "C") "solve"
  = errors.Done tt.
Proof.
  apply (proj1 (proj2 (proj2 (linalg_argument_checks
                                (types.Array types.float64 2 "C") "solve")))).
  reflexivity.
Defined.

Lemma inv_overload_checks_scipy_then_type_then_kind_witness :
  lapack.inv_impl (H := LapackRuns.stand_ins) (types.Array types.float64 2 "C")
  = errors.Done (lapack.inv_impl_inner (lapack.ord "d")).
Proof.
  destruct (inv_overload_checks_scipy_then_type_then_kind
              (H := LapackRuns.stand_ins) (types.Array types.float64 2 "C"))
    as [_ Hok].
  destruct (Hok eq_refl) as [_ Harr].
  destruct (Harr types.float64 "C" eq_refl eq_refl) as [Hkind _].
  apply Hkind. right. left.
Defined.

Lemma inv_returns_only_for_square_finite_nonsingular_witness :
  lapack.inv_impl_inner (H := LapackRuns.stand_ins) 100 LapackRuns.A
  = linalg.Returns LapackRuns.A.
Proof.
  apply (proj1 (inv_returns_only_for_square_finite_nonsingular
                  (H := LapackRuns.stand_ins) 100 LapackRuns.A)).
  split; [reflexivity|]. split; [exact LapackRuns.A_finite|].
  split; reflexivity.
Defined.

Lemma cholesky_returns_a_lower_triangle_witness :
  exists out,
    lapack.cho_impl_inner (H := LapackRuns.stand_ins) 100 LapackRuns.A
    = linalg.Returns out
    /\ lapack.elt out 0 1 = 0 /\ lapack.elt out 1 0 = 3.
Proof.
  destruct (cholesky_returns_a_lower_triangle
              (H := LapackRuns.stand_ins) 100 LapackRuns.A) as (_ & _ & _ & Hok).
  destruct (Hok eq_refl eq_refl) as (out & Hrun & _ & _ & Helt).
  exists out. split; [exact Hrun|]. split.
  - apply (Helt 0%nat 1%nat); simpl; lia.
  - apply (Helt 1%nat 0%nat); simpl; lia.
Defined.

Lemma qr_copies_the_upper_trapezoid_witness :
  exists q r,
    lapack.qr_impl_inner (H := LapackRuns.stand_ins) 100 LapackRuns.A
    = linalg.Returns (q, r)
    /\ lapack.elt r 0 1 = 2 /\ lapack.elt r 1 0 = 0.
Proof.
  destruct (qr_copies_the_upper_trapezoid
              (H := LapackRuns.stand_ins) 100 LapackRuns.A) as (_ & _ & _ & _ & Hok).
  destruct (Hok LapackRuns.A_finite ltac:(simpl; lia) eq_refl)
    as (q & r & Hrun & _ & _ & _ & _ & _ & Helt).
  exists q, r. split; [exact Hrun|]. split.
  - apply (Helt 0%nat 1%nat); simpl; lia.
  - apply (Helt 1%nat 0%nat); simpl; lia.
Defined.

Lemma svd_returns_arrays_of_the_numpy_shapes_witness :
  exists u s vt,
    lapack.svd_impl_inner (H := LapackRuns.stand_ins) 100 LapackRuns.A 0
    = linalg.Returns (u, s, vt)
    /\ lapack.dim0 u = 2%nat /\ lapack.dim1 u = 2%nat /\ lapack.len s = 2%nat.
Proof.
  destruct (svd_returns_arrays_of_the_numpy_shapes
              (H := LapackRuns.stand_ins) 100 LapackRuns.A 0) as (_ & _ & _ & Hok).
  destruct (Hok LapackRuns.A_finite eq_refl)
    as (u & s & vt & Hrun & Hu0 & Hu1 & Hs & _).
  exists u, s, vt. split; [exact Hrun|]. split; [exact Hu0|].
  split; [exact Hu1 | exact Hs].
Defined.

Lemma real_eig_refuses_complex_eigenvalues_witness :
  lapack.real_eig_impl (H := LapackRuns.stand_ins) 100 LapackRuns.A
  = linalg.Returns (lapack.mk_vector 2 (fun _ => 1),
                    lapack.transpose LapackRuns.A).
Proof.
  destruct (real_eig_refuses_complex_eigenvalues
              (H := LapackRuns.stand_ins) 100 LapackRuns.A) as (_ & _ & _ & _ & Hok).
  destruct (Hok eq_refl LapackRuns.A_finite eq_refl) as [_ Hreal].
  apply Hreal. intros i _. reflexivity.
Defined.


(** ** The early passes of numba/untyped_passes.py *)

Module FixupArgs.
Section fixup.
(** The argument types, with [types.pyobject] among them. *)
Context {T : Type} (pyobject : T).

(** What [run_pass] reads and writes of the state. *)
Record State := mkState {
  arg_count : nat;          (* state['func_ir'].arg_count *)
  args : list T;            (* state['args'] *)
  nargs : option nat;       (* state['nargs'] *)
  force_pyobject : bool }.  (* state['flags'].force_pyobject *)

Definition mismatch_msg (given takes : nat) : string :=
  "Signature mismatch: " ++ str given
  ++ " argument types given, but function takes " ++ str takes ++ " arguments".

Definition run_pass (s : State) : errors.run bool * State :=
  let s := mkState (arg_count s) (args s) (Some (arg_count s)) (force_pyobject s) in
  if match args s with [] => true | _ => false end && force_pyobject s
  then (errors.Done true,
        mkState (arg_count s) (repeat pyobject (arg_count s)) (nargs s)
                (force_pyobject s))
  else if negb (length (args s) =? arg_count s)%nat
  then (errors.Throw (errors.TypeError (mismatch_msg (length (args s)) (arg_count s))),
        s)
  else (errors.Done true, s).

End fixup.
End FixupArgs.

(** X17: FixupArgs.run_pass always records the argument count of the function
    as nargs.  It returns True exactly when as many argument types are given as
    the function takes arguments, or none is given and object mode is forced;
    in that last case it fills in one pyobject per argument.  So after a normal
    return the number of argument types equals the number of arguments.
    Otherwise it raises TypeError with the two numbers in the message and
    leaves the argument types as they were; it never returns False. *)
Theorem fixup_args_makes_types_and_arguments_agree {T : Type} (pyobject : T)
    (s : FixupArgs.State) :
  let out := FixupArgs.run_pass pyobject s in
  FixupArgs.nargs out.2 = Some (FixupArgs.arg_count s)
  /\ FixupArgs.arg_count out.2 = FixupArgs.arg_count s
  /\ (out.1 = errors.Done true
      \/ out.1 = errors.Throw (errors.TypeError
                   (FixupArgs.mismatch_msg (length (FixupArgs.args s))
                                           (FixupArgs.arg_count s))))
  /\ (out.1 = errors.Done true <->
      length (FixupArgs.args s) = FixupArgs.arg_count s
      \/ (FixupArgs.args s = [] /\ FixupArgs.force_pyobject s = true))
  /\ (out.1 = errors.Done true ->
      length (FixupArgs.args out.2) = FixupArgs.arg_count s
      /\ (FixupArgs.args out.2 = FixupArgs.args s
          \/ (FixupArgs.args s = []
              /\ FixupArgs.args out.2 = repeat pyobject (FixupArgs.arg_count s))))
  /\ (out.1 <> errors.Done true -> FixupArgs.args out.2 = FixupArgs.args s).
Proof.
  destruct s as [ac ar na fp]. unfold FixupArgs.run_pass.
  cbn [FixupArgs.args FixupArgs.arg_count FixupArgs.nargs FixupArgs.force_pyobject].
  destruct ar as [|a ar]; cbn [andb].
  - destruct fp; cbn [andb].
    + cbn [fst snd FixupArgs.args FixupArgs.arg_count FixupArgs.nargs].
      split_and!; auto.
      * split; [by right | done].
      * intros _. split; [by rewrite repeat_length | by right].
      * done.
    + destruct (Nat.eqb_spec (length (@nil T)) ac) as [Heq|Hne];
        cbn [negb fst snd FixupArgs.args FixupArgs.arg_count FixupArgs.nargs].
      * split_and!; auto. split; [by left | done].
      * split_and!; auto.
        -- split; [done | intros [?|[_ ?]]; [lia | done]].
        -- done.
  - destruct (Nat.eqb_spec (length (a :: ar)) ac) as [Heq|Hne];
      cbn [negb fst snd FixupArgs.args FixupArgs.arg_count FixupArgs.nargs].
    + split_and!; auto. split; [by left | done].
    + split_and!; auto.
      * split; [done | intros [?|[? _]]; [lia | done]].
      * done.
Qed.

Lemma fixup_args_makes_types_and_arguments_agree_witness :
  let s := FixupArgs.mkState 2 (@nil string) None true in
  (FixupArgs.run_pass "pyobject" s).1 = errors.Done true
  /\ FixupArgs.args (FixupArgs.run_pass "pyobject" s).2 = ["pyobject"; "pyobject"].
Proof.
  intros s.
  destruct (fixup_args_makes_types_and_arguments_agree "pyobject" s)
    as (_ & _ & _ & Hiff & Hok & _).
  assert (Hdone : (FixupArgs.run_pass "pyobject" s).1 = errors.Done true)
    by (apply Hiff; right; split; reflexivity).
  split; [exact Hdone|].
  destruct (Hok Hdone) as [_ [Hsame|[_ Hfill]]]; [discriminate Hsame | exact Hfill].
Defined.


(** ** fallback_context and the passes it guards *)

Module Fallback.

(** A call of [warnings.warn_explicit(message, category, filename, lineno)]. *)
Record warning := mk_warning {
  message : string;
  category : string;
  filename : string;
  lineno : nat }.

(** What the context manager and the guarded passes read of the state. *)
Record State := mkState {
  func_ir : option FunctionIR;      (* state.func_ir, None when not set *)
  can_fallback : bool;              (* state.status.can_fallback *)
  enable_looplift : bool;           (* state.flags.enable_looplift *)
  func_name : string;               (* state.func_id.func_name *)
  func_filename : string;           (* state.func_id.filename *)
  firstlineno : nat }.              (* state.func_id.firstlineno *)

Definition set_func_ir (s : State) (f : FunctionIR) : State :=
  mkState (Some f) (can_fallback s) (enable_looplift s) (func_name s)
          (func_filename s) (firstlineno s).

Section fallback.
(** [str(e)], and what [warnings.warn_explicit] does with a warning: under a
    filter that turns warnings into errors it raises. *)
Variables (str_exn : exn -> string) (warn_explicit : warning -> result unit).

Definition fallback_message (enable_looplift : bool) (msg : string) (e : exn) : string :=
  let loop_lift := if enable_looplift then "" else "OUT" in
  let msg_rewrite :=
    newline ++ "Compilation is falling back to object mode WITH" ++ loop_lift
    ++ " looplifting enabled because " ++ msg in
  msg_rewrite ++ " due to: " ++ str_exn e.

(** [with fallback_context(state, msg): body], given what the body ended in:
    what the with statement ends in, and the warnings handed to
    [warn_explicit] that it let pass. *)
Definition fallback_context {A} (state : State) (msg : string) (body : result A)
  : result A * list warning :=
  match body with
  | Ok a => (Ok a, [])
  | Raise e =>
      if negb (can_fallback state) then (Raise e, [])
      else
        let w := mk_warning (fallback_message (enable_looplift state) msg e)
                            "NumbaWarning" (func_filename state) (firstlineno state) in
        match warn_explicit w with
        | Ok _ => (Raise e, [w])
        | Raise e' => (Raise e', [])
        end
  end.

End fallback.
End Fallback.

Module RewriteSemanticConstants.
Section pass.
Variables (str_exn : exn -> string) (warn_explicit : Fallback.warning -> result unit).
(** [rewrite_semantic_constants(state.func_ir, state.args)] of analysis.py: how
    the call ends and the function IR as it leaves it. *)
Variable rewrite_semantic_constants : FunctionIR -> result unit * FunctionIR.

Definition run_pass (state : Fallback.State)
  : result bool * Fallback.State * list Fallback.warning :=
  match Fallback.func_ir state with
  | None => (Raise AssertionError, state, [])
  | Some f =>
      let msg :=
        "Internal error in pre-inference dead branch pruning pass encountered during compilation of function "
        ++ dquote ++ Fallback.func_name state ++ dquote in
      let '(r, f') := rewrite_semantic_constants f in
      let state' := Fallback.set_func_ir state f' in
      match Fallback.fallback_context str_exn warn_explicit state msg r with
      | (Ok _, ws) => (Ok true, state', ws)
      | (Raise e, ws) => (Raise e, state', ws)
      end
  end.

End pass.
End RewriteSemanticConstants.

Module DeadBranchPrune.
Section pass.
Variables (str_exn : exn -> string) (warn_explicit : Fallback.warning -> result unit).
(** [self.get_analysis(type(self))] of compiler_machinery.py and
    [dead_branch_prune(state.func_ir, state.args)] of analysis.py *)
Variables (get_analysis : result unit)
          (dead_branch_prune : FunctionIR -> result unit * FunctionIR).

Definition run_pass (state : Fallback.State)
  : result bool * Fallback.State * list Fallback.warning :=
  match get_analysis with
  | Raise e => (Raise e, state, [])
  | Ok _ =>
      match Fallback.func_ir state with
      | None => (Raise AssertionError, state, [])
      | Some f =>
          let msg :=
            "Internal error in pre-inference dead branch pruning pass encountered during compilation of function "
            ++ dquote ++ Fallback.func_name state ++ dquote in
          let '(r, f') := dead_branch_prune f in
          let state' := Fallback.set_func_ir state f' in
          match Fallback.fallback_context str_exn warn_explicit state msg r with
          | (Ok _, ws) => (Ok true, state', ws)
          | (Raise e, ws) => (Raise e, state', ws)
          end
      end
  end.

End pass.
End DeadBranchPrune.

Module GenericRewrites.
Section pass.
Variables (str_exn : exn -> string) (warn_explicit : Fallback.warning -> result unit).
(** [rewrites.rewrite_registry.apply('before-inference', state)] *)
Variable rewrite_registry_apply : FunctionIR -> result unit * FunctionIR.

Definition run_pass (state : Fallback.State)
  : result bool * Fallback.State * list Fallback.warning :=
  match Fallback.func_ir state with
  | None => (Raise AssertionError, state, [])
  | Some f =>
      let msg :=
        "Internal error in pre-inference rewriting pass encountered during compilation of function "
        ++ dquote ++ Fallback.func_name state ++ dquote in
      let '(r, f') := rewrite_registry_apply f in
      let state' := Fallback.set_func_ir state f' in
      match Fallback.fallback_context str_exn warn_explicit state msg r with
      | (Ok _, ws) => (Ok true, state', ws)
      | (Raise e, ws) => (Raise e, state', ws)
      end
  end.

End pass.
End GenericRewrites.

(** X18: a with statement under fallback_context ends the way its body ends
    whenever the body returns, and never ends normally when the body raised:
    without permission to fall back the exception of the body goes on and no
    warning is made; with it exactly one NumbaWarning is handed to
    warnings.warn_explicit, for the file and first line of the function, its
    text saying WITH or WITHOUT looplifting by the looplift flag and ending in
    the exception's text, and then the exception of the body goes on, unless
    warn_explicit itself raised, in which case that exception does. *)
Theorem fallback_context_never_swallows {A : Type}
    (str_exn : exn -> string) (warn_explicit : Fallback.warning -> result unit)
    (state : Fallback.State) (msg : string) (body : result A) :
  let out := Fallback.fallback_context str_exn warn_explicit state msg body in
  (forall a, body = Ok a -> out = (Ok a, []))
  /\ (forall e, body = Raise e ->
        (exists e', out.1 = Raise e')
        /\ (Fallback.can_fallback state = false -> out = (Raise e, []))
        /\ (Fallback.can_fallback state = true ->
            let w := Fallback.mk_warning
                       (Fallback.fallback_message str_exn
                          (Fallback.enable_looplift state) msg e)
                       "NumbaWarning" (Fallback.func_filename state)
                       (Fallback.firstlineno state) in
            (warn_explicit w = Ok tt -> out = (Raise e, [w]))
            /\ (forall e', warn_explicit w = Raise e' -> out = (Raise e', []))))
  /\ (forall a, out.1 = Ok a -> body = Ok a /\ out.2 = []).
Proof.
  intros out. unfold out, Fallback.fallback_context. split; [|split].
  - by intros a ->.
  - intros e ->. destruct (Fallback.can_fallback state); simpl.
    + split.
      * destruct (warn_explicit _) as [[]|e']; by eexists.
      * split; [done|]. intros _. split.
        -- by intros ->.
        -- by intros e' ->.
    + split; [by eexists|]. split; [done | done].
  - intros a. destruct body as [a'|e]; [by intros [= ->]|].
    destruct (Fallback.can_fallback state); simpl; [|done].
    by destruct (warn_explicit _) as [[]|e'].
Qed.

(** The three guarded passes, case by case. *)
Lemma guarded_passes_cases
    (str_exn : exn -> string) (warn_explicit : Fallback.warning -> result unit)
    (call : FunctionIR -> result unit * FunctionIR) (get_analysis : result unit)
    (state : Fallback.State) :
  let rsc := RewriteSemanticConstants.run_pass str_exn warn_explicit call state in
  let dbp := DeadBranchPrune.run_pass str_exn warn_explicit get_analysis call state in
  let gr := GenericRewrites.run_pass str_exn warn_explicit call state in
  (Fallback.func_ir state = None ->
   rsc = (Raise AssertionError, state, []) /\ gr = (Raise AssertionError, state, []))
  /\ (forall f, Fallback.func_ir state = Some f ->
        (rsc.1.1 = Ok true <-> (call f).1 = Ok tt)
        /\ (gr.1.1 = Ok true <-> (call f).1 = Ok tt)
        /\ rsc.1.2 = Fallback.set_func_ir state (call f).2
        /\ gr.1.2 = Fallback.set_func_ir state (call f).2
        /\ (length rsc.2 <= 1)%nat /\ (length gr.2 <= 1)%nat)
  /\ rsc.1.1 <> Ok false /\ dbp.1.1 <> Ok false /\ gr.1.1 <> Ok false
  /\ (get_analysis = Ok tt -> dbp = rsc).
Proof.
  intros rsc dbp gr. unfold rsc, dbp, gr.
  unfold RewriteSemanticConstants.run_pass, DeadBranchPrune.run_pass,
    GenericRewrites.run_pass, Fallback.fallback_context.
  destruct (Fallback.func_ir state) as [f|] eqn:Hf.
  - destruct (call f) as [[[]|e] f'] eqn:Hc; simpl.
    + split; [done|]. split.
      * intros f0 [= <-]. rewrite Hc. simpl. split_and!; try done; lia.
      * split_and!; try done.
        -- by destruct get_analysis as [[]|e].
        -- by intros ->.
    + split; [done|]. split.
      * intros f0 [= <-]. rewrite Hc. simpl.
        destruct (Fallback.can_fallback state); simpl.
        -- destruct (warn_explicit _) as [[]|e1]; destruct (warn_explicit _) as [[]|e2];
             simpl; split_and!; try done; lia.
        -- split_and!; try done; lia.
      * split_and!.
        -- destruct (Fallback.can_fallback state); simpl; [|done].
           by destruct (warn_explicit _) as [[]|e1].
        -- destruct get_analysis as [[]|e0]; [|done].
           destruct (Fallback.can_fallback state); simpl; [|done].
           by destruct (warn_explicit _) as [[]|e1].
        -- destruct (Fallback.can_fallback state); simpl; [|done].
           by destruct (warn_explicit _) as [[]|e1].
        -- by intros ->.
  - split; [done|]. split; [done|]. split_and!; try done.
    + by destruct get_analysis as [[]|e].
    + by intros ->.
Qed.


Lemma fallback_context_never_swallows_witness :
  let state := Fallback.mkState None true false "f" "f.py" 3 in
  (Fallback.fallback_context (fun _ => "boom") (fun _ => Ok tt) state "nothing works"
                             (@Raise unit KeyError)).1
  = Raise KeyError.
Proof.
  intros state.
  destruct (fallback_context_never_swallows (A := unit) (fun _ => "boom")
              (fun _ => Ok tt) state "nothing works" (Raise KeyError))
    as (_ & Hraise & _).
  destruct (Hraise KeyError eq_refl) as (_ & _ & Hfall).
  destruct (Hfall eq_refl) as [Hwarned _].
  rewrite (Hwarned eq_refl). reflexivity.
Defined.


(** ** What a False return of the two passes means *)

Section mutation_flag.
Context `{Collaborators}.

Lemma canonicalise_true (loops : list (label * Loop))
    (tm : option (list (string * ty))) (succs : label -> list label) :
  forall s r s',
    IterLoopCanonicalization.canonicalise loops tm succs true s = (Ok r, s') ->
    r = true.
Proof.
  induction loops as [|[lbl l] rest IH]; intros s r s'; simpl.
  - by intros [= <- <-].
  - unfold mbind, IterLoopCanonicalization.T_bind, IterLoopCanonicalization.get_ir,
      IterLoopCanonicalization.liftT. simpl.
    destruct (IterLoopCanonicalization.assess_loop l s.1 tm) as [[|]|e]; [| |done].
    + destruct (IterLoopCanonicalization.transform l succs s) as [[[]|e] s1]; [|done].
      apply IH.
    + apply IH.
Qed.

Lemma canonicalise_false (loops : list (label * Loop))
    (tm : option (list (string * ty))) (succs : label -> list label)
    (f : FunctionIR) (c : nat) (s' : FunctionIR * nat) :
  IterLoopCanonicalization.canonicalise loops tm succs false (f, c) = (Ok false, s')
  <-> Forall (fun p => IterLoopCanonicalization.assess_loop p.2 f tm = Ok false) loops
      /\ s' = (f, c).
Proof.
  induction loops as [|[lbl l] rest IH]; simpl.
  - split; [by intros [= <-] | by intros [_ ->]].
  - unfold mbind, IterLoopCanonicalization.T_bind, IterLoopCanonicalization.get_ir,
      IterLoopCanonicalization.liftT. simpl.
    destruct (IterLoopCanonicalization.assess_loop l f tm) as [[|]|e] eqn:Ha.
    + split.
      * destruct (IterLoopCanonicalization.transform l succs (f, c)) as [[[]|e] s1];
          [|done].
        intros Hc. by apply canonicalise_true in Hc.
      * intros [Hall _]. apply Forall_cons in Hall as [Hl _]. simpl in Hl. congruence.
    + rewrite IH. split.
      * intros [Hall ->]. split; [by constructor | done].
      * intros [Hall ->]. by apply Forall_cons in Hall as [_ Hall].
    + split; [done|]. intros [Hall _]. apply Forall_cons in Hall as [Hl _].
      simpl in Hl. congruence.
Qed.

(** X22: IterLoopCanonicalization.run_pass returns False exactly when
    assess_loop rejects every loop of the function, and then the state it
    leaves is the state it got with the block map replaced by its CFG
    simplification: a False return means that no loop was transformed and no
    name drawn, but not that the blocks are as they were. *)
Theorem canonicaliser_reports_false_exactly_when_it_only_simplifies (w w' : World) :
  IterLoopCanonicalization.run_pass w = (Ok false, w')
  <-> Forall (fun p => IterLoopCanonicalization.assess_loop
                         p.2 (func_ir (state w)) (typemap (state w)) = Ok false)
             (cfg_loops (blocks (func_ir (state w))))
      /\ w' = with_ir w (set_blocks (func_ir (state w))
                                    (simplify_CFG (blocks (func_ir (state w))))).
Proof.
  unfold IterLoopCanonicalization.run_pass.
  unfold mbind at 1, IterLoopCanonicalization.T_bind at 1.
  destruct (IterLoopCanonicalization.canonicalise
              (cfg_loops (blocks (func_ir (state w)))) (typemap (state w))
              (cfg_successors (blocks (func_ir (state w)))) false
              (func_ir (state w), _unique_var_count w))
    as [[m|e] [f1 c1]] eqn:Hc; simpl.
  - destruct m.
    + split; [done|]. intros [Hall _].
      assert (Hf : IterLoopCanonicalization.canonicalise
                (cfg_loops (blocks (func_ir (state w)))) (typemap (state w))
                (cfg_successors (blocks (func_ir (state w)))) false
                (func_ir (state w), _unique_var_count w)
              = (Ok false, (func_ir (state w), _unique_var_count w)))
        by (by apply canonicalise_false).
      congruence.
    + apply canonicalise_false in Hc as [Hall [= -> ->]].
      split; [by intros [= <-] | by intros [_ ->]].
  - split; [done|]. intros [Hall _].
    assert (Hf : IterLoopCanonicalization.canonicalise
              (cfg_loops (blocks (func_ir (state w)))) (typemap (state w))
              (cfg_successors (blocks (func_ir (state w)))) false
              (func_ir (state w), _unique_var_count w)
            = (Ok false, (func_ir (state w), _unique_var_count w)))
      by (by apply canonicalise_false).
    congruence.
Qed.

(** X23: when MixedContainerUnroller.run_pass returns False, its first scan
    found nothing to unroll, and the state it leaves is the state it got with
    the block map replaced by its CFG simplification and the typing reset: the
    function has been changed by the simplification although the pass reports
    no mutation, and by nothing else. *)
Theorem unroller_reports_false_only_when_it_only_simplifies
    (fuel : nat) (w w' : World) :
  MixedContainerUnroller.run_pass fuel w = Some (Ok false, w') ->
  MixedContainerUnroller.apply_transform (MixedContainerUnroller.squash w)
  = (Ok false, MixedContainerUnroller.squash w)
  /\ w' = set_state (MixedContainerUnroller.squash w)
                    (MixedContainerUnroller.reset_typing
                       (state (MixedContainerUnroller.squash w))).
Proof.
  unfold MixedContainerUnroller.run_pass.
  destruct fuel as [|fuel]; [done|]. simpl.
  destruct (MixedContainerUnroller.apply_transform (MixedContainerUnroller.squash w))
    as [[stat|e] w1] eqn:Ha; [|done].
  destruct stat; simpl.
  - destruct (MixedContainerUnroller.transform_loop fuel w1 true)
      as [[[m|e] w2]|] eqn:Ht; [|done|done].
    apply transform_loop_true in Ht as ->. done.
  - intros [= <-]. apply apply_transform_false in Ha as Hw. subst w1. done.
Qed.

End mutation_flag.

(** [Examples.detour] after the unroller. *)
Definition detour_unrolled : World :=
  Eval vm_compute in
    match Runs.unroll 1 Examples.detour with
    | Some (_, w) => w
    | None => Examples.detour
    end.

Lemma unroller_reports_false_only_when_it_only_simplifies_witness :
  Runs.unroll 1 Examples.detour = Some (Ok false, detour_unrolled)
  /\ detour_unrolled
     = set_state
         (MixedContainerUnroller.squash (H := Reference.collaborators) Examples.detour)
         (MixedContainerUnroller.reset_typing
            (state (MixedContainerUnroller.squash (H := Reference.collaborators)
                                                  Examples.detour)))
  /\ blocks (func_ir (state detour_unrolled)) <> Examples.detour_blocks.
Proof.
  assert (Hrun : Runs.unroll 1 Examples.detour = Some (Ok false, detour_unrolled))
    by (vm_compute; reflexivity).
  split; [exact Hrun|]. split.
  - exact (proj2 (unroller_reports_false_only_when_it_only_simplifies
                    (H := Reference.collaborators) 1 Examples.detour _ Hrun)).
  - vm_compute. discriminate.
Defined.
